(** * go-deeper: the deep-clone engine of package [cloner]

    A shallow embedding of [cloner.go] (the version with the typed wrapper
    [Clone[T]], the statistics sink and [cloneInterface]) and the properties
    of its dispatcher, visited registry and composite cloners.

    Go values live in a heap of cells, backing arrays and maps; a
    [reflect.Value] is a value read from that heap together with its
    read-only flag; functions returning [(interface{}, error)] return the
    pair, a panic, or run out of fuel. *)

From Stdlib Require Import ZArith.
From Stdlib Require HexString.
From stdpp Require Import gmap strings list fin_maps pretty.

Open Scope string_scope.
Open Scope nat_scope.

(** ** Types and kinds (package [reflect]) *)

Module reflect.
Inductive Kind :=
| Bool | Int | String | Ptr | Slice | Array | Map | Struct | Interface | Chan | Func.
End reflect.
Abbreviation Kind := reflect.Kind.

#[local] Unset Elimination Schemes.

(** Go types. [TStruct name fields] is a struct type with its field
    declarations; [TInterface] is the empty interface [interface{}];
    a function type is identified by its signature. *)
Inductive type :=
| TBool
| TInt
| TString
| TPtr (elem : type)
| TSlice (elem : type)
| TArray (len : nat) (elem : type)
| TMap (key elem : type)
| TStruct (name : string) (fields : list (string * type))
| TInterface
| TChan (elem : type)
| TFunc (sig : string).

(** Addresses are [uintptr]s; no object lives at 0. *)
Definition addr := N.

(** Values, each carrying what [reflect] can tell about it. A pointer,
    slice, map, channel or function is [None] when nil. A slice is its
    header: data address, length and capacity. *)
Inductive value :=
| VBool (b : bool)
| VInt (n : Z)
| VString (s : string)
| VPtr (elem : type) (p : option addr)
| VSlice (elem : type) (hdr : option (addr * nat * nat))
| VArray (elem : type) (elems : list value)
| VMap (key elem : type) (m : option addr)
| VStruct (name : string) (fields : list (string * type * value))
| VIface (dyn : option value)
| VChan (elem : type) (c : option addr)
| VFunc (sig : string) (code : option addr).

(** Go's [interface{}] as the engine passes it around: nil, or a value of
    some concrete type. *)
Definition iface := option value.

(** What an address holds: a variable (the target of a pointer), the
    backing array of slices, or the entries of a map in the order
    [MapKeys] lists them. *)
Inductive object :=
| OCell (v : value)
| OArray (elems : list value)
| OMap (entries : list (value * value)).

#[local] Set Elimination Schemes.

Definition typeof (v : value) : type :=
  match v with
  | VBool _ => TBool
  | VInt _ => TInt
  | VString _ => TString
  | VPtr t _ => TPtr t
  | VSlice t _ => TSlice t
  | VArray t l => TArray (length l) t
  | VMap k e _ => TMap k e
  | VStruct n fs => TStruct n (map (λ f, (f.1.1, f.1.2)) fs)
  | VIface _ => TInterface
  | VChan t _ => TChan t
  | VFunc s _ => TFunc s
  end.

Definition kind_of_type (t : type) : Kind :=
  match t with
  | TBool => reflect.Bool | TInt => reflect.Int | TString => reflect.String
  | TPtr _ => reflect.Ptr | TSlice _ => reflect.Slice
  | TArray _ _ => reflect.Array | TMap _ _ => reflect.Map
  | TStruct _ _ => reflect.Struct | TInterface => reflect.Interface
  | TChan _ => reflect.Chan | TFunc _ => reflect.Func
  end.

Definition kind_of (v : value) : Kind := kind_of_type (typeof v).

(** [Kind.String]. *)
Definition Kind_String (k : Kind) : string :=
  match k with
  | reflect.Bool => "bool" | reflect.Int => "int" | reflect.String => "string"
  | reflect.Ptr => "ptr" | reflect.Slice => "slice" | reflect.Array => "array"
  | reflect.Map => "map" | reflect.Struct => "struct"
  | reflect.Interface => "interface" | reflect.Chan => "chan"
  | reflect.Func => "func"
  end.

(** Decimal rendering of a length or an index ([%d]). *)
Definition dec (n : nat) : string := pretty n.

(** [Type.String]. *)
Fixpoint Type_String (t : type) : string :=
  match t with
  | TBool => "bool"
  | TInt => "int"
  | TString => "string"
  | TPtr e => "*" ++ Type_String e
  | TSlice e => "[]" ++ Type_String e
  | TArray n e => "[" ++ dec n ++ "]" ++ Type_String e
  | TMap k e => "map[" ++ Type_String k ++ "]" ++ Type_String e
  | TStruct n fs =>
      if decide (n = "") then
        "struct {" ++
        (fix go (l : list (string * type)) : string :=
           match l with
           | [] => " }"
           | f :: l' =>
               " " ++ f.1 ++ " " ++ Type_String f.2 ++
               (match l' with [] => "" | _ => ";" end) ++ go l'
           end) fs
      else n
  | TInterface => "interface {}"
  | TChan e => "chan " ++ Type_String e
  | TFunc s => s
  end.

(** ** Decidable equality of types and values *)

Fixpoint type_eqb (a b : type) {struct a} : bool :=
  match a, b with
  | TBool, TBool | TInt, TInt | TString, TString | TInterface, TInterface => true
  | TPtr x, TPtr y | TSlice x, TSlice y | TChan x, TChan y => type_eqb x y
  | TArray n x, TArray m y => bool_decide (n = m) && type_eqb x y
  | TMap k x, TMap l y => type_eqb k l && type_eqb x y
  | TStruct n fs, TStruct m gs =>
      bool_decide (n = m) &&
      (fix go (l1 l2 : list (string * type)) : bool :=
         match l1, l2 with
         | [], [] => true
         | f :: l1', g :: l2' =>
             bool_decide (f.1 = g.1) && type_eqb f.2 g.2 && go l1' l2'
         | _, _ => false
         end) fs gs
  | TFunc s, TFunc r => bool_decide (s = r)
  | _, _ => false
  end.

Fixpoint value_eqb (a b : value) {struct a} : bool :=
  match a, b with
  | VBool x, VBool y => bool_decide (x = y)
  | VInt x, VInt y => bool_decide (x = y)
  | VString x, VString y => bool_decide (x = y)
  | VPtr t p, VPtr u q => type_eqb t u && bool_decide (p = q)
  | VSlice t h, VSlice u g => type_eqb t u && bool_decide (h = g)
  | VArray t l1, VArray u l2 =>
      type_eqb t u &&
      (fix go (l1 l2 : list value) : bool :=
         match l1, l2 with
         | [], [] => true
         | x :: l1', y :: l2' => value_eqb x y && go l1' l2'
         | _, _ => false
         end) l1 l2
  | VMap k e m, VMap k' e' m' =>
      type_eqb k k' && type_eqb e e' && bool_decide (m = m')
  | VStruct n fs, VStruct m gs =>
      bool_decide (n = m) &&
      (fix go (l1 l2 : list (string * type * value)) : bool :=
         match l1, l2 with
         | [], [] => true
         | f :: l1', g :: l2' =>
             bool_decide (f.1.1 = g.1.1) && type_eqb f.1.2 g.1.2 &&
             value_eqb f.2 g.2 && go l1' l2'
         | _, _ => false
         end) fs gs
  | VIface None, VIface None => true
  | VIface (Some x), VIface (Some y) => value_eqb x y
  | VChan t c, VChan u d => type_eqb t u && bool_decide (c = d)
  | VFunc s c, VFunc r d => bool_decide (s = r) && bool_decide (c = d)
  | _, _ => false
  end.

(** Induction principles that reach through the nested lists. *)
Section induction_principles.

Variable P : type → Prop.
Hypothesis HBool : P TBool.
Hypothesis HInt : P TInt.
Hypothesis HString : P TString.
Hypothesis HPtr : ∀ e, P e → P (TPtr e).
Hypothesis HSlice : ∀ e, P e → P (TSlice e).
Hypothesis HArray : ∀ n e, P e → P (TArray n e).
Hypothesis HMap : ∀ k e, P k → P e → P (TMap k e).
Hypothesis HStruct : ∀ n fs, Forall (λ f, P f.2) fs → P (TStruct n fs).
Hypothesis HInterface : P TInterface.
Hypothesis HChan : ∀ e, P e → P (TChan e).
Hypothesis HFunc : ∀ s, P (TFunc s).

Fixpoint type_ind (t : type) : P t :=
  match t with
  | TBool => HBool
  | TInt => HInt
  | TString => HString
  | TPtr e => HPtr e (type_ind e)
  | TSlice e => HSlice e (type_ind e)
  | TArray n e => HArray n e (type_ind e)
  | TMap k e => HMap k e (type_ind k) (type_ind e)
  | TStruct n fs =>
      HStruct n fs
        ((fix go (l : list (string * type)) : Forall (λ f, P f.2) l :=
            match l with
            | [] => List.Forall_nil _
            | f :: l' => List.Forall_cons _ f l' (type_ind f.2) (go l')
            end) fs)
  | TInterface => HInterface
  | TChan e => HChan e (type_ind e)
  | TFunc s => HFunc s
  end.

End induction_principles.

Section value_induction.

Variable P : value → Prop.
Hypothesis HBool : ∀ b, P (VBool b).
Hypothesis HInt : ∀ n, P (VInt n).
Hypothesis HString : ∀ s, P (VString s).
Hypothesis HPtr : ∀ t p, P (VPtr t p).
Hypothesis HSlice : ∀ t h, P (VSlice t h).
Hypothesis HArray : ∀ t l, Forall P l → P (VArray t l).
Hypothesis HMap : ∀ k e m, P (VMap k e m).
Hypothesis HStruct : ∀ n fs, Forall (λ f, P f.2) fs → P (VStruct n fs).
Hypothesis HIfaceNil : P (VIface None).
Hypothesis HIface : ∀ v, P v → P (VIface (Some v)).
Hypothesis HChan : ∀ t c, P (VChan t c).
Hypothesis HFunc : ∀ s c, P (VFunc s c).

Fixpoint value_ind (v : value) : P v :=
  match v with
  | VBool b => HBool b
  | VInt n => HInt n
  | VString s => HString s
  | VPtr t p => HPtr t p
  | VSlice t h => HSlice t h
  | VArray t l =>
      HArray t l
        ((fix go (l : list value) : Forall P l :=
            match l with
            | [] => List.Forall_nil _
            | x :: l' => List.Forall_cons _ x l' (value_ind x) (go l')
            end) l)
  | VMap k e m => HMap k e m
  | VStruct n fs =>
      HStruct n fs
        ((fix go (l : list (string * type * value)) : Forall (λ f, P f.2) l :=
            match l with
            | [] => List.Forall_nil _
            | f :: l' => List.Forall_cons _ f l' (value_ind f.2) (go l')
            end) fs)
  | VIface None => HIfaceNil
  | VIface (Some x) => HIface x (value_ind x)
  | VChan t c => HChan t c
  | VFunc s c => HFunc s c
  end.

End value_induction.

Lemma type_eqb_eq (a b : type) : type_eqb a b = true ↔ a = b.
Proof.
  revert b. induction a using type_ind; intros b; destruct b; simpl;
    rewrite ?andb_true_iff, ?bool_decide_eq_true, ?IHa, ?IHa1, ?IHa2;
    try (split; [intros; destruct_and?; congruence | intros [=]; subst; done]).
  rename fields into gs.
  assert (Hgo : ∀ gs,
    (fix go (l1 l2 : list (string * type)) : bool :=
       match l1, l2 with
       | [], [] => true
       | f :: l1', g :: l2' =>
           bool_decide (f.1 = g.1) && type_eqb f.2 g.2 && go l1' l2'
       | _, _ => false
       end) fs gs = true ↔ fs = gs).
  { clear gs. induction H as [|[fn ft] fs IH1 _ IH2]; intros [|[gn gt] gs]; simpl;
      try (split; [done | intros [=]]); [done|].
    simpl in IH1. rewrite !andb_true_iff, bool_decide_eq_true, IH1, IH2.
    split; [intros [[-> ->] ->]; done | intros [=]; subst; done]. }
  rewrite Hgo. split; [intros [-> ->]; done | intros [=]; subst; done].
Qed.

Lemma type_eqb_refl (a : type) : type_eqb a a = true.
Proof. by apply type_eqb_eq. Qed.

#[global] Instance type_eq_dec : EqDecision type.
Proof.
  intros a b. destruct (type_eqb a b) eqn:E.
  - left. by apply type_eqb_eq.
  - right. intros H. apply type_eqb_eq in H. congruence.
Defined.

Lemma value_eqb_eq (a b : value) : value_eqb a b = true ↔ a = b.
Proof.
  revert b. induction a using value_ind; intros w; destruct w; simpl;
    rewrite ?andb_true_iff, ?bool_decide_eq_true, ?type_eqb_eq;
    try (split; [intros; destruct_and?; congruence | intros [=]; subst; done]).
  - assert (Hgo : ∀ l2,
      (fix go (l1 l2 : list value) : bool :=
         match l1, l2 with
         | [], [] => true
         | x :: l1', y :: l2' => value_eqb x y && go l1' l2'
         | _, _ => false
         end) l l2 = true ↔ l = l2).
    { induction H as [|x l IH1 _ IH2]; intros [|y l2]; simpl;
        try (split; [done | intros [=]]); [done|].
      rewrite andb_true_iff, IH1, IH2.
      split; [intros [-> ->]; done | intros [=]; subst; done]. }
    rewrite Hgo. split; [intros [-> ->]; done | intros [=]; subst; done].
  - assert (Hgo : ∀ gs,
      (fix go (l1 l2 : list (string * type * value)) : bool :=
         match l1, l2 with
         | [], [] => true
         | f :: l1', g :: l2' =>
             bool_decide (f.1.1 = g.1.1) && type_eqb f.1.2 g.1.2 &&
             value_eqb f.2 g.2 && go l1' l2'
         | _, _ => false
         end) fs gs = true ↔ fs = gs).
    { induction H as [|[[fn ft] fv] fs IH1 _ IH2]; intros [|[[gn gt] gv] gs]; simpl;
        try (split; [done | intros [=]]); [done|].
      simpl in IH1. rewrite !andb_true_iff, bool_decide_eq_true, type_eqb_eq, IH1, IH2.
      split; [intros [[[-> ->] ->] ->]; done | intros [=]; subst; done]. }
    rewrite Hgo. split; [intros [-> ->]; done | intros [=]; subst; done].
  - destruct dyn; split; try done.
  - destruct dyn; [|split; done].
    rewrite IHa. split; [intros ->; done | intros [=]; done].
Qed.

Lemma value_eqb_refl (a : value) : value_eqb a a = true.
Proof. by apply value_eqb_eq. Qed.

#[global] Instance value_eq_dec : EqDecision value.
Proof.
  intros a b. destruct (value_eqb a b) eqn:E.
  - left. by apply value_eqb_eq.
  - right. intros H. apply value_eqb_eq in H. congruence.
Defined.

(** ** The heap, the manager and the outcome of a call *)

(** An [error] is its message ([errors.New], [fmt.Errorf]). *)
Definition error := string.

(** What a Go function returning [A] can do: return, panic, or still be
    running when the fuel is spent. *)
Inductive outcome (A : Type) :=
| Ret (a : A)
| Panic (msg : string)
| OutOfFuel.
Arguments Ret {A} a.
Arguments Panic {A} msg.
Arguments OutOfFuel {A}.

(** [heap] is the memory of the process; [visited] is [cm.visited]
    (the code only ever stores non-nil interfaces in it); [stats] is the
    package-level tally behind [UpdateStats], a map to [int]. *)
Record state := State {
  heap : gmap addr object;
  visited : gmap addr value;
  stats : gmap string Z }.

Definition M (A : Type) : Type := state → outcome A * state.

Definition ret {A} (a : A) : M A := λ s, (Ret a, s).
Definition bind {A B} (m : M A) (k : A → M B) : M B :=
  λ s, match m s with
       | (Ret a, s') => k a s'
       | (Panic msg, s') => (Panic msg, s')
       | (OutOfFuel, s') => (OutOfFuel, s')
       end.
Definition panic {A} (msg : string) : M A := λ s, (Panic msg, s).
Definition out_of_fuel {A} : M A := λ s, (OutOfFuel, s).
Definition get : M state := λ s, (Ret s, s).
Definition put (s : state) : M unit := λ _, (Ret tt, s).

Notation "x <- m ;; k" := (bind m (λ x, k))
  (at level 100, m at next level, right associativity).
Notation "m ;;; k" := (bind m (λ _, k))
  (at level 100, right associativity).

(** The pair [(interface{}, error)] every cloner returns. *)
Definition cloned : Type := iface * option error.
Definition result : Type := outcome cloned.

(** [for i := from; i < from + n; i++ { body }], where the body may
    [return] (then [Some]) or fall through to the next round ([None]). *)
Fixpoint for_range {R} (body : nat → M (option R)) (from n : nat) : M (option R) :=
  match n with
  | 0 => ret None
  | S n' =>
      r <- body from ;;
      match r with
      | Some x => ret (Some x)
      | None => for_range body (S from) n'
      end
  end.

(** [for _, x := range xs { body }]. *)
Fixpoint for_each {X R} (body : X → M (option R)) (xs : list X) : M (option R) :=
  match xs with
  | [] => ret None
  | x :: xs' =>
      r <- body x ;;
      match r with
      | Some y => ret (Some y)
      | None => for_each body xs'
      end
  end.

(** The Go [int] (64 bits, two's complement) that an integer wraps to. *)
Definition wrap_int (z : Z) : Z := ((z + 2 ^ 63) mod 2 ^ 64 - 2 ^ 63)%Z.

(** [UpdateStats]: [stats[typeName]++], on an [int] that starts at zero
    and wraps. *)
Definition UpdateStats (typeName : string) : M unit :=
  λ s, (Ret tt,
        State (heap s) (visited s)
              (<[typeName := wrap_int (default 0%Z (stats s !! typeName) + 1)]>
                 (stats s))).

(** ** Package [reflect] *)

(** A [reflect.Value]: the zero Value, or a value with its type and the
    flag that marks what was reached through an unexported field. *)
Inductive Value :=
| Invalid
| Valid (v : value) (flagRO : bool).

Definition ValueOf (i : iface) : Value :=
  match i with
  | None => Invalid
  | Some v => Valid v false
  end.

(** Passing a Go value where an [interface{}] is expected: a value of
    interface type hands over what it holds. *)
Definition to_iface (v : value) : iface :=
  match v with
  | VIface d => d
  | _ => Some v
  end.

Definition IsValid (v : Value) : bool :=
  match v with Invalid => false | Valid _ _ => true end.

Definition CanInterface (v : Value) : M bool :=
  match v with
  | Invalid => panic "reflect: call of reflect.Value.CanInterface on zero Value"
  | Valid _ ro => ret (negb ro)
  end.

Definition Interface_ (v : Value) : M iface :=
  match v with
  | Invalid => panic "reflect: call of reflect.Value.Interface on zero Value"
  | Valid x ro =>
      if ro then
        panic "reflect.Value.Interface: cannot return value obtained from unexported field or method"
      else ret (to_iface x)
  end.

Definition Type_ (v : Value) : M type :=
  match v with
  | Invalid => panic "reflect: call of reflect.Value.Type on zero Value"
  | Valid x _ => ret (typeof x)
  end.

(** [Value.Kind] (the zero Value has kind [Invalid], which no case of the
    dispatcher names). *)
Definition Kind_ (v : Value) : option Kind :=
  match v with
  | Invalid => None
  | Valid x _ => Some (kind_of x)
  end.

Definition IsNil (v : Value) : M bool :=
  match v with
  | Invalid => panic "reflect: call of reflect.Value.IsNil on zero Value"
  | Valid x _ =>
      match x with
      | VPtr _ p => ret (bool_decide (p = None))
      | VSlice _ h => ret (bool_decide (h = None))
      | VMap _ _ m => ret (bool_decide (m = None))
      | VIface d => ret (bool_decide (d = None))
      | VChan _ c => ret (bool_decide (c = None))
      | VFunc _ c => ret (bool_decide (c = None))
      | _ => panic ("reflect: call of reflect.Value.IsNil on " ++
                    Kind_String (kind_of x) ++ " Value")
      end
  end.

(** [Value.Pointer]: the address as a [uintptr], 0 for nil. *)
Definition Pointer (v : Value) : M addr :=
  match v with
  | Invalid => panic "reflect: call of reflect.Value.Pointer on zero Value"
  | Valid x _ =>
      match x with
      | VPtr _ p => ret (default 0%N p)
      | VSlice _ h => ret (default 0%N ((λ h, h.1.1) <$> h))
      | VMap _ _ m => ret (default 0%N m)
      | VChan _ c => ret (default 0%N c)
      | VFunc _ c => ret (default 0%N c)
      | _ => panic ("reflect: call of reflect.Value.Pointer on " ++
                    Kind_String (kind_of x) ++ " Value")
      end
  end.

(** A read of memory that holds nothing of the expected shape. *)
Definition fault {A} : M A :=
  panic "runtime error: invalid memory address or nil pointer dereference".

Definition Elem (v : Value) : M Value :=
  match v with
  | Invalid => panic "reflect: call of reflect.Value.Elem on zero Value"
  | Valid x ro =>
      match x with
      | VPtr _ None => ret Invalid
      | VPtr _ (Some a) =>
          s <- get ;;
          match heap s !! a with
          | Some (OCell y) => ret (Valid y ro)
          | _ => fault
          end
      | VIface None => ret Invalid
      | VIface (Some y) => ret (Valid y ro)
      | _ => panic ("reflect: call of reflect.Value.Elem on " ++
                    Kind_String (kind_of x) ++ " Value")
      end
  end.

Definition Len (v : Value) : M nat :=
  match v with
  | Invalid => panic "reflect: call of reflect.Value.Len on zero Value"
  | Valid x _ =>
      match x with
      | VSlice _ None => ret 0
      | VSlice _ (Some h) => ret h.1.2
      | VArray _ l => ret (length l)
      | VString s => ret (String.length s)
      | VMap _ _ None => ret 0
      | VMap _ _ (Some a) =>
          s <- get ;;
          match heap s !! a with
          | Some (OMap es) => ret (length es)
          | _ => fault
          end
      | _ => panic ("reflect: call of reflect.Value.Len on " ++
                    Kind_String (kind_of x) ++ " Value")
      end
  end.

Definition Cap (v : Value) : M nat :=
  match v with
  | Invalid => panic "reflect: call of reflect.Value.Cap on zero Value"
  | Valid x _ =>
      match x with
      | VSlice _ None => ret 0
      | VSlice _ (Some h) => ret h.2
      | VArray _ l => ret (length l)
      | _ => panic ("reflect: call of reflect.Value.Cap on " ++
                    Kind_String (kind_of x) ++ " Value")
      end
  end.

Definition Index (v : Value) (i : nat) : M Value :=
  match v with
  | Invalid => panic "reflect: call of reflect.Value.Index on zero Value"
  | Valid x ro =>
      match x with
      | VSlice _ None => panic "reflect: slice index out of range"
      | VSlice _ (Some h) =>
          if decide (i < h.1.2) then
            s <- get ;;
            match heap s !! h.1.1 with
            | Some (OArray l) =>
                match l !! i with
                | Some y => ret (Valid y ro)
                | None => fault
                end
            | _ => fault
            end
          else panic "reflect: slice index out of range"
      | VArray _ l =>
          match l !! i with
          | Some y => ret (Valid y ro)
          | None => panic "reflect: array index out of range"
          end
      | _ => panic ("reflect: call of reflect.Value.Index on " ++
                    Kind_String (kind_of x) ++ " Value")
      end
  end.

(** Entries of a map are kept in the order [MapKeys] returns the keys. *)
Fixpoint map_get (k : value) (es : list (value * value)) : option value :=
  match es with
  | [] => None
  | e :: es' => if value_eqb e.1 k then Some e.2 else map_get k es'
  end.

Fixpoint map_set (k x : value) (es : list (value * value)) : list (value * value) :=
  match es with
  | [] => [(k, x)]
  | e :: es' => if value_eqb e.1 k then (k, x) :: es' else e :: map_set k x es'
  end.

Fixpoint map_delete (k : value) (es : list (value * value)) : list (value * value) :=
  match es with
  | [] => []
  | e :: es' => if value_eqb e.1 k then es' else e :: map_delete k es'
  end.

Definition MapKeys (v : Value) : M (list Value) :=
  match v with
  | Invalid => panic "reflect: call of reflect.Value.MapKeys on zero Value"
  | Valid x ro =>
      match x with
      | VMap _ _ None => ret []
      | VMap _ _ (Some a) =>
          s <- get ;;
          match heap s !! a with
          | Some (OMap es) => ret (map (λ e, Valid e.1 ro) es)
          | _ => fault
          end
      | _ => panic ("reflect: call of reflect.Value.MapKeys on " ++
                    Kind_String (kind_of x) ++ " Value")
      end
  end.

Definition MapIndex (v key : Value) : M Value :=
  match v, key with
  | Invalid, _ => panic "reflect: call of reflect.Value.MapIndex on zero Value"
  | _, Invalid => panic "reflect: call of reflect.Value.MapIndex on zero Value"
  | Valid x ro, Valid k _ =>
      match x with
      | VMap _ _ None => ret Invalid
      | VMap _ _ (Some a) =>
          s <- get ;;
          match heap s !! a with
          | Some (OMap es) =>
              match map_get k es with
              | Some y => ret (Valid y ro)
              | None => ret Invalid
              end
          | _ => fault
          end
      | _ => panic ("reflect: call of reflect.Value.MapIndex on " ++
                    Kind_String (kind_of x) ++ " Value")
      end
  end.

(** Go exports an identifier that starts with an upper-case letter. *)
Definition exported (name : string) : bool :=
  match name with
  | String c _ =>
      let n := Ascii.nat_of_ascii c in
      (65 <=? n) && (n <=? 90)
  | EmptyString => false
  end.

Arguments exported : simpl never.

Definition NumField (v : Value) : M nat :=
  match v with
  | Valid (VStruct _ fs) _ => ret (length fs)
  | Valid x _ => panic ("reflect: call of reflect.Value.NumField on " ++
                        Kind_String (kind_of x) ++ " Value")
  | Invalid => panic "reflect: call of reflect.Value.NumField on zero Value"
  end.

(** [Value.Field]: the field inherits the read-only flag and gains it
    when its name is not exported. *)
Definition Field (v : Value) (i : nat) : M Value :=
  match v with
  | Valid (VStruct _ fs) ro =>
      match fs !! i with
      | Some f => ret (Valid f.2 (ro || negb (exported f.1.1)))
      | None => panic "reflect: Field index out of range"
      end
  | Valid x _ => panic ("reflect: call of reflect.Value.Field on " ++
                        Kind_String (kind_of x) ++ " Value")
  | Invalid => panic "reflect: call of reflect.Value.Field on zero Value"
  end.

(** The zero value of a type ([reflect.New(t).Elem()], [reflect.Zero]). *)
Fixpoint zero (t : type) : value :=
  match t with
  | TBool => VBool false
  | TInt => VInt 0
  | TString => VString ""
  | TPtr e => VPtr e None
  | TSlice e => VSlice e None
  | TArray n e => VArray e (replicate n (zero e))
  | TMap k e => VMap k e None
  | TStruct n fs =>
      VStruct n
        ((fix go (l : list (string * type)) : list (string * type * value) :=
            match l with
            | [] => []
            | f :: l' => (f.1, f.2, zero f.2) :: go l'
            end) fs)
  | TInterface => VIface None
  | TChan e => VChan e None
  | TFunc s => VFunc s None
  end.

(** [Value.Set] and [Value.SetMapIndex] store a value of type [V] where a
    [T] is expected: the types are identical, or [T] is the empty
    interface, or they are struct types with the same fields of which one
    is unnamed. The stored value has type [T]. *)
Definition assignTo (context : string) (T : type) (x : value) : M value :=
  if type_eqb T (typeof x) then ret x
  else
    match T, x with
    | TInterface, VIface _ => ret x
    | TInterface, _ => ret (VIface (Some x))
    | TStruct n fs, VStruct m gs =>
        if (bool_decide (n = "") || bool_decide (m = "")) &&
           type_eqb (TStruct n fs) (TStruct n (map (λ f, (f.1.1, f.1.2)) gs))
        then ret (VStruct n gs)
        else panic (context ++ ": value of type " ++ Type_String (typeof x) ++
                    " is not assignable to type " ++ Type_String T)
    | _, _ => panic (context ++ ": value of type " ++ Type_String (typeof x) ++
                     " is not assignable to type " ++ Type_String T)
    end.

(** The value [dst.Set(x)] leaves in a settable destination of type [T]. *)
Definition Set_ (T : type) (x : Value) : M value :=
  match x with
  | Invalid => panic "reflect: call of reflect.Value.Set on zero Value"
  | Valid y ro =>
      if ro then
        panic "reflect: reflect.Value.Set using value obtained using unexported field"
      else assignTo "reflect.Set" T y
  end.

(** Allocation returns an address that holds nothing yet. *)
Definition fresh_addr (h : gmap addr object) : addr :=
  N.succ (map_fold (λ k _ m, N.max k m) 0%N h).

Definition alloc (o : object) : M addr :=
  λ s, let a := fresh_addr (heap s) in
       (Ret a, State (<[a := o]> (heap s)) (visited s) (stats s)).

Definition store (a : addr) (o : object) : M unit :=
  λ s, (Ret tt, State (<[a := o]> (heap s)) (visited s) (stats s)).

(** [reflect.New(t)]: a pointer to a new zero [t]. *)
Definition New (t : type) : M value :=
  a <- alloc (OCell (zero t)) ;;
  ret (VPtr t (Some a)).

(** [reflect.MakeSlice(t, len, cap)]. *)
Definition MakeSlice (t : type) (len cap : nat) : M value :=
  match t with
  | TSlice e =>
      if decide (len ≤ cap) then
        a <- alloc (OArray (replicate cap (zero e))) ;;
        ret (VSlice e (Some (a, len, cap)))
      else panic "reflect.MakeSlice: len > cap"
  | _ => panic "reflect.MakeSlice of non-slice type"
  end.

(** [reflect.MakeMapWithSize(t, n)]: the size is only a hint. *)
Definition MakeMapWithSize (t : type) (n : nat) : M value :=
  match t with
  | TMap k e =>
      a <- alloc (OMap []) ;;
      ret (VMap k e (Some a))
  | _ => panic "reflect.MakeMapWithSize of non-map type"
  end.

(** [p.Elem().Set(x)] for a pointer [p] from [New]. *)
Definition SetElem (p : value) (x : Value) : M unit :=
  match p with
  | VPtr t (Some a) =>
      y <- Set_ t x ;;
      store a (OCell y)
  | _ => panic "reflect: call of reflect.Value.Elem on zero Value"
  end.

(** [s.Index(i).Set(x)] for a slice [s] from [MakeSlice]. *)
Definition SetIndex (sl : value) (i : nat) (x : Value) : M unit :=
  match sl with
  | VSlice t (Some h) =>
      if decide (i < h.1.2) then
        s <- get ;;
        match heap s !! h.1.1 with
        | Some (OArray l) =>
            y <- Set_ t x ;;
            store h.1.1 (OArray (<[i := y]> l))
        | _ => fault
        end
      else panic "reflect: slice index out of range"
  | _ => panic "reflect: slice index out of range"
  end.

(** [m.SetMapIndex(key, elem)] for a map [m] from [MakeMapWithSize]: a
    zero [elem] deletes the key. *)
Definition SetMapIndex (m : value) (key elem : Value) : M unit :=
  match m with
  | VMap kt et (Some a) =>
      match key with
      | Invalid => panic "reflect: call of reflect.Value.SetMapIndex on zero Value"
      | Valid k ro =>
          if ro then
            panic "reflect: reflect.Value.SetMapIndex using value obtained using unexported field"
          else
            k' <- assignTo "reflect.Value.SetMapIndex" kt k ;;
            match elem with
            | Invalid =>
                s <- get ;;
                match heap s !! a with
                | Some (OMap es) => store a (OMap (map_delete k' es))
                | _ => fault
                end
            | Valid e ro' =>
                if ro' then
                  panic "reflect: reflect.Value.SetMapIndex using value obtained using unexported field"
                else
                  e' <- assignTo "reflect.Value.SetMapIndex" et e ;;
                  s <- get ;;
                  match heap s !! a with
                  | Some (OMap es) => store a (OMap (map_set k' e' es))
                  | _ => fault
                  end
            end
      end
  | VMap _ _ None => panic "assignment to entry in nil map"
  | _ => panic "reflect: call of reflect.Value.SetMapIndex on non-map Value"
  end.

(** [reflect.ValueOf(x).Convert(t).Interface()] for an interface type
    [t]: the value comes back as it was; the zero Value cannot be
    converted. *)
Definition Convert_Interface (x : Value) (t : type) : M iface :=
  match x with
  | Invalid => fault
  | Valid y ro =>
      if ro then
        panic "reflect.Value.Interface: cannot return value obtained from unexported field or method"
      else
        z <- assignTo "reflect.Value.Convert" t y ;;
        ret (to_iface z)
  end.

(** [Value.CanSet], asked of a field of the clone under construction,
    which is addressable: it can be set unless it is read-only. *)
Definition CanSet (v : Value) : bool :=
  match v with
  | Invalid => false
  | Valid _ ro => negb ro
  end.

(** [src.Kind().String()]. *)
Definition KindString (v : Value) : string :=
  match Kind_ v with
  | Some k => Kind_String k
  | None => "invalid"
  end.

(** [fmt.Sprintf("%v", src)] for a function value: its code address. *)
Definition Sprint (v : Value) : string :=
  match v with
  | Valid (VFunc _ (Some a)) _ => HexString.of_N a
  | Valid (VFunc _ None) _ => "<nil>"
  | _ => "<invalid reflect.Value>"
  end.

(** ** The clone engine *)

(** [cm.Clone] as a [Cloneable] or a [Cloner] sees it through the
    manager it is handed. *)
Definition CloneFn : Type := iface → M cloned.

(** A [Clone(manager)] method, applied to its receiver. *)
Definition Cloneable : Type := CloneFn → value → M cloned.

(** A registered [Cloner]: [Clone(value, manager)]. *)
Definition Cloner : Type := CloneFn → iface → M cloned.

(** [cm.visited[ptr] = x]. *)
Definition set_visited (ptr : addr) (x : value) : M unit :=
  λ s, (Ret tt, State (heap s) (<[ptr := x]> (visited s)) (stats s)).

(** A loop over [from, from + n) that updates a local variable and may
    return early. *)
Fixpoint for_acc {A R} (body : nat → A → M (R + A)) (from n : nat) (acc : A)
  : M (R + A) :=
  match n with
  | 0 => ret (inr acc)
  | S n' =>
      r <- body from acc ;;
      match r with
      | inl x => ret (inl x)
      | inr acc' => for_acc body (S from) n' acc'
      end
  end.

Section engine.

(** The types whose method set holds [Clone], the method of interface
    [Cloneable], with the method. *)
Variable methods : type → option Cloneable.

(** [cm.cloners], latest registration first. *)
Variable cloners : list (type * Cloner).

Definition cloners_lookup (t : type) : option Cloner :=
  snd <$> find (λ e, type_eqb e.1 t) cloners.

(** [src.Interface().(Cloneable)]. *)
Definition as_Cloneable (i : iface) : option (Cloneable * value) :=
  match i with
  | None => None
  | Some x => (λ m, (m, x)) <$> methods (typeof x)
  end.

Section cloners.

(** [cm.deepClone], as the composite cloners call it. *)
Variable deepClone : Value → M cloned.

Definition clonePtr (src : Value) : M cloned :=
  nil <- IsNil src ;;
  if nil : bool then ret (None, None) else
  ptr <- Pointer src ;;
  s <- get ;;
  match visited s !! ptr with
  | Some cloned => ret (Some cloned, None)
  | None =>
      e <- Elem src ;;
      r <- deepClone e ;;
      match r.2 with
      | Some err => ret (None, Some err)
      | None =>
          UpdateStats (KindString src) ;;;
          e' <- Elem src ;;
          t <- Type_ e' ;;
          clonePtr <- New t ;;
          SetElem clonePtr (ValueOf r.1) ;;;
          set_visited ptr clonePtr ;;;
          ret (Some clonePtr, None)
      end
  end.

(** One round of the loop of [cloneSlice]. *)
Definition cloneSlice_elem (src : Value) (clone : value) (i : nat)
  : M (option cloned) :=
  e <- Index src i ;;
  r <- deepClone e ;;
  match r.2 with
  | Some err => ret (Some (None, Some err))
  | None =>
      SetIndex clone i (ValueOf r.1) ;;;
      ret None
  end.

Definition cloneSlice (src : Value) : M cloned :=
  nil <- IsNil src ;;
  if nil : bool then ret (None, None) else
  ptr <- Pointer src ;;
  s <- get ;;
  match visited s !! ptr with
  | Some cloned => ret (Some cloned, None)
  | None =>
      t <- Type_ src ;;
      len <- Len src ;;
      cap <- Cap src ;;
      clone <- MakeSlice t len cap ;;
      set_visited ptr clone ;;;
      r <- for_range (cloneSlice_elem src clone) 0 len ;;
      match r with
      | Some early => ret early
      | None =>
          UpdateStats (KindString src) ;;;
          ret (Some clone, None)
      end
  end.

(** [clone.Index(i).Set(x)] on the local array [clone]. *)
Definition SetArrayIndex (clone : value) (i : nat) (x : Value) : M value :=
  match clone with
  | VArray t l =>
      if decide (i < length l) then
        y <- Set_ t x ;;
        ret (VArray t (<[i := y]> l))
      else panic "reflect: array index out of range"
  | _ => panic "reflect: call of reflect.Value.Index on non-array Value"
  end.

(** One round of the loop of [cloneArray]. *)
Definition cloneArray_elem (src : Value) (i : nat) (clone : value)
  : M (cloned + value) :=
  elem <- Index src i ;;
  r <- deepClone elem ;;
  match r.2 with
  | Some err => ret (inl (None, Some err))
  | None =>
      clone' <- SetArrayIndex clone i (ValueOf r.1) ;;
      ret (inr clone')
  end.

Definition cloneArray (src : Value) : M cloned :=
  t <- Type_ src ;;
  len <- Len src ;;
  r <- for_acc (cloneArray_elem src) 0 len (zero t) ;;
  match r with
  | inl early => ret early
  | inr clone =>
      UpdateStats (KindString src) ;;;
      ret (Some clone, None)
  end.

(** One round of the loop of [cloneMap]. *)
Definition cloneMap_entry (src : Value) (clone : value) (key : Value)
  : M (option cloned) :=
  rk <- deepClone key ;;
  match rk.2 with
  | Some err => ret (Some (None, Some err))
  | None =>
      v <- MapIndex src key ;;
      rv <- deepClone v ;;
      match rv.2 with
      | Some err => ret (Some (None, Some err))
      | None =>
          SetMapIndex clone (ValueOf rk.1) (ValueOf rv.1) ;;;
          ret None
      end
  end.

Definition cloneMap (src : Value) : M cloned :=
  nil <- IsNil src ;;
  if nil : bool then ret (None, None) else
  ptr <- Pointer src ;;
  s <- get ;;
  match visited s !! ptr with
  | Some cloned => ret (Some cloned, None)
  | None =>
      t <- Type_ src ;;
      len <- Len src ;;
      clone <- MakeMapWithSize t len ;;
      set_visited ptr clone ;;;
      keys <- MapKeys src ;;
      r <- for_each (cloneMap_entry src clone) keys ;;
      match r with
      | Some early => ret early
      | None =>
          UpdateStats (KindString src) ;;;
          ret (Some clone, None)
      end
  end.

(** [clone.Field(i).Set(x)] on the local struct [clone]. *)
Definition SetField (clone : value) (i : nat) (x : Value) : M value :=
  match clone with
  | VStruct n fs =>
      match fs !! i with
      | Some f =>
          y <- Set_ f.1.2 x ;;
          ret (VStruct n (<[i := (f.1, y)]> fs))
      | None => panic "reflect: Field index out of range"
      end
  | _ => panic "reflect: call of reflect.Value.Field on non-struct Value"
  end.

(** One round of the loop of [cloneStruct]. *)
Definition cloneStruct_field (src : Value) (i : nat) (clone : value)
  : M (cloned + value) :=
  field <- Field src i ;;
  clonedFieldRef <- Field (Valid clone false) i ;;
  if CanSet clonedFieldRef then
    r <- deepClone field ;;
    match r.2 with
    | Some err => ret (inl (None, Some err))
    | None =>
        if negb (IsValid clonedFieldRef) then
          ret (inl (None, Some ("cannot set invalid field at index " ++ dec i)))
        else
          match r.1 with
          | Some _ =>
              clone' <- SetField clone i (ValueOf r.1) ;;
              ret (inr clone')
          | None => ret (inr clone)
          end
    end
  else ret (inr clone).

Definition cloneStruct (src : Value) : M cloned :=
  t <- Type_ src ;;
  n <- NumField src ;;
  r <- for_acc (cloneStruct_field src) 0 n (zero t) ;;
  match r with
  | inl early => ret early
  | inr clone =>
      UpdateStats (KindString src ++ " " ++ Type_String t) ;;;
      ret (Some clone, None)
  end.

Definition cloneInterface (src : Value) : M cloned :=
  underlyingValue <- Elem src ;;
  if negb (IsValid underlyingValue) then ret (None, None) else
  nil <- IsNil src ;;
  if nil : bool then ret (None, None) else
  r <- deepClone underlyingValue ;;
  match r.2 with
  | Some err => ret (None, Some err)
  | None =>
      t <- Type_ src ;;
      UpdateStats (KindString src ++ " " ++ Type_String t) ;;;
      i <- Convert_Interface (ValueOf r.1) t ;;
      ret (i, None)
  end.

(** The [switch src.Kind()] of [deepClone]. *)
Definition structural (src : Value) : M cloned :=
  match Kind_ src with
  | Some reflect.Ptr => clonePtr src
  | Some reflect.Slice => cloneSlice src
  | Some reflect.Array => cloneArray src
  | Some reflect.Map => cloneMap src
  | Some reflect.Struct => cloneStruct src
  | Some reflect.Interface => cloneInterface src
  | Some reflect.Chan => ret (None, Some "channels cannot be cloned")
  | Some reflect.Func =>
      ret (None, Some ("functions cannot be cloned: " ++ Sprint src))
  | _ =>
      i <- Interface_ src ;;
      ret (i, None)
  end.

(** The body of [deepClone], given [cm.Clone] for the extensions. *)
Definition dispatch (Clone : CloneFn) (src : Value) : M cloned :=
  if negb (IsValid src) then ret (None, None) else
  ci <- CanInterface src ;;
  cl <- (if ci : bool then
           i <- Interface_ src ;;
           ret (as_Cloneable i)
         else ret None) ;;
  match cl with
  | Some (cloneable, x) => cloneable Clone x
  | None =>
      t <- Type_ src ;;
      match cloners_lookup t with
      | Some cloner =>
          i <- Interface_ src ;;
          cloner Clone i
      | None => structural src
      end
  end.

End cloners.

(** [cm.deepClone]; every call spends one unit of fuel. *)
Fixpoint deepClone (fuel : nat) (src : Value) : M cloned :=
  match fuel with
  | 0 => out_of_fuel
  | S fuel' =>
      dispatch (deepClone fuel') (λ i, deepClone fuel' (ValueOf i)) src
  end.

(** [cm.Clone]. *)
Definition Clone (fuel : nat) (src : iface) : M cloned :=
  deepClone fuel (ValueOf src).

(** [clonedValue.(T)]. *)
Definition type_assert (T : type) (i : iface) : option value :=
  match i with
  | None => None
  | Some x =>
      match T with
      | TInterface => Some (VIface (Some x))
      | _ => if type_eqb T (typeof x) then Some x else None
      end
  end.

(** The generic [Clone[T any](cm, src T) (T, error)]. *)
Definition CloneT (fuel : nat) (T : type) (src : value) : M (value * option error) :=
  let result := zero T in
  nil <- IsNil (ValueOf (to_iface src)) ;;
  if nil : bool then ret (result, None) else
  r <- Clone fuel (to_iface src) ;;
  match r.2 with
  | Some err => ret (result, Some err)
  | None =>
      match type_assert T r.1 with
      | Some clonedValueTyped => ret (clonedValueTyped, None)
      | None => ret (result, Some "failed to cast cloned value to the original type")
      end
  end.

End engine.

Arguments deepClone : simpl never.

(** [cm.RegisterCloner(t, cloner)]. *)
Definition RegisterCloner (t : type) (cloner : Cloner)
    (cloners : list (type * Cloner)) : list (type * Cloner) :=
  (t, cloner) :: cloners.

(** [NewCloneManager] in a process whose memory is [h]: nothing visited,
    no cloner registered. *)
Definition NewCloneManager (h : gmap addr object) : state := State h ∅ ∅.

(** No type has a [Clone] method. *)
Definition no_methods : type → option Cloneable := λ _, None.

Open Scope list_scope.

(** ** What the claims talk about *)

(** An absent value of a reference, slice, map or interface kind, or the
    zero Value that [reflect.ValueOf(nil)] yields. *)
Definition is_nil (v : value) : bool :=
  match v with
  | VPtr _ None | VSlice _ None | VMap _ _ None | VIface None => true
  | _ => false
  end.

Definition absent (src : Value) : bool :=
  match src with
  | Invalid => true
  | Valid v _ => is_nil v
  end.

(** The dispatcher hands [src] to a [Clone] method or to a registered
    cloner instead of cloning it by shape. *)
Definition delegated (methods : type → option Cloneable)
    (cloners : list (type * Cloner)) (src : Value) : bool :=
  match src with
  | Invalid => false
  | Valid x ro =>
      (negb ro && bool_decide (is_Some (as_Cloneable methods (to_iface x))))
      || bool_decide (is_Some (cloners_lookup cloners (typeof x)))
  end.

(** A cloner that turns every value away. *)
Definition refusing : Cloner := λ _ _, ret (None, Some "refused").

(** A cloner that answers every value with the same integer. *)
Definition constant (n : Z) : Cloner := λ _ _, ret (Some (VInt n), None).

(** [type Node struct { Next interface{} }], and a node at [a] whose
    [Next] is the pointer to the node itself. *)
Definition Node : type := TStruct "Node" [("Next", TInterface)].

Definition self_node (a : addr) : value :=
  VStruct "Node" [("Next", TInterface, VIface (Some (VPtr Node (Some a))))].

Definition self_heap : gmap addr object := {[ 1%N := OCell (self_node 1%N) ]}.

(** [s := make([]interface{}, 1); s[0] = s]. *)
Definition self_slice : value := VSlice TInterface (Some (1%N, 1, 1)).

Definition self_slice_heap : gmap addr object :=
  {[ 1%N := OArray [VIface (Some self_slice)] ]}.

(** ** Basic facts about the engine *)

Lemma deepClone_S methods cloners fuel src :
  deepClone methods cloners (S fuel) src =
  dispatch methods cloners (deepClone methods cloners fuel)
    (λ i, deepClone methods cloners fuel (ValueOf i)) src.
Proof. reflexivity. Qed.

Ltac run := repeat (unfold bind, ret, get, panic, out_of_fuel; cbn).
Ltac run_in H := repeat (unfold bind, ret, get, panic, out_of_fuel in H; cbn in H).

Lemma exported_Next : exported "Next" = true.
Proof. reflexivity. Qed.

(** When nothing is delegated the dispatcher clones by shape. *)
Lemma dispatch_structural methods cloners rec Clone_ src s :
  IsValid src = true →
  delegated methods cloners src = false →
  dispatch methods cloners rec Clone_ src s = structural rec src s.
Proof.
  destruct src as [|x ro]; [done|]. intros _ Hd. cbn in Hd.
  apply orb_false_iff in Hd as [Hm Hc].
  apply bool_decide_eq_false in Hc.
  unfold dispatch. cbn. unfold bind. cbn.
  assert (Hcl : cloners_lookup cloners (typeof x) = None).
  { destruct (cloners_lookup cloners (typeof x)); [|done]. destruct Hc. eauto. }
  destruct ro; cbn in *.
  - rewrite Hcl. done.
  - apply bool_decide_eq_false in Hm.
    destruct (as_Cloneable methods (to_iface x)) as [[m y]|] eqn:E.
    + destruct Hm. eauto.
    + cbn. rewrite Hcl. done.
Qed.

(** ** C1: the registry entry of a pointer is written after the recursion *)

Lemma self_pointer_runs_out methods cloners fuel s a :
  methods Node = None → methods (TPtr Node) = None →
  cloners_lookup cloners Node = None →
  cloners_lookup cloners (TPtr Node) = None →
  cloners_lookup cloners TInterface = None →
  heap s !! a = Some (OCell (self_node a)) →
  visited s !! a = None →
  deepClone methods cloners fuel (Valid (VPtr Node (Some a)) false) s = (OutOfFuel, s).
Proof.
  intros Hm1 Hm2 Hc1 Hc2 Hc3 Hh Hv. unfold self_node, Node in *.
  induction fuel as [fuel IH] using lt_wf_ind.
  destruct fuel as [|f]; [done|].
  rewrite deepClone_S, dispatch_structural; [|done|cbn; rewrite Hm2, Hc2; done].
  run. rewrite Hv. run. rewrite Hh. run.
  destruct f as [|f]; [done|].
  rewrite deepClone_S, dispatch_structural; [|done|cbn; rewrite Hm1, Hc1; done].
  run. rewrite exported_Next. run.
  destruct f as [|f]; [done|].
  rewrite deepClone_S, dispatch_structural; [|done|cbn; rewrite Hm2, Hc3; done].
  run. rewrite IH by lia. done.
Qed.

(** C1 (code defect). [clonePtr] records [cm.visited[ptr]] only after
    [deepClone(src.Elem())] has returned, so on a node whose [Next] is the
    pointer to the node itself the call never returns: whatever the fuel,
    it is still recursing when the fuel is spent, and nothing has been
    registered. *)
Theorem clonePtr_self_reference_never_returns :
  ∀ fuel,
    Clone no_methods [] fuel (Some (VPtr Node (Some 1%N))) (NewCloneManager self_heap)
    = (OutOfFuel, NewCloneManager self_heap).
Proof.
  intros fuel. unfold Clone. cbn [ValueOf].
  apply self_pointer_runs_out; done.
Qed.

(** The sibling path: [cloneSlice] registers the clone before it clones
    the elements, and a slice that holds itself is cloned into a slice that
    holds itself. *)
Lemma cloneSlice_self_reference_returns :
  ∃ s',
    Clone no_methods [] 3 (Some self_slice) (NewCloneManager self_slice_heap)
    = (Ret (Some (VSlice TInterface (Some (2%N, 1, 1))), None), s')
    ∧ heap s' !! 2%N = Some (OArray [VIface (Some (VSlice TInterface (Some (2%N, 1, 1))))])
    ∧ heap s' !! 1%N = Some (OArray [VIface (Some self_slice)]).
Proof. eexists. split; [vm_compute; reflexivity|]. split; vm_compute; reflexivity. Qed.

(** The kinds [Value.IsNil] accepts. *)
Definition nillable (k : Kind) : bool :=
  match k with
  | reflect.Ptr | reflect.Slice | reflect.Map | reflect.Interface
  | reflect.Chan | reflect.Func => true
  | _ => false
  end.

(** [type Secret struct { Token string }] with a registered cloner that
    blanks the token, and a struct that holds a [Secret] directly, behind
    a pointer, in a slice, in an array, in a map and in an interface. *)
Definition Secret : type := TStruct "Secret" [("Token", TString)].

Definition secret (token : string) : value :=
  VStruct "Secret" [("Token", TString, VString token)].

Definition redact : Cloner := λ _ _, ret (Some (secret "redacted"), None).

Definition vault (p l m : addr) : value :=
  VStruct "Vault"
    [("S", Secret, secret "s");
     ("P", TPtr Secret, VPtr Secret (Some p));
     ("L", TSlice Secret, VSlice Secret (Some (l, 1, 1)));
     ("A", TArray 1 Secret, VArray Secret [secret "a"]);
     ("M", TMap TString Secret, VMap TString Secret (Some m));
     ("I", TInterface, VIface (Some (secret "i")))].

Definition vault_heap : gmap addr object :=
  {[ 1%N := OCell (secret "p");
     2%N := OArray [secret "l"];
     3%N := OMap [(VString "k", secret "m")] ]}.

(** ** C4: the typed wrapper probes absence on every input *)

(** C4 (code defect). [Clone[T]] calls [reflect.ValueOf(src).IsNil()] for
    every [T]; on an input whose kind cannot be nil (an int, a string, an
    array, a struct) [IsNil] panics, so the wrapper neither skips the probe
    nor returns: no clone and no error come back. *)
Theorem CloneT_probes_absence_of_every_kind :
  ∀ methods cloners fuel T src s,
    nillable (kind_of src) = false →
    CloneT methods cloners fuel T src s
    = (Panic ("reflect: call of reflect.Value.IsNil on " +:+
              Kind_String (kind_of src) +:+ " Value"), s).
Proof.
  intros methods cloners fuel T src s Hk.
  unfold CloneT. destruct src; try done.
Qed.

Lemma CloneT_probes_absence_of_every_kind_witness :
  nillable (kind_of (VInt 42)) = false ∧
  CloneT no_methods [] 5 TInt (VInt 42) (NewCloneManager ∅)
  = (Panic "reflect: call of reflect.Value.IsNil on int Value", NewCloneManager ∅).
Proof.
  split; [reflexivity|].
  apply (CloneT_probes_absence_of_every_kind no_methods [] 5 TInt (VInt 42)).
  reflexivity.
Defined.

(** For a type that can be nil the wrapper works as documented. *)
Lemma CloneT_nil_pointer methods cloners fuel t s :
  CloneT methods cloners fuel (TPtr t) (VPtr t None) s = (Ret (VPtr t None, None), s).
Proof. reflexivity. Qed.

(** ** C5: absent values *)

(** C5 as stated fails: the dispatcher looks for a registered cloner
    before it looks at the shape, so a nil [*int] whose type has a cloner
    is handed to the cloner, and what comes back is the cloner's answer. *)
Lemma absent_input_reaches_registered_cloner :
  ¬ (∀ methods cloners fuel src s,
       absent src = true →
       deepClone methods cloners (S fuel) src s = (Ret (None, None), s)).
Proof.
  intros H.
  specialize (H no_methods (RegisterCloner (TPtr TInt) refusing []) 0
                (Valid (VPtr TInt None) false) (NewCloneManager ∅) eq_refl).
  vm_compute in H. discriminate H.
Qed.

(** C5 (amended). An absent pointer, slice, map or interface value (and
    the zero Value of an untyped nil) that the dispatcher does not delegate
    clones to nil with no error, whatever the registry holds, and leaves
    heap, registry and tally as they were: nothing is looked up, entered
    or allocated. *)
Theorem absent_clones_to_absent :
  ∀ methods cloners fuel src s,
    absent src = true →
    delegated methods cloners src = false →
    deepClone methods cloners (S fuel) src s = (Ret (None, None), s).
Proof.
  intros methods cloners fuel src s Ha Hd.
  rewrite deepClone_S.
  destruct src as [|x ro]; [done|].
  rewrite dispatch_structural by done.
  destruct x as [| | |t [p|]|t [h|]| |k e [m|]| |[d|]| |]; try done.
Qed.

Lemma absent_clones_to_absent_witness :
  deepClone no_methods [] 1 (Valid (VMap TString TInt None) false) (NewCloneManager ∅)
  = (Ret (None, None), NewCloneManager ∅).
Proof.
  apply (absent_clones_to_absent no_methods [] 0
           (Valid (VMap TString TInt None) false) (NewCloneManager ∅));
    reflexivity.
Defined.

(** ** C6: channels and functions *)

(** C6 as stated fails for the same reason: a channel whose type has a
    registered cloner is cloned by that cloner. *)
Lemma channel_reaches_registered_cloner :
  ¬ (∀ methods cloners fuel t c s,
       ∃ err, deepClone methods cloners (S fuel) (Valid (VChan t c) false) s
              = (Ret (None, Some err), s)).
Proof.
  intros H.
  destruct (H no_methods (RegisterCloner (TChan TInt) (constant 0) []) 0
              TInt (Some 7%N) (NewCloneManager ∅)) as [err Herr].
  vm_compute in Herr. discriminate Herr.
Qed.

(** C6 (amended). A channel or function value that the dispatcher does
    not delegate makes [deepClone] return a nil value and an error whose
    message names the kind; heap, registry and tally are untouched. *)
Theorem unclonable_kinds_fail :
  ∀ methods cloners fuel x ro s,
    delegated methods cloners (Valid x ro) = false →
    (∀ t c, x = VChan t c →
       deepClone methods cloners (S fuel) (Valid x ro) s
       = (Ret (None, Some "channels cannot be cloned"), s))
    ∧ (∀ sig c, x = VFunc sig c →
       deepClone methods cloners (S fuel) (Valid x ro) s
       = (Ret (None, Some ("functions cannot be cloned: " +:+
                           match c with
                           | Some a => HexString.of_N a
                           | None => "<nil>"
                           end)), s)).
Proof.
  intros methods cloners fuel x ro s Hd.
  split; intros; subst x; rewrite deepClone_S, dispatch_structural by done.
  - done.
  - cbn. by destruct c.
Qed.

Lemma unclonable_kinds_fail_witness :
  deepClone no_methods [] 1 (Valid (VChan TInt (Some 7%N)) false) (NewCloneManager ∅)
  = (Ret (None, Some "channels cannot be cloned"), NewCloneManager ∅)
  ∧ deepClone no_methods [] 1 (Valid (VFunc "func()" (Some 255%N)) false) (NewCloneManager ∅)
  = (Ret (None, Some "functions cannot be cloned: 0xff"), NewCloneManager ∅).
Proof.
  split.
  - apply (proj1 (unclonable_kinds_fail no_methods [] 0 (VChan TInt (Some 7%N))
                      false (NewCloneManager ∅) eq_refl) TInt (Some 7%N)).
    reflexivity.
  - apply (proj2 (unclonable_kinds_fail no_methods [] 0 (VFunc "func()" (Some 255%N))
                      false (NewCloneManager ∅) eq_refl) "func()" (Some 255%N)).
    reflexivity.
Defined.

(** ** C10: struct fields that clone to nil, and fields that cannot be set *)

Definition is_scalar (v : value) : bool :=
  match v with
  | VBool _ | VInt _ | VString _ => true
  | _ => false
  end.

(** A field [cloneStruct] deals with without descending into memory: one
    it cannot set, or a settable one that holds nil or a scalar. *)
Definition shallow_field (methods : type → option Cloneable)
    (cloners : list (type * Cloner)) (f : string * type * value) : Prop :=
  exported f.1.1 = false
  ∨ (typeof f.2 = f.1.2
     ∧ delegated methods cloners (Valid f.2 false) = false
     ∧ (is_nil f.2 = true ∨ is_scalar f.2 = true)).

(** What [cloneStruct] leaves in such a field. *)
Definition cloned_field (f : string * type * value) : string * type * value :=
  (f.1, if exported f.1.1 then f.2 else zero f.1.2).

Definition zero_field (f : string * type * value) : string * type * value :=
  (f.1, zero f.1.2).

(** [struct { A int; b chan int; P *int; L []int; M map[string]int; I interface{} }]
    with [b] holding a channel and the last four nil. *)
Definition sparse : value :=
  VStruct "Sparse"
    [("A", TInt, VInt 7);
     ("b", TChan TInt, VChan TInt (Some 9%N));
     ("P", TPtr TInt, VPtr TInt None);
     ("L", TSlice TInt, VSlice TInt None);
     ("M", TMap TString TInt, VMap TString TInt None);
     ("I", TInterface, VIface None)].

Lemma zero_struct n fs :
  zero (TStruct n fs) = VStruct n (map (λ f, (f.1, f.2, zero f.2)) fs).
Proof. reflexivity. Qed.

Lemma zero_typeof_struct n fs :
  zero (typeof (VStruct n fs)) = VStruct n (map zero_field fs).
Proof.
  unfold typeof. rewrite zero_struct, map_map. f_equal.
  apply map_ext. by intros [[fn ft] fv].
Qed.

Lemma nil_is_zero v : is_nil v = true → zero (typeof v) = v.
Proof. destruct v as [| | |t [p|]|t [h|]| |k e [m|]| |[d|]| |]; done. Qed.

Lemma assignTo_same context T x s :
  typeof x = T → assignTo context T x s = (Ret x, s).
Proof. intros <-. unfold assignTo. by rewrite type_eqb_refl. Qed.

Lemma deepClone_scalar methods cloners fuel v s :
  is_scalar v = true →
  delegated methods cloners (Valid v false) = false →
  deepClone methods cloners (S fuel) (Valid v false) s = (Ret (Some v, None), s).
Proof.
  intros Hs Hd. rewrite deepClone_S, dispatch_structural by done.
  by destruct v.
Qed.

Lemma cloneStruct_shallow_loop methods cloners fuel n s todo :
  ∀ done_,
    Forall (shallow_field methods cloners) todo →
    for_acc (cloneStruct_field (deepClone methods cloners (S fuel))
               (Valid (VStruct n (done_ ++ todo)) false))
      (length done_) (length todo)
      (VStruct n (map cloned_field done_ ++ map zero_field todo)) s
    = (Ret (inr (VStruct n (map cloned_field (done_ ++ todo)))), s).
Proof.
  induction todo as [|f todo IH]; intros done_ Hall.
  - cbn. by rewrite !app_nil_r.
  - apply Forall_cons in Hall as [Hf Hall].
    cbn [length for_acc]. unfold bind at 1.
    assert (Hsrc : (done_ ++ f :: todo) !! length done_ = Some f).
    { by rewrite list_lookup_middle. }
    assert (Hcl : (map cloned_field done_ ++ map zero_field (f :: todo)) !! length done_
                  = Some (zero_field f)).
    { rewrite lookup_app_r by (rewrite length_map; lia).
      rewrite length_map. by replace (length done_ - length done_) with 0 by lia. }
    unfold cloneStruct_field at 1. unfold Field at 1 2. rewrite Hsrc, Hcl. run.
    specialize (IH (done_ ++ [f]) Hall).
    rewrite length_app in IH. cbn in IH.
    replace (length done_ + 1) with (S (length done_)) in IH by lia.
    rewrite <- app_assoc in IH. cbn in IH.
    destruct (exported f.1.1) eqn:Hex; cbn.
    + destruct Hf as [Hf|(Hty & Hd & Hf)]; [congruence|].
      destruct Hf as [Hnil|Hsc].
      * rewrite absent_clones_to_absent by done. cbn.
        assert (Hz : zero_field f = cloned_field f).
        { unfold zero_field, cloned_field. rewrite Hex, <- Hty.
          by rewrite nil_is_zero. }
        rewrite Hz. rewrite map_app in IH. cbn in IH.
        rewrite <- app_assoc in IH. cbn in IH. rewrite IH. done.
      * rewrite deepClone_scalar by done. cbn.
        cbn [map] in Hcl. rewrite Hcl. unfold bind. cbn.
        rewrite assignTo_same by done. cbn.
        assert (Hins : <[length done_ := (f.1, f.2)]>
                         (map cloned_field done_ ++ zero_field f :: map zero_field todo)
                       = (map cloned_field done_ ++ cloned_field f :: map zero_field todo)).
        { rewrite insert_app_r_alt by (rewrite length_map; lia).
          rewrite length_map.
          replace (length done_ - length done_) with 0 by lia. cbn.
          unfold cloned_field. by rewrite Hex. }
        rewrite Hins. rewrite map_app in IH. cbn in IH.
        rewrite <- app_assoc in IH. cbn in IH. rewrite IH. done.
    + assert (Hz : zero_field f = cloned_field f).
      { unfold zero_field, cloned_field. by rewrite Hex. }
      rewrite Hz. rewrite map_app in IH. cbn in IH.
      rewrite <- app_assoc in IH. cbn in IH. rewrite IH. done.
Qed.


Lemma sparse_fields_shallow :
  Forall (shallow_field no_methods [])
    [("A", TInt, VInt 7);
     ("b", TChan TInt, VChan TInt (Some 9%N));
     ("P", TPtr TInt, VPtr TInt None);
     ("L", TSlice TInt, VSlice TInt None);
     ("M", TMap TString TInt, VMap TString TInt None);
     ("I", TInterface, VIface None)].
Proof.
  repeat (apply List.Forall_cons); try apply List.Forall_nil;
    first [ by left | right; repeat split; auto ].
Defined.


(** ** C9: the visited registry only grows *)

(** [m] keeps every entry of the registry [m0]. *)
Definition keeps (m0 : gmap addr value) {A} (m : M A) : Prop :=
  ∀ s, m0 ⊆ visited s → m0 ⊆ visited (m s).2.

(** [m] does not touch the registry. *)
Definition registry_pure {A} (m : M A) : Prop :=
  ∀ s, visited (m s).2 = visited s.

(** An extension that reaches the registry only through the [cm.Clone]
    it is handed ([visited] is not exported by the package). *)
Definition through_Clone {X} (ext : CloneFn → X → M cloned) : Prop :=
  ∀ m0 Clone_ x, (∀ i, keeps m0 (Clone_ i)) → keeps m0 (ext Clone_ x).

Lemma keeps_ret m0 {A} (a : A) : keeps m0 (ret a).
Proof. by intros s Hs. Qed.

Lemma keeps_pure m0 {A} (m : M A) : registry_pure m → keeps m0 m.
Proof. intros Hp s Hs. by rewrite Hp. Qed.

Lemma keeps_bind m0 {A B} (m : M A) (k : A → M B) :
  keeps m0 m → (∀ a, keeps m0 (k a)) → keeps m0 (bind m k).
Proof.
  intros Hm Hk s Hs. unfold bind. specialize (Hm s Hs).
  destruct (m s) as [[a|msg|] s1]; cbn in *; [by apply Hk|done|done].
Qed.

Lemma keeps_get_bind m0 {B} (k : state → M B) :
  (∀ s, m0 ⊆ visited s → keeps m0 (k s)) → keeps m0 (bind get k).
Proof. intros Hk s Hs. unfold bind, get. by apply Hk. Qed.

Lemma keeps_set_visited m0 ptr x :
  m0 !! ptr = None → keeps m0 (set_visited ptr x).
Proof. intros Hn s Hs. cbn. by apply insert_subseteq_r. Qed.

Ltac pure_tac :=
  intros ?;
  repeat (unfold bind, ret, get, panic, fault, alloc, store, assignTo, Set_; cbn);
  try done; repeat (case_match; simplify_eq/=; try done); done.

Lemma pure_panic {A} msg : registry_pure (@panic A msg).
Proof. done. Qed.
Lemma pure_out_of_fuel {A} : registry_pure (@out_of_fuel A).
Proof. done. Qed.
Lemma pure_UpdateStats n : registry_pure (UpdateStats n).
Proof. done. Qed.
Lemma pure_CanInterface v : registry_pure (CanInterface v).
Proof. by destruct v. Qed.
Lemma pure_Interface v : registry_pure (Interface_ v).
Proof. by destruct v as [|x []]. Qed.
Lemma pure_Type v : registry_pure (Type_ v).
Proof. by destruct v. Qed.
Lemma pure_IsNil v : registry_pure (IsNil v).
Proof. destruct v as [|[] ?]; done. Qed.
Lemma pure_Pointer v : registry_pure (Pointer v).
Proof. destruct v as [|[] ?]; done. Qed.
Lemma pure_Elem v : registry_pure (Elem v).
Proof. unfold Elem. pure_tac. Qed.
Lemma pure_Len v : registry_pure (Len v).
Proof. unfold Len. pure_tac. Qed.
Lemma pure_Cap v : registry_pure (Cap v).
Proof. unfold Cap. pure_tac. Qed.
Lemma pure_Index v i : registry_pure (Index v i).
Proof. unfold Index. pure_tac. Qed.
Lemma pure_MapKeys v : registry_pure (MapKeys v).
Proof. unfold MapKeys. pure_tac. Qed.
Lemma pure_MapIndex v k : registry_pure (MapIndex v k).
Proof. unfold MapIndex. pure_tac. Qed.
Lemma pure_NumField v : registry_pure (NumField v).
Proof. unfold NumField. pure_tac. Qed.
Lemma pure_Field v i : registry_pure (Field v i).
Proof. unfold Field. pure_tac. Qed.
Lemma pure_New t : registry_pure (New t).
Proof. unfold New. pure_tac. Qed.
Lemma pure_MakeSlice t l c : registry_pure (MakeSlice t l c).
Proof. unfold MakeSlice. pure_tac. Qed.
Lemma pure_MakeMapWithSize t n : registry_pure (MakeMapWithSize t n).
Proof. unfold MakeMapWithSize. pure_tac. Qed.
Lemma pure_SetElem p x : registry_pure (SetElem p x).
Proof. unfold SetElem. pure_tac. Qed.
Lemma pure_SetIndex sl i x : registry_pure (SetIndex sl i x).
Proof. unfold SetIndex. pure_tac. Qed.
Lemma pure_SetMapIndex m k e : registry_pure (SetMapIndex m k e).
Proof. unfold SetMapIndex. pure_tac. Qed.
Lemma pure_SetArrayIndex c i x : registry_pure (SetArrayIndex c i x).
Proof. unfold SetArrayIndex. pure_tac. Qed.
Lemma pure_SetField c i x : registry_pure (SetField c i x).
Proof. unfold SetField. pure_tac. Qed.
Lemma pure_Convert_Interface x t : registry_pure (Convert_Interface x t).
Proof. unfold Convert_Interface. pure_tac. Qed.

Create HintDb registry discriminated.
#[export] Hint Resolve pure_panic pure_out_of_fuel pure_UpdateStats
  pure_CanInterface pure_Interface pure_Type pure_IsNil pure_Pointer pure_Elem
  pure_Len pure_Cap pure_Index pure_MapKeys pure_MapIndex pure_NumField
  pure_Field pure_New pure_MakeSlice pure_MakeMapWithSize pure_SetElem
  pure_SetIndex pure_SetMapIndex pure_SetArrayIndex pure_SetField
  pure_Convert_Interface : registry.

Ltac keeps_step :=
  lazymatch goal with
  | |- keeps _ (ret _) => apply keeps_ret
  | |- keeps _ (bind get _) => apply keeps_get_bind; intros ? ?
  | |- keeps _ (bind _ _) => apply keeps_bind; [|intros ?]
  | |- keeps _ (set_visited _ _) =>
      apply keeps_set_visited; eapply lookup_weaken_None; eassumption
  | |- keeps _ (match ?x with _ => _ end) => destruct x eqn:?
  | |- keeps _ (if ?b then _ else _) => destruct b eqn:?
  | |- keeps _ _ => apply keeps_pure; solve [auto with registry]
  end.

Ltac keeps_auto := repeat keeps_step.

Lemma keeps_for_range m0 {R} (body : nat → M (option R)) n :
  (∀ i, keeps m0 (body i)) → ∀ from, keeps m0 (for_range body from n).
Proof.
  intros Hb. induction n as [|n IH]; intros from; cbn; keeps_auto; auto.
Qed.

Lemma keeps_for_acc m0 {A R} (body : nat → A → M (R + A)) n :
  (∀ i acc, keeps m0 (body i acc)) → ∀ from acc, keeps m0 (for_acc body from n acc).
Proof.
  intros Hb. induction n as [|n IH]; intros from acc; cbn; keeps_auto; auto.
Qed.

Lemma keeps_for_each m0 {X R} (body : X → M (option R)) xs :
  (∀ x, keeps m0 (body x)) → keeps m0 (for_each body xs).
Proof.
  intros Hb. induction xs as [|x xs IH]; cbn; keeps_auto; auto.
Qed.

Section registry.

Variable methods : type → option Cloneable.
Variable cloners : list (type * Cloner).

Hypothesis methods_through_Clone :
  ∀ t m, methods t = Some m → through_Clone m.
Hypothesis cloners_through_Clone :
  ∀ t c, cloners_lookup cloners t = Some c → through_Clone c.

Section composite.

Variable m0 : gmap addr value.
Variable rec : Value → M cloned.
Hypothesis keeps_rec : ∀ x, keeps m0 (rec x).

Lemma keeps_clonePtr src : keeps m0 (clonePtr rec src).
Proof. unfold clonePtr. keeps_auto; auto. Qed.

Lemma keeps_cloneSlice src : keeps m0 (cloneSlice rec src).
Proof.
  unfold cloneSlice. keeps_auto; auto.
  apply keeps_for_range. intros i. unfold cloneSlice_elem. keeps_auto; auto.
Qed.

Lemma keeps_cloneArray src : keeps m0 (cloneArray rec src).
Proof.
  unfold cloneArray. keeps_auto.
  apply keeps_for_acc. intros i acc. unfold cloneArray_elem. keeps_auto; auto.
Qed.

Lemma keeps_cloneMap src : keeps m0 (cloneMap rec src).
Proof.
  unfold cloneMap. keeps_auto; auto.
  apply keeps_for_each. intros key. unfold cloneMap_entry. keeps_auto; auto.
Qed.

Lemma keeps_cloneStruct src : keeps m0 (cloneStruct rec src).
Proof.
  unfold cloneStruct. keeps_auto.
  apply keeps_for_acc. intros i acc. unfold cloneStruct_field. keeps_auto; auto.
Qed.

Lemma keeps_cloneInterface src : keeps m0 (cloneInterface rec src).
Proof. unfold cloneInterface. keeps_auto; auto. Qed.

Lemma keeps_structural src : keeps m0 (structural rec src).
Proof.
  unfold structural.
  destruct (Kind_ src) as [[]|];
    auto using keeps_clonePtr, keeps_cloneSlice, keeps_cloneArray,
      keeps_cloneMap, keeps_cloneStruct, keeps_cloneInterface;
    keeps_auto.
Qed.

End composite.

Lemma keeps_deepClone m0 fuel : ∀ src, keeps m0 (deepClone methods cloners fuel src).
Proof.
  induction fuel as [|fuel IH]; intros src.
  - apply keeps_pure. auto with registry.
  - rewrite deepClone_S. unfold dispatch.
    destruct src as [|x ro]; [apply keeps_ret|].
    cbn [IsValid negb CanInterface Interface_ Type_].
    assert (Hrest : keeps m0
              (match cloners_lookup cloners (typeof x) with
               | Some cloner =>
                   i <- Interface_ (Valid x ro) ;;
                   cloner (λ i, deepClone methods cloners fuel (ValueOf i)) i
               | None => structural (deepClone methods cloners fuel) (Valid x ro)
               end)).
    { destruct (cloners_lookup cloners (typeof x)) as [c|] eqn:Hc.
      - keeps_auto. eapply cloners_through_Clone; [done|]. intros j. apply IH.
      - by apply keeps_structural. }
    destruct ro; [exact Hrest|].
    destruct (as_Cloneable methods (to_iface x)) as [[m y]|] eqn:Hcl.
    + assert (Hm : methods (typeof y) = Some m).
      { unfold as_Cloneable in Hcl. destruct (to_iface x) as [z|]; [|done].
        destruct (methods (typeof z)) eqn:E; by simplify_eq/=. }
      intros s Hs. unfold bind at 1. cbn [ret negb].
      unfold bind at 1. unfold bind at 1. cbn [ret]. rewrite Hcl.
      eapply methods_through_Clone; [done| |done]. intros j. apply IH.
    + intros s Hs. unfold bind at 1. cbn [ret negb].
      unfold bind at 1. unfold bind at 1. cbn [ret]. rewrite Hcl.
      by apply Hrest.
Qed.


End registry.

(** [type Wrapper struct { Inner *int }] with a cloner that clones
    [Inner] through the manager it is handed and wraps the clone again. *)
Definition Wrapper : type := TStruct "Wrapper" [("Inner", TPtr TInt)].

Definition rewrap : Cloner :=
  λ Clone_ i,
    match i with
    | Some (VStruct n [(fname, ft, inner)]) =>
        r <- Clone_ (to_iface inner) ;;
        match r.2 with
        | Some err => ret (None, Some err)
        | None =>
            match r.1 with
            | Some p => ret (Some (VStruct n [(fname, ft, p)]), None)
            | None => ret (Some (VStruct n [(fname, ft, inner)]), None)
            end
        end
    | _ => ret (i, None)
    end.

Definition five_heap : gmap addr object := {[ 1%N := OCell (VInt 5) ]}.

Lemma rewrap_through_Clone : through_Clone rewrap.
Proof.
  intros m0 Clone_ i HC. unfold rewrap.
  repeat (first [ apply HC | keeps_step ]).
Qed.


(** ** C8: a failure below aborts the whole call *)

Section failure.

Variable methods : type → option Cloneable.
Variable cloners : list (type * Cloner).

(** [child_call rec src s x sx]: cloning [src] by shape from state [s],
    with [rec] for [cm.deepClone], reaches the call [rec x] in state [sx]:
    the registry had no entry for [src], and every round of the loop
    before the one that clones [x] has gone through. *)
Inductive child_call (rec : Value → M cloned)
  : Value → state → Value → state → Prop :=
| child_ptr t a ro s y :
    visited s !! a = None →
    heap s !! a = Some (OCell y) →
    child_call rec (Valid (VPtr t (Some a)) ro) s (Valid y ro) s
| child_slice t a len cap ro s clone s0 i sx x :
    visited s !! a = None →
    MakeSlice (TSlice t) len cap s = (Ret clone, s0) →
    i < len →
    for_range (cloneSlice_elem rec (Valid (VSlice t (Some (a, len, cap))) ro) clone)
      0 i (set_visited a clone s0).2 = (Ret None, sx) →
    Index (Valid (VSlice t (Some (a, len, cap))) ro) i sx = (Ret x, sx) →
    child_call rec (Valid (VSlice t (Some (a, len, cap))) ro) s x sx
| child_array t l ro s i acc sx y :
    for_acc (cloneArray_elem rec (Valid (VArray t l) ro))
      0 i (zero (TArray (length l) t)) s = (Ret (inr acc), sx) →
    l !! i = Some y →
    child_call rec (Valid (VArray t l) ro) s (Valid y ro) sx
| child_map_key k e a ro s es clone s0 keys1 key keys2 sx :
    visited s !! a = None →
    heap s !! a = Some (OMap es) →
    MakeMapWithSize (TMap k e) (length es) s = (Ret clone, s0) →
    MapKeys (Valid (VMap k e (Some a)) ro) (set_visited a clone s0).2
      = (Ret (keys1 ++ key :: keys2), (set_visited a clone s0).2) →
    for_each (cloneMap_entry rec (Valid (VMap k e (Some a)) ro) clone) keys1
      (set_visited a clone s0).2 = (Ret None, sx) →
    child_call rec (Valid (VMap k e (Some a)) ro) s key sx
| child_map_value k e a ro s es clone s0 keys1 key keys2 sk ck sx x :
    visited s !! a = None →
    heap s !! a = Some (OMap es) →
    MakeMapWithSize (TMap k e) (length es) s = (Ret clone, s0) →
    MapKeys (Valid (VMap k e (Some a)) ro) (set_visited a clone s0).2
      = (Ret (keys1 ++ key :: keys2), (set_visited a clone s0).2) →
    for_each (cloneMap_entry rec (Valid (VMap k e (Some a)) ro) clone) keys1
      (set_visited a clone s0).2 = (Ret None, sk) →
    rec key sk = (Ret (ck, None), sx) →
    MapIndex (Valid (VMap k e (Some a)) ro) key sx = (Ret x, sx) →
    child_call rec (Valid (VMap k e (Some a)) ro) s x sx
| child_field n fs ro s i acc sx f :
    for_acc (cloneStruct_field rec (Valid (VStruct n fs) ro))
      0 i (zero (typeof (VStruct n fs))) s = (Ret (inr acc), sx) →
    fs !! i = Some f →
    exported f.1.1 = true →
    child_call rec (Valid (VStruct n fs) ro) s (Valid f.2 ro) sx
| child_iface y ro s :
    child_call rec (Valid (VIface (Some y)) ro) s (Valid y ro) s.

(** [nested_failure fuel src s e s']: somewhere below [src], at any
    depth, a call of [deepClone] returned the error [e], leaving the
    state [s']. *)
Inductive nested_failure : nat → Value → state → error → state → Prop :=
| failure_of_child fuel src s x sx v e s' :
    delegated methods cloners src = false →
    child_call (deepClone methods cloners fuel) src s x sx →
    deepClone methods cloners fuel x sx = (Ret (v, Some e), s') →
    nested_failure (S fuel) src s e s'
| failure_below fuel src s x sx e s' :
    delegated methods cloners src = false →
    child_call (deepClone methods cloners fuel) src s x sx →
    nested_failure fuel x sx e s' →
    nested_failure (S fuel) src s e s'.

End failure.

Lemma for_range_early {R} (body : nat → M (option R)) n i r s' :
  ∀ from s sx,
    i < n →
    for_range body from i s = (Ret None, sx) →
    body (from + i) sx = (Ret (Some r), s') →
    for_range body from n s = (Ret (Some r), s').
Proof.
  intros from s sx Hlt. replace n with (i + S (n - S i)) by lia.
  generalize (n - S i). clear Hlt. intros k. revert from s sx.
  induction i as [|i IH]; intros from s sx Hpre Hbody; cbn in *.
  - unfold ret in Hpre. simplify_eq. rewrite Nat.add_0_r in Hbody.
    unfold bind. by rewrite Hbody.
  - unfold bind in *. destruct (body from s) as [[[x|]|msg|] s1]; try done.
    eapply IH; [done|]. by replace (S from + i) with (from + S i) by lia.
Qed.

Lemma for_acc_early {A R} (body : nat → A → M (R + A)) n i r s' :
  ∀ from acc s acc' sx,
    i < n →
    for_acc body from i acc s = (Ret (inr acc'), sx) →
    body (from + i) acc' sx = (Ret (inl r), s') →
    for_acc body from n acc s = (Ret (inl r), s').
Proof.
  intros from acc s acc' sx Hlt. replace n with (i + S (n - S i)) by lia.
  generalize (n - S i). clear Hlt. intros k. revert from acc s acc' sx.
  induction i as [|i IH]; intros from acc s acc' sx Hpre Hbody; cbn in *.
  - unfold ret in Hpre. simplify_eq. rewrite Nat.add_0_r in Hbody.
    unfold bind. by rewrite Hbody.
  - unfold bind in *. destruct (body from acc s) as [[[x|acc1]|msg|] s1]; try done.
    eapply IH; [done|]. by replace (S from + i) with (from + S i) by lia.
Qed.

Lemma for_each_early {X R} (body : X → M (option R)) xs x ys r s' :
  ∀ s sx,
    for_each body xs s = (Ret None, sx) →
    body x sx = (Ret (Some r), s') →
    for_each body (xs ++ x :: ys) s = (Ret (Some r), s').
Proof.
  induction xs as [|x0 xs IH]; intros s sx Hpre Hbody; cbn in *.
  - unfold ret in Hpre. simplify_eq. unfold bind. by rewrite Hbody.
  - unfold bind in *. destruct (body x0 s) as [[[y|]|msg|] s1]; try done.
    by eapply IH.
Qed.

Lemma lookup_map {A B} (f : A → B) (l : list A) i :
  map f l !! i = f <$> (l !! i).
Proof. apply list_lookup_fmap. Qed.

(** The clone under construction keeps the field names of the source. *)
Lemma cloneStruct_loop_names rec src n i :
  ∀ from gs s acc' sx,
    for_acc (cloneStruct_field rec src) from i (VStruct n gs) s
    = (Ret (inr acc'), sx) →
    ∃ gs', acc' = VStruct n gs' ∧ map fst gs' = map fst gs.
Proof.
  induction i as [|i IH]; intros from gs s acc' sx Hloop; cbn in Hloop.
  - unfold ret in Hloop. simplify_eq. eauto.
  - unfold bind in Hloop at 1.
    destruct (cloneStruct_field rec src from (VStruct n gs) s)
      as [[[early|acc1]|msg|] s1] eqn:Hbody; try done.
    assert (Hacc : ∃ gs1, acc1 = VStruct n gs1 ∧ map fst gs1 = map fst gs).
    { unfold cloneStruct_field in Hbody. run_in Hbody.
      repeat (case_match; simplify_eq/=; try done); eauto.
      eexists. split; [done|].
      match goal with Hp : gs !! from = Some ?p |- _ =>
        rewrite list_fmap_insert; cbn;
        apply list_insert_id; by rewrite list_lookup_fmap, Hp
      end. }
    destruct Hacc as (gs1 & -> & Hn1).
    apply IH in Hloop as (gs' & -> & Hn'). exists gs'. split; [done|congruence].
Qed.

(** One level: the composite cloner returns the error of the child that
    fails, a nil value, and the state the child left. *)
Lemma child_failure_propagates rec src s x sx v e s' :
  child_call rec src s x sx →
  rec x sx = (Ret (v, Some e), s') →
  structural rec src s = (Ret (None, Some e), s').
Proof.
  intros Hc Hrec. destruct Hc.
  - cbn. unfold clonePtr. run. rewrite H. run. rewrite H0. run.
    rewrite Hrec. done.
  - cbn. unfold cloneSlice. run. rewrite H. run.
    change (MakeSlice (TSlice t) len cap s) with
      (match TSlice t with
       | TSlice e0 =>
           if decide (len ≤ cap) then
             a <- alloc (OArray (replicate cap (zero e0))) ;;
             ret (VSlice e0 (Some (a, len, cap)))
           else panic "reflect.MakeSlice: len > cap"
       | _ => panic "reflect.MakeSlice of non-slice type"
       end s) in H0.
    cbn in H0. destruct (decide (len ≤ cap)); [|done]. run_in H0. simplify_eq.
    erewrite for_range_early; [done|done|exact H2|].
    unfold cloneSlice_elem. cbn [Nat.add]. unfold bind at 1. rewrite H3.
    unfold bind at 1. rewrite Hrec. done.
  - cbn. unfold cloneArray. run.
    assert (Hi : i < length l) by (by eapply lookup_lt_Some).
    erewrite for_acc_early; [done|done|exact H|].
    unfold cloneArray_elem. cbn [Nat.add]. unfold bind at 1.
    cbn [Index]. rewrite H0. cbn [ret].
    unfold bind at 1. rewrite Hrec. done.
  - cbn [structural Kind_ kind_of kind_of_type typeof]. unfold cloneMap.
    unfold bind at 1. cbn [IsNil ret].
    rewrite bool_decide_eq_false_2 by done.
    unfold bind at 1. cbn [Pointer ret default]. unfold id.
    unfold bind at 1. cbn [get]. rewrite H.
    unfold bind at 1. cbn [Type_ ret typeof].
    unfold bind at 1. cbn [Len]. unfold bind at 1. cbn [get]. rewrite H0. cbn [ret].
    unfold bind at 1. rewrite H1.
    unfold bind at 1. cbn [set_visited].
    unfold bind at 1. cbn [set_visited snd] in H2, H3. rewrite H2.
    unfold bind at 1.
    erewrite for_each_early; [done|exact H3|].
    unfold cloneMap_entry. unfold bind at 1. rewrite Hrec. done.
  - cbn [structural Kind_ kind_of kind_of_type typeof]. unfold cloneMap.
    unfold bind at 1. cbn [IsNil ret].
    rewrite bool_decide_eq_false_2 by done.
    unfold bind at 1. cbn [Pointer ret default]. unfold id.
    unfold bind at 1. cbn [get]. rewrite H.
    unfold bind at 1. cbn [Type_ ret typeof].
    unfold bind at 1. cbn [Len]. unfold bind at 1. cbn [get]. rewrite H0. cbn [ret].
    unfold bind at 1. rewrite H1.
    unfold bind at 1. cbn [set_visited].
    unfold bind at 1. cbn [set_visited snd] in H2, H3. rewrite H2.
    unfold bind at 1.
    erewrite for_each_early; [done|exact H3|].
    unfold cloneMap_entry. unfold bind at 1. rewrite H4. cbn [snd].
    unfold bind at 1. rewrite H5.
    unfold bind at 1. rewrite Hrec. done.
  - cbn. unfold cloneStruct. run.
    assert (Hi : i < length fs) by (by eapply lookup_lt_Some).
    erewrite for_acc_early; [done|done|exact H|].
    rewrite zero_typeof_struct in H.
    apply cloneStruct_loop_names in H as (gs & -> & Hn).
    assert (Hg : ∃ g, gs !! i = Some g ∧ g.1 = f.1) .
    { apply (f_equal (λ l, l !! i)) in Hn.
      rewrite 3 lookup_map, H0 in Hn. cbn in Hn.
      destruct (gs !! i) as [g|]; [|done]. exists g. split; [done|].
      by simplify_eq/=. }
    destruct Hg as (g & Hg & Hgf).
    unfold cloneStruct_field. cbn [Nat.add]. unfold bind at 1.
    cbn [Field]. rewrite H0. cbn [ret].
    unfold bind at 1. rewrite Hg. cbn [ret]. rewrite Hgf, H1.
    cbn [negb orb CanSet]. rewrite orb_false_r.
    unfold bind at 1. rewrite Hrec. done.
  - cbn. unfold cloneInterface. run. rewrite Hrec. done.
Qed.


(** [type Conn struct { Name string; Ch chan int }], and a pointer to one. *)
Definition Conn : type := TStruct "Conn" [("Name", TString); ("Ch", TChan TInt)].

Definition conn : value :=
  VStruct "Conn" [("Name", TString, VString "db"); ("Ch", TChan TInt, VChan TInt (Some 9%N))].

Definition conn_heap : gmap addr object := {[ 1%N := OCell conn ]}.


(** ** Object graphs: what cloning by shape preserves *)

(** The addresses a value refers to directly. *)
Fixpoint addrs (v : value) : list addr :=
  match v with
  | VPtr _ (Some a) => [a]
  | VSlice _ (Some h) => [h.1.1]
  | VMap _ _ (Some a) => [a]
  | VArray _ l => flat_map addrs l
  | VStruct _ fs => flat_map (λ f, addrs f.2) fs
  | VIface (Some y) => addrs y
  | _ => []
  end.

(** The address a reference holds. *)
Definition ref_addr (v : value) : option addr :=
  match v with
  | VPtr _ p => p
  | VSlice _ h => (λ h, h.1.1) <$> h
  | VMap _ _ m => m
  | _ => None
  end.

(** The same reference, to another address. *)
Definition retarget (v : value) (a' : addr) : value :=
  match v with
  | VPtr t (Some _) => VPtr t (Some a')
  | VSlice t (Some h) => VSlice t (Some (a', h.1.2, h.2))
  | VMap k e (Some _) => VMap k e (Some a')
  | _ => v
  end.

(** [rename σ v]: [v] with every reference replaced by what the registry
    [σ] holds for its address. *)
Fixpoint rename (σ : gmap addr value) (v : value) : value :=
  match v with
  | VPtr _ (Some a) => default v (σ !! a)
  | VSlice _ (Some h) => default v (σ !! h.1.1)
  | VMap _ _ (Some a) => default v (σ !! a)
  | VArray t l => VArray t (map (rename σ) l)
  | VStruct n fs => VStruct n (map (λ f, (f.1, rename σ f.2)) fs)
  | VIface (Some y) => VIface (Some (rename σ y))
  | _ => v
  end.

(** Every reference in [v] has an entry in [σ]. *)
Definition covered (σ : gmap addr value) (v : value) : Prop :=
  ∀ a, a ∈ addrs v → is_Some (σ !! a).

(** What [deepClone] returns for a value it clones into [rename σ v]. *)
Definition expected (σ : gmap addr value) (v : value) : iface :=
  if is_nil v then None else to_iface (rename σ v).

(** Observable equality of a value in one heap and a value in another,
    after [reflect.DeepEqual], by which the tests of the package compare a
    clone with its source: same types, same scalars, the same nil-ness,
    and deeply equal pointees, elements, fields and map values under equal
    keys. *)
Fixpoint all2 {A B} (p : A → B → bool) (l1 : list A) (l2 : list B) : bool :=
  match l1, l2 with
  | [], [] => true
  | x :: l1', y :: l2' => p x y && all2 p l1' l2'
  | _, _ => false
  end.

Fixpoint DeepEqual (fuel : nat) (h1 h2 : gmap addr object) (v1 v2 : value) : bool :=
  match fuel with
  | 0 => false
  | S fuel' =>
      type_eqb (typeof v1) (typeof v2) &&
      match v1, v2 with
      | VPtr _ None, VPtr _ None => true
      | VPtr _ (Some a1), VPtr _ (Some a2) =>
          match h1 !! a1, h2 !! a2 with
          | Some (OCell x1), Some (OCell x2) => DeepEqual fuel' h1 h2 x1 x2
          | _, _ => false
          end
      | VSlice _ None, VSlice _ None => true
      | VSlice _ (Some g1), VSlice _ (Some g2) =>
          bool_decide (g1.1.2 = g2.1.2) &&
          match h1 !! g1.1.1, h2 !! g2.1.1 with
          | Some (OArray l1), Some (OArray l2) =>
              all2 (DeepEqual fuel' h1 h2) (take g1.1.2 l1) (take g2.1.2 l2)
          | _, _ => false
          end
      | VArray _ l1, VArray _ l2 => all2 (DeepEqual fuel' h1 h2) l1 l2
      | VMap _ _ None, VMap _ _ None => true
      | VMap _ _ (Some a1), VMap _ _ (Some a2) =>
          match h1 !! a1, h2 !! a2 with
          | Some (OMap es1), Some (OMap es2) =>
              bool_decide (length es1 = length es2) &&
              forallb (λ e1,
                match map_get e1.1 es2 with
                | Some x2 => DeepEqual fuel' h1 h2 e1.2 x2
                | None => false
                end) es1
          | _, _ => false
          end
      | VStruct _ fs1, VStruct _ fs2 =>
          all2 (λ f1 f2, DeepEqual fuel' h1 h2 f1.2 f2.2) fs1 fs2
      | VIface None, VIface None => true
      | VIface (Some y1), VIface (Some y2) => DeepEqual fuel' h1 h2 y1 y2
      | VChan _ c1, VChan _ c2 => bool_decide (c1 = c2)
      | VFunc _ None, VFunc _ None => true
      | _, _ => value_eqb v1 v2
      end
  end.

(** A location in an object graph: the steps from the root. *)
Inductive step :=
| Deref
| At (i : nat)
| FieldAt (i : nat)
| Key (k : value)
| Unwrap.

(** The value at a location. *)
Fixpoint locate (h : gmap addr object) (v : value) (path : list step) : option value :=
  match path with
  | [] => Some v
  | st :: path' =>
      match st, v with
      | Deref, VPtr _ (Some a) =>
          match h !! a with
          | Some (OCell x) => locate h x path'
          | _ => None
          end
      | At i, VSlice _ (Some g) =>
          match h !! g.1.1 with
          | Some (OArray l) =>
              if decide (i < g.1.2) then
                match l !! i with
                | Some x => locate h x path'
                | None => None
                end
              else None
          | _ => None
          end
      | At i, VArray _ l =>
          match l !! i with
          | Some x => locate h x path'
          | None => None
          end
      | FieldAt i, VStruct _ fs =>
          match fs !! i with
          | Some f => locate h f.2 path'
          | None => None
          end
      | Key k, VMap _ _ (Some a) =>
          match h !! a with
          | Some (OMap es) =>
              match map_get k es with
              | Some x => locate h x path'
              | None => None
              end
          | _ => None
          end
      | Unwrap, VIface (Some y) => locate h y path'
      | _, _ => None
      end
  end.

(** A type whose values take no storage; Go leaves open whether two such
    values have distinct addresses. *)
Fixpoint zero_size (t : type) : bool :=
  match t with
  | TArray n e => bool_decide (n = 0) || zero_size e
  | TStruct _ fs =>
      (fix go (l : list (string * type)) : bool :=
         match l with
         | [] => true
         | f :: l' => zero_size f.2 && go l'
         end) fs
  | _ => false
  end.

(** A non-nil reference whose referent takes storage. *)
Definition occupies (r : value) : bool :=
  match r with
  | VPtr t (Some _) => negb (zero_size t)
  | VSlice t (Some g) => negb (bool_decide (g.2 = 0)) && negb (zero_size t)
  | VMap _ _ (Some _) => true
  | _ => false
  end.

Section graph.

Variable methods : type → option Cloneable.
Variable cloners : list (type * Cloner).

(** The heap the source lives in when cloning starts. *)
Variable h0 : gmap addr object.

(** A rank that decreases from every object to the objects it refers to:
    the graph has no cycle. *)
Variable ρ : addr → nat.

(** The one reference (type, length and capacity) by which each object
    of the graph is referred to. *)
Variable ref : addr → value.

(** The dispatcher clones [v] by shape. *)
Definition plain (v : value) : Prop :=
  delegated methods cloners (Valid v false) = false.

(** [clonable n v]: [v] and everything reachable from it is made of
    scalars, pointers, slices, arrays, maps, structs and interfaces that
    are cloned by shape; ranks below [n] decrease along references; every
    struct field is exported; nil occurs only as the root or in a struct
    field; map keys hold no references; every object is referred to by one
    reference only. *)
#[local] Unset Elimination Schemes.

Inductive clonable : nat → value → Prop :=
| clonable_scalar n v :
    is_scalar v = true → plain v → clonable n v
| clonable_nil n v :
    is_nil v = true → plain v → clonable n v
| clonable_ptr n t a x :
    plain (VPtr t (Some a)) →
    ref a = VPtr t (Some a) →
    ρ a < n →
    h0 !! a = Some (OCell x) →
    typeof x = t →
    is_nil x = false →
    clonable (ρ a) x →
    clonable n (VPtr t (Some a))
| clonable_slice n t a len cap l :
    plain (VSlice t (Some (a, len, cap))) →
    ref a = VSlice t (Some (a, len, cap)) →
    ρ a < n →
    h0 !! a = Some (OArray l) →
    len ≤ cap →
    len ≤ length l →
    Forall (λ x, typeof x = t ∧ is_nil x = false ∧ clonable (ρ a) x) (take len l) →
    clonable n (VSlice t (Some (a, len, cap)))
| clonable_array n m t l :
    plain (VArray t l) →
    m < n →
    Forall (λ x, typeof x = t ∧ is_nil x = false ∧ clonable m x) l →
    clonable n (VArray t l)
| clonable_map n k e a es :
    plain (VMap k e (Some a)) →
    ref a = VMap k e (Some a) →
    ρ a < n →
    h0 !! a = Some (OMap es) →
    NoDup (map fst es) →
    Forall (λ kv, typeof kv.1 = k ∧ is_nil kv.1 = false ∧ addrs kv.1 = []
                  ∧ clonable (ρ a) kv.1
                  ∧ typeof kv.2 = e ∧ is_nil kv.2 = false
                  ∧ clonable (ρ a) kv.2) es →
    clonable n (VMap k e (Some a))
| clonable_struct n m name fs :
    plain (VStruct name fs) →
    m < n →
    Forall (λ f, exported f.1.1 = true ∧ typeof f.2 = f.1.2 ∧ clonable m f.2) fs →
    clonable n (VStruct name fs)
| clonable_iface n m y :
    plain (VIface (Some y)) →
    m < n →
    is_nil y = false →
    kind_of y ≠ reflect.Interface →
    clonable m y →
    clonable n (VIface (Some y)).

#[local] Set Elimination Schemes.

(** The clone of the object at [a], to which the entry [c] refers, holds
    in heap [H] the renaming of what [a] holds in the source. *)
Definition complete (H : gmap addr object) (σ : gmap addr value)
    (a : addr) (c : value) : Prop :=
  match h0 !! a, c with
  | Some (OCell x), VPtr _ (Some a') =>
      H !! a' = Some (OCell (rename σ x)) ∧ covered σ x
  | Some (OArray l), VSlice t (Some g) =>
      H !! g.1.1 = Some (OArray (map (rename σ) (take g.1.2 l)
                                  ++ replicate (g.2 - g.1.2) (zero t)))
      ∧ Forall (covered σ) (take g.1.2 l)
  | Some (OMap es), VMap _ _ (Some a') =>
      H !! a' = Some (OMap (map (λ kv, (kv.1, rename σ kv.2)) es))
      ∧ Forall (λ kv, covered σ kv.2) es
  | _, _ => False
  end.

(** The entry [c] for [a] is the reference to [a] moved to a address that
    is not part of the source heap and is allocated in [H]. *)
Definition entry_ok (H : gmap addr object) (a : addr) (c : value) : Prop :=
  ∃ a' : addr,
    c = retarget (ref a) a' ∧ ref_addr (ref a) = Some a
    ∧ (a' ∉ dom h0) ∧ (a' ∈ dom H).

(** What holds of the state throughout a clone of a graph in [h0]. *)
Definition inv (s : state) : Prop :=
  h0 ⊆ heap s
  ∧ (∀ a c, visited s !! a = Some c → entry_ok (heap s) a c)
  ∧ (∀ a1 a2 c1 c2, visited s !! a1 = Some c1 → visited s !! a2 = Some c2 →
       ref_addr c1 = ref_addr c2 → a1 = a2).

(** From [s] to [s'] nothing that was allocated or registered has been
    touched, and every entry that is new refers to a clone that is new, has
    a rank below [n] and is complete. *)
Definition grown (n : nat) (s s' : state) : Prop :=
  inv s'
  ∧ heap s ⊆ heap s'
  ∧ visited s ⊆ visited s'
  ∧ (∀ a c, visited s' !! a = Some c → visited s !! a = None →
       ρ a < n
       ∧ (∀ a', ref_addr c = Some a' → a' ∉ dom (heap s))
       ∧ complete (heap s') (visited s') a c).

(** What a clone of [v] that starts in [s] and ends in [s'] has done. *)
Definition post (n : nat) (v : value) (s s' : state) : Prop :=
  grown n s s' ∧ covered (visited s') v.

(** [rec] clones [x], of rank below [m], as [deepClone] is meant to. *)
Definition clones (rec : Value → M cloned) (m : nat) (x : value) : Prop :=
  ∀ s, inv s →
    ∃ s', rec (Valid x false) s = (Ret (expected (visited s') x, None), s')
          ∧ post m x s s'.

End graph.

(** ** C2 and C3: cloning by shape renames the graph *)

Arguments expected : simpl never.

(** *** Renaming *)

Lemma elem_of_flat_map {A B} (f : A → list B) (l : list A) (b : B) :
  b ∈ flat_map f l ↔ ∃ x, x ∈ l ∧ b ∈ f x.
Proof.
  rewrite list_elem_of_In, in_flat_map.
  split; intros (x & Hx & Hb); exists x; by rewrite ?list_elem_of_In in *.
Qed.

Lemma covered_array σ t l : covered σ (VArray t l) ↔ Forall (covered σ) l.
Proof.
  unfold covered. cbn. rewrite Forall_forall. split.
  - intros H x Hx a Ha. apply H, elem_of_flat_map. eauto.
  - intros H a (x & Hx & Ha)%elem_of_flat_map. by eapply H.
Qed.

Lemma covered_struct σ n fs :
  covered σ (VStruct n fs) ↔ Forall (λ f, covered σ f.2) fs.
Proof.
  unfold covered. cbn. rewrite Forall_forall. split.
  - intros H x Hx a Ha. apply H, elem_of_flat_map. eauto.
  - intros H a (x & Hx & Ha)%elem_of_flat_map. by eapply H.
Qed.

Lemma covered_mono σ σ' v : σ ⊆ σ' → covered σ v → covered σ' v.
Proof.
  intros Hsub Hc a Ha. destruct (Hc a Ha) as [c Hc'].
  exists c. by eapply lookup_weaken.
Qed.

Lemma covered_no_addrs σ v : addrs v = [] → covered σ v.
Proof. intros H a Ha. rewrite H in Ha. by apply elem_of_nil in Ha. Qed.

Lemma rename_mono σ σ' v :
  σ ⊆ σ' → covered σ v → rename σ' v = rename σ v.
Proof.
  intros Hsub. induction v using value_ind; intros Hc; cbn; try done.
  - destruct p as [a|]; [|done].
    destruct (Hc a) as [c Hc']; [cbn; set_solver|].
    by rewrite Hc', (lookup_weaken _ _ _ _ Hc' Hsub).
  - destruct h as [g|]; [|done].
    destruct (Hc g.1.1) as [c Hc']; [cbn; set_solver|].
    by rewrite Hc', (lookup_weaken _ _ _ _ Hc' Hsub).
  - f_equal. apply covered_array in Hc.
    induction H as [|x l Hx _ IH]; [done|].
    apply Forall_cons in Hc as [Hcx Hcl]. cbn. by rewrite Hx, IH.
  - destruct m as [a|]; [|done].
    destruct (Hc a) as [c Hc']; [cbn; set_solver|].
    by rewrite Hc', (lookup_weaken _ _ _ _ Hc' Hsub).
  - f_equal. apply covered_struct in Hc.
    induction H as [|x l Hx _ IH]; [done|].
    apply Forall_cons in Hc as [Hcx Hcl]. cbn. by rewrite Hx, IH.
  - by rewrite IHv.
Qed.

Lemma rename_no_addrs σ v : addrs v = [] → rename σ v = v.
Proof.
  induction v using value_ind; intros Ha; cbn in *; try done.
  - by destruct p.
  - by destruct h.
  - f_equal. induction H as [|x l Hx _ IH]; [done|].
    cbn in Ha. apply app_eq_nil in Ha as [Ha1 Ha2]. cbn. by rewrite Hx, IH.
  - by destruct m.
  - f_equal. induction H as [|[[fn ft] fv] l Hx _ IH]; [done|].
    cbn in Ha. apply app_eq_nil in Ha as [Ha1 Ha2]. cbn in *. by rewrite Hx, IH.
  - by rewrite IHv.
Qed.

Lemma is_scalar_rename σ v : is_scalar v = true → rename σ v = v.
Proof. by destruct v. Qed.

Lemma is_nil_rename_nil σ v : is_nil v = true → rename σ v = v.
Proof. destruct v as [| | |t [p|]|t [h|]| |k e [m|]| |[d|]| |]; done. Qed.

Lemma bind_ret_eq {A B} (m : M A) (k : A → M B) s a s' :
  m s = (Ret a, s') → bind m k s = k a s'.
Proof. intros H. unfold bind. by rewrite H. Qed.

Lemma for_acc_inv {A R} (body : nat → A → M (R + A))
    (P : nat → A → state → Prop) n :
  ∀ from acc s,
    P from acc s →
    (∀ i acc s, from ≤ i < from + n → P i acc s →
       ∃ acc' s', body i acc s = (Ret (inr acc'), s') ∧ P (S i) acc' s') →
    ∃ acc' s', for_acc body from n acc s = (Ret (inr acc'), s')
               ∧ P (from + n) acc' s'.
Proof.
  induction n as [|n IH]; intros from acc s HP Hstep; cbn.
  - exists acc, s. by rewrite Nat.add_0_r.
  - destruct (Hstep from acc s ltac:(lia) HP) as (acc1 & s1 & Hb & HP1).
    rewrite (bind_ret_eq _ _ _ _ _ Hb).
    destruct (IH (S from) acc1 s1 HP1) as (acc' & s' & Hl & HP').
    { intros i acc2 s2 Hi. apply Hstep. lia. }
    exists acc', s'. split; [done|].
    by replace (from + S n) with (S from + n) by lia.
Qed.

Lemma for_range_inv {R} (body : nat → M (option R)) (P : nat → state → Prop) n :
  ∀ from s,
    P from s →
    (∀ i s, from ≤ i < from + n → P i s →
       ∃ s', body i s = (Ret None, s') ∧ P (S i) s') →
    ∃ s', for_range body from n s = (Ret None, s') ∧ P (from + n) s'.
Proof.
  induction n as [|n IH]; intros from s HP Hstep; cbn.
  - exists s. by rewrite Nat.add_0_r.
  - destruct (Hstep from s ltac:(lia) HP) as (s1 & Hb & HP1).
    rewrite (bind_ret_eq _ _ _ _ _ Hb).
    destruct (IH (S from) s1 HP1) as (s' & Hl & HP').
    { intros i s2 Hi. apply Hstep. lia. }
    exists s'. split; [done|].
    by replace (from + S n) with (S from + n) by lia.
Qed.

Lemma for_each_inv {X R} (body : X → M (option R)) (P : nat → state → Prop) xs :
  ∀ s,
    P 0 s →
    (∀ i x s, xs !! i = Some x → P i s →
       ∃ s', body x s = (Ret None, s') ∧ P (S i) s') →
    ∃ s', for_each body xs s = (Ret None, s') ∧ P (length xs) s'.
Proof.
  revert P. induction xs as [|x xs IH]; intros P s HP Hstep; cbn.
  - by exists s.
  - destruct (Hstep 0 x s eq_refl HP) as (s1 & Hb & HP1).
    rewrite (bind_ret_eq _ _ _ _ _ Hb).
    destruct (IH (λ i, P (S i)) s1 HP1) as (s' & Hl & HP').
    { intros i y s2 Hi. by apply Hstep. }
    by exists s'.
Qed.

Lemma map_fmap {A B} (f : A → B) (l : list A) : map f l = f <$> l.
Proof. done. Qed.

Lemma insert_middle {A} (l1 l2 : list A) z y i :
  length l1 = i → <[i := y]> (l1 ++ z :: l2) = l1 ++ y :: l2.
Proof.
  intros <-. rewrite insert_app_r_alt by lia.
  by replace (length l1 - length l1) with 0 by lia.
Qed.


Lemma value_eqb_neq a b : a ≠ b → value_eqb a b = false.
Proof.
  intros Hne. destruct (value_eqb a b) eqn:E; [|done].
  by apply value_eqb_eq in E.
Qed.

Lemma map_get_lookup es i (kv : value * value) :
  NoDup (map fst es) → es !! i = Some kv → map_get kv.1 es = Some kv.2.
Proof.
  revert i. induction es as [|e es IH]; intros i Hnd Hi; [done|].
  cbn in Hnd. apply NoDup_cons in Hnd as [Hnotin Hnd].
  destruct i as [|i]; cbn in *.
  - simplify_eq. by rewrite value_eqb_refl.
  - rewrite value_eqb_neq; [by eapply IH|].
    intros Heq. apply Hnotin. rewrite Heq.
    apply list_elem_of_fmap. exists kv. split; [done|].
    by eapply list_elem_of_lookup_2.
Qed.

Lemma map_set_fresh k x es :
  k ∉ map fst es → map_set k x es = es ++ [(k, x)].
Proof.
  induction es as [|e es IH]; intros Hn; [done|]. cbn in *.
  apply not_elem_of_cons in Hn as [Hne Hn].
  rewrite value_eqb_neq by done. by rewrite IH.
Qed.

Lemma NoDup_lookup_not_in_take {A} (l : list A) i x :
  NoDup l → l !! i = Some x → x ∉ take i l.
Proof.
  intros Hnd Hi Hin.
  apply list_elem_of_lookup in Hin as [j Hj].
  assert (Hjl : j < i).
  { apply lookup_lt_Some in Hj. rewrite length_take in Hj. lia. }
  rewrite lookup_take_lt in Hj by done.
  pose proof (NoDup_lookup _ _ _ _ Hnd Hi Hj). lia.
Qed.

Lemma all2_map {A B} (p : A → B → bool) (g : A → B) (l : list A) :
  Forall (λ x, p x (g x) = true) l → all2 p l (map g l) = true.
Proof.
  induction 1 as [|x l Hx _ IH]; [done|]. cbn. by rewrite Hx, IH.
Qed.

Lemma map_get_map (g : value → value) es k x :
  map_get k es = Some x →
  map_get k (map (λ kv, (kv.1, g kv.2)) es) = Some (g x).
Proof.
  induction es as [|e es IH]; [done|]. cbn.
  destruct (value_eqb e.1 k); [by intros [= ->]|done].
Qed.

Lemma forallb_Forall {A} (p : A → bool) (l : list A) :
  Forall (λ x, p x = true) l → forallb p l = true.
Proof. induction 1 as [|x l Hx _ IH]; [done|]. cbn. by rewrite Hx, IH. Qed.

#[global] Instance Kind_eq_dec : EqDecision Kind.
Proof. solve_decision. Defined.

Lemma typeof_retarget v a' : typeof (retarget v a') = typeof v.
Proof. destruct v as [| | |t [p|]|t [h|]| |k e [m|]| | | |]; done. Qed.

Lemma ref_addr_retarget v a a' :
  ref_addr v = Some a → ref_addr (retarget v a') = Some a'.
Proof. destruct v as [| | |t [p|]|t [h|]| |k e [m|]| | | |]; done. Qed.

Section graph_facts.

Variable methods : type → option Cloneable.
Variable cloners : list (type * Cloner).
Variable h0 : gmap addr object.
Variable ρ : addr → nat.
Variable ref : addr → value.

Local Abbreviation plain := (plain methods cloners).
Local Abbreviation clonable := (clonable methods cloners h0 ρ ref).
Local Abbreviation complete := (complete h0).
Local Abbreviation entry_ok := (entry_ok h0 ref).
Local Abbreviation inv := (inv h0 ref).
Local Abbreviation grown := (grown h0 ρ ref).
Local Abbreviation post := (post h0 ρ ref).
Local Abbreviation clones := (clones h0 ρ ref).

(** Every entry of [σ] is the reference to its address, moved. *)
Definition moved (σ : gmap addr value) : Prop :=
  ∀ a c, σ !! a = Some c → ∃ a', c = retarget (ref a) a'.

Lemma inv_moved s : inv s → moved (visited s).
Proof. intros (_ & He & _) a c Hc. destruct (He a c Hc) as (a' & -> & _). eauto. Qed.

Lemma clonable_weaken n n' v : clonable n v → n ≤ n' → clonable n' v.
Proof.
  intros H Hle. inversion H; subst.
  - by apply clonable_scalar.
  - by apply clonable_nil.
  - eapply clonable_ptr; eauto. lia.
  - eapply clonable_slice; eauto. lia.
  - eapply clonable_array; eauto. lia.
  - eapply clonable_map; eauto. lia.
  - eapply clonable_struct; eauto. lia.
  - eapply clonable_iface; eauto. lia.
Qed.

Lemma clonable_plain n v : clonable n v → plain v.
Proof. by inversion 1. Qed.

Lemma typeof_rename n v σ :
  clonable n v → moved σ → typeof (rename σ v) = typeof v.
Proof.
  intros H Hσ. inversion H; subst; cbn.
  - by rewrite is_scalar_rename.
  - by rewrite is_nil_rename_nil.
  - destruct (σ !! a) as [c|] eqn:Hc; [|done]. cbn.
    destruct (Hσ a c Hc) as (a' & ->). by rewrite typeof_retarget, H1.
  - destruct (σ !! a) as [c|] eqn:Hc; [|done]. cbn.
    destruct (Hσ a c Hc) as (a' & ->). by rewrite typeof_retarget, H1.
  - unfold typeof. by rewrite length_map.
  - destruct (σ !! a) as [c|] eqn:Hc; [|done]. cbn.
    destruct (Hσ a c Hc) as (a' & ->). by rewrite typeof_retarget, H1.
  - unfold typeof. f_equal. rewrite map_map. by apply map_ext.
  - done.
Qed.

Lemma kind_of_rename n v σ :
  clonable n v → moved σ → kind_of (rename σ v) = kind_of v.
Proof. intros. unfold kind_of. by erewrite typeof_rename. Qed.

Lemma is_nil_rename n v σ :
  clonable n v → moved σ → is_nil (rename σ v) = is_nil v.
Proof.
  intros H Hσ. inversion H; subst; cbn; try done.
  - by rewrite is_scalar_rename.
  - by rewrite is_nil_rename_nil.
  - destruct (σ !! a) as [c|] eqn:Hc; [|done]. cbn.
    destruct (Hσ a c Hc) as (a' & ->). by rewrite H1.
  - destruct (σ !! a) as [c|] eqn:Hc; [|done]. cbn.
    destruct (Hσ a c Hc) as (a' & ->). by rewrite H1.
  - destruct (σ !! a) as [c|] eqn:Hc; [|done]. cbn.
    destruct (Hσ a c Hc) as (a' & ->). by rewrite H1.
Qed.

Lemma to_iface_concrete v :
  kind_of v ≠ reflect.Interface → to_iface v = Some v.
Proof. by destruct v. Qed.

(** Storing the clone of [x] where a [T] is expected stores [rename σ x]. *)
Lemma Set_expected n x T σ s :
  clonable n x → moved σ → is_nil x = false → typeof x = T →
  Set_ T (ValueOf (expected σ x)) s = (Ret (rename σ x), s).
Proof.
  intros H Hσ Hnil HT. unfold expected. rewrite Hnil.
  destruct (decide (kind_of x = reflect.Interface)) as [Hk|Hk].
  - destruct x; try done. destruct dyn as [y|]; [|done].
    inversion H; subst; try done. cbn.
    assert (Hty : typeof (rename σ y) = typeof y) by (by eapply typeof_rename).
    unfold assignTo.
    assert (Hne : type_eqb TInterface (typeof (rename σ y)) = false).
    { destruct (type_eqb TInterface (typeof (rename σ y))) eqn:E; [|done].
      apply type_eqb_eq in E. rewrite Hty in E. unfold kind_of in *.
      by rewrite <- E in *. }
    rewrite Hne.
    assert (Hk' : kind_of (rename σ y) ≠ reflect.Interface).
    { by erewrite kind_of_rename. }
    by destruct (rename σ y).
  - assert (Hk' : kind_of (rename σ x) ≠ reflect.Interface).
    { by erewrite kind_of_rename. }
    rewrite to_iface_concrete by done. cbn.
    apply assignTo_same. rewrite <- HT. by eapply typeof_rename.
Qed.

Lemma complete_mono H H' σ σ' a c :
  complete H σ a c →
  σ ⊆ σ' →
  (∀ a', ref_addr c = Some a' → H' !! a' = H !! a') →
  complete H' σ' a c.
Proof.
  unfold complete. intros Hc Hsub Hag.
  destruct (h0 !! a) as [[x|l|es]|]; [| | |done].
  - destruct c as [| | |t [a'|]| | | | | | |]; try done.
    destruct Hc as [Hh Hcov]. split.
    + rewrite Hag by done. by rewrite (rename_mono σ σ').
    + by eapply covered_mono.
  - destruct c as [| | | |t [g|]| | | | | |]; try done.
    destruct Hc as [Hh Hcov]. split.
    + rewrite Hag by done. rewrite Hh. do 3 f_equal.
      apply map_ext_Forall. eapply Forall_impl; [done|].
      intros x Hx. symmetry. by apply rename_mono.
    + eapply Forall_impl; [done|]. intros x Hx. by eapply covered_mono.
  - destruct c as [| | | | | |k e [a'|]| | | |]; try done.
    destruct Hc as [Hh Hcov]. split.
    + rewrite Hag by done. rewrite Hh. do 2 f_equal.
      apply map_ext_Forall. eapply Forall_impl; [done|].
      intros kv Hx. cbn. f_equal. symmetry. by apply rename_mono.
    + eapply Forall_impl; [done|]. intros x Hx. by eapply covered_mono.
Qed.

Lemma inv_entry_dom s a c a' :
  inv s → visited s !! a = Some c → ref_addr c = Some a' →
  (a' ∉ dom h0) ∧ (a' ∈ dom (heap s)).
Proof.
  intros (_ & He & _) Hc Hr. destruct (He a c Hc) as (b & -> & Hra & Hn & Hd).
  rewrite (ref_addr_retarget _ _ _ Hra) in Hr. by simplify_eq.
Qed.

Lemma grown_refl n s : inv s → grown n s s.
Proof.
  intros Hi. split; [done|]. split; [done|]. split; [done|].
  intros a c Hc Hn. congruence.
Qed.

Lemma grown_trans n s s1 s2 :
  grown n s s1 → grown n s1 s2 → grown n s s2.
Proof.
  intros (Hi1 & Hh1 & Hv1 & Hn1) (Hi2 & Hh2 & Hv2 & Hn2).
  split; [done|]. split; [by etrans|]. split; [by etrans|].
  intros a c Hc Hnone.
  destruct (visited s1 !! a) as [c1|] eqn:Hc1.
  - assert (c1 = c) as ->.
    { pose proof (lookup_weaken _ _ _ _ Hc1 Hv2). congruence. }
    destruct (Hn1 a c Hc1 Hnone) as (Hr & Hf & Hcomp).
    split; [done|]. split; [done|].
    eapply complete_mono; [done|done|].
    intros a' Ha'.
    destruct (inv_entry_dom s1 a c a' Hi1 Hc1 Ha') as [_ Hd].
    apply elem_of_dom in Hd as [o Ho].
    by rewrite Ho, (lookup_weaken _ _ _ _ Ho Hh2).
  - destruct (Hn2 a c Hc Hc1) as (Hr & Hf & Hcomp).
    split; [done|]. split; [|done].
    intros a' Ha' Hd. apply (Hf a' Ha').
    apply elem_of_dom in Hd as [o Ho]. apply elem_of_dom.
    exists o. by eapply lookup_weaken.
Qed.

Lemma grown_weaken n n' s s' : grown n s s' → n ≤ n' → grown n' s s'.
Proof.
  intros (Hi & Hh & Hv & Hn) Hle.
  split; [done|]. split; [done|]. split; [done|].
  intros a c Hc Hnone. destruct (Hn a c Hc Hnone) as (Hr & Hf & Hcomp).
  split; [lia|done].
Qed.

Lemma fresh_addr_fresh (h : gmap addr object) : fresh_addr h ∉ dom h.
Proof.
  unfold fresh_addr.
  assert (Hmax : ∀ k o, h !! k = Some o →
            (k ≤ map_fold (λ k (_ : object) m, N.max k m) 0%N h)%N).
  { apply (map_fold_weak_ind
      (λ r (m : gmap addr object), ∀ k o, m !! k = Some o → (k ≤ r)%N)).
    - intros k o Hk. by rewrite lookup_empty in Hk.
    - intros i x m r Hi IH k o Hk.
      destruct (decide (i = k)) as [->|Hne]; [lia|].
      rewrite lookup_insert_ne in Hk by done.
      specialize (IH k o Hk). lia. }
  intros [o Ho]%elem_of_dom. specialize (Hmax _ _ Ho). lia.
Qed.

Lemma fresh_addr_None (h : gmap addr object) : h !! fresh_addr h = None.
Proof. apply not_elem_of_dom, fresh_addr_fresh. Qed.

(** From [s] to [s'] as in [grown], but for the object at [a'], which is
    being filled in. *)
Definition grown_but (a' : addr) (n : nat) (s s' : state) : Prop :=
  inv s'
  ∧ (∀ b o, b ≠ a' → heap s !! b = Some o → heap s' !! b = Some o)
  ∧ a' ∈ dom (heap s')
  ∧ visited s ⊆ visited s'
  ∧ (∀ a c, visited s' !! a = Some c → visited s !! a = None →
       ρ a < n
       ∧ (∀ b', ref_addr c = Some b' → b' ∉ dom (heap s))
       ∧ complete (heap s') (visited s') a c).

Lemma grown_but_refl a' n s : inv s → a' ∈ dom (heap s) → grown_but a' n s s.
Proof.
  intros Hi Hd. split; [done|]. split; [done|]. split; [done|]. split; [done|].
  intros a c Hc Hn. congruence.
Qed.

Lemma grown_grown_but a' n s s' :
  grown n s s' → a' ∈ dom (heap s) → grown_but a' n s s'.
Proof.
  intros (Hi & Hh & Hv & Hn) Hd. split; [done|]. split.
  { intros b o _ Hb. by eapply lookup_weaken. }
  split.
  { apply elem_of_dom in Hd as [o Ho]. apply elem_of_dom. exists o.
    by eapply lookup_weaken. }
  done.
Qed.

Lemma grown_but_trans a' n s s1 s2 :
  a' ∈ dom (heap s) →
  grown_but a' n s s1 → grown_but a' n s1 s2 → grown_but a' n s s2.
Proof.
  intros Hd (Hi1 & Hh1 & Hd1 & Hv1 & Hn1) (Hi2 & Hh2 & Hd2 & Hv2 & Hn2).
  split; [done|]. split; [by eauto|]. split; [done|]. split; [by etrans|].
  intros a c Hc Hnone.
  destruct (visited s1 !! a) as [c1|] eqn:Hc1.
  - assert (c1 = c) as ->.
    { pose proof (lookup_weaken _ _ _ _ Hc1 Hv2). congruence. }
    destruct (Hn1 a c Hc1 Hnone) as (Hr & Hf & Hcomp).
    split; [done|]. split; [done|].
    eapply complete_mono; [done|done|].
    intros b' Hb'.
    destruct (inv_entry_dom s1 a c b' Hi1 Hc1 Hb') as [_ Hdb].
    apply elem_of_dom in Hdb as [o Ho].
    rewrite Ho. apply Hh2; [|done].
    intros ->. by apply (Hf a').
  - destruct (Hn2 a c Hc Hc1) as (Hr & Hf & Hcomp).
    split; [done|]. split; [|done].
    intros b' Hb' Hdb. apply (Hf b' Hb').
    destruct (decide (b' = a')) as [->|Hne]; [done|].
    apply elem_of_dom in Hdb as [o Ho]. apply elem_of_dom.
    exists o. by apply Hh1.
Qed.

Lemma inv_store s a' o :
  inv s → a' ∉ dom h0 →
  inv (State (<[a' := o]> (heap s)) (visited s) (stats s)).
Proof.
  intros (Hh & He & Hinj) Hn. split; [|split]; cbn.
  - apply insert_subseteq_r; [|done]. by apply not_elem_of_dom.
  - intros a c Hc. destruct (He a c Hc) as (b & -> & Hr & Hb0 & Hb).
    exists b. repeat split; try done. rewrite dom_insert. set_solver.
  - done.
Qed.

Lemma grown_but_store a' n s o :
  inv s → a' ∈ dom (heap s) → a' ∉ dom h0 →
  grown_but a' n s (State (<[a' := o]> (heap s)) (visited s) (stats s)).
Proof.
  intros Hi Hd Hn. split; [by apply inv_store|]. cbn. split.
  { intros b o' Hne Hb. by rewrite lookup_insert_ne. }
  split; [rewrite dom_insert; set_solver|]. split; [done|].
  intros a c Hc Hnone. congruence.
Qed.

Lemma inv_stats s st :
  inv s → inv (State (heap s) (visited s) st).
Proof. done. Qed.

(** A registry entry for [a] that refers to a fresh, complete clone. *)
Lemma grown_register n s a a' o st :
  inv s →
  visited s !! a = None →
  a' ∉ dom (heap s) →
  ref_addr (ref a) = Some a →
  ρ a < n →
  complete (<[a' := o]> (heap s)) (<[a := retarget (ref a) a']> (visited s))
    a (retarget (ref a) a') →
  grown n s (State (<[a' := o]> (heap s))
                   (<[a := retarget (ref a) a']> (visited s)) st).
Proof.
  intros Hi Hv Hf Hr Hρ Hcomp.
  pose proof Hi as (Hh & He & Hinj).
  assert (Hf0 : a' ∉ dom h0).
  { intros Hd. apply Hf. apply elem_of_dom in Hd as [x Hx].
    apply elem_of_dom. exists x. by eapply lookup_weaken. }
  split; [|split; [|split]]; cbn.
  - split; [|split]; cbn.
    + apply insert_subseteq_r; [|done]. by apply not_elem_of_dom.
    + intros b c Hc. destruct (decide (a = b)) as [->|Hne].
      * rewrite lookup_insert_eq in Hc. simplify_eq.
        exists a'. repeat split; try done. rewrite dom_insert. set_solver.
      * rewrite lookup_insert_ne in Hc by done.
        destruct (He b c Hc) as (b' & -> & Hrb & Hb0 & Hb).
        exists b'. repeat split; try done. rewrite dom_insert. set_solver.
    + intros a1 a2 c1 c2 H1 H2 Heq.
      destruct (decide (a = a1)) as [<-|Hne1];
        destruct (decide (a = a2)) as [<-|Hne2]; try done.
      * rewrite lookup_insert_eq in H1. rewrite lookup_insert_ne in H2 by done.
        simplify_eq. rewrite (ref_addr_retarget _ _ _ Hr) in Heq.
        symmetry in Heq.
        destruct (inv_entry_dom s a2 c2 a' Hi H2 Heq) as [_ Hd]. done.
      * rewrite lookup_insert_eq in H2. rewrite lookup_insert_ne in H1 by done.
        simplify_eq. rewrite (ref_addr_retarget _ _ _ Hr) in Heq.
        destruct (inv_entry_dom s a1 c1 a' Hi H1 Heq) as [_ Hd]. done.
      * rewrite lookup_insert_ne in H1, H2 by done. by eapply Hinj.
  - apply insert_subseteq_r; [|done]. by apply not_elem_of_dom.
  - by apply insert_subseteq_r.
  - intros b c Hc Hnone. destruct (decide (a = b)) as [->|Hne].
    + rewrite lookup_insert_eq in Hc. simplify_eq.
      split; [done|]. split; [|done].
      intros b' Hb'. rewrite (ref_addr_retarget _ _ _ Hr) in Hb'. by simplify_eq.
    + rewrite lookup_insert_ne in Hc by done. congruence.
Qed.

Lemma expected_ref σ v a c :
  ref_addr v = Some a → σ !! a = Some c → kind_of c ≠ reflect.Interface →
  expected σ v = Some c.
Proof.
  intros Hr Hc Hk. unfold expected.
  destruct v as [| | |t [p|]|t [h|]| |k e [m|]| | | |]; cbn in *; simplify_eq;
    rewrite Hc; cbn; by apply to_iface_concrete.
Qed.

Lemma kind_of_retarget v a' : kind_of (retarget v a') = kind_of v.
Proof. unfold kind_of. by rewrite typeof_retarget. Qed.

Lemma expected_hit s v a c :
  inv s → ref a = v → ref_addr v = Some a → visited s !! a = Some c →
  expected (visited s) v = Some c.
Proof.
  intros Hi Hv Hr Hc. eapply expected_ref; [done|done|].
  destruct (inv_moved s Hi a c Hc) as (a' & ->).
  rewrite kind_of_retarget, Hv.
  destruct v as [| | |t [p|]|t [h|]| |k e [m|]| | | |]; done.
Qed.

Lemma covered_ref σ v a :
  ref_addr v = Some a → is_Some (σ !! a) → covered σ v.
Proof.
  intros Hr Hs b Hb.
  destruct v as [| | |t [p|]|t [h|]| |k e [m|]| | | |]; cbn in *; simplify_eq;
    apply list_elem_of_singleton in Hb; by subst.
Qed.

Lemma clonePtr_spec rec n t a x :
  ref a = VPtr t (Some a) →
  ρ a < n →
  h0 !! a = Some (OCell x) →
  typeof x = t →
  is_nil x = false →
  clonable (ρ a) x →
  clones rec (ρ a) x →
  ∀ s, inv s →
    ∃ s', clonePtr rec (Valid (VPtr t (Some a)) false) s
          = (Ret (expected (visited s') (VPtr t (Some a)), None), s')
          ∧ post n (VPtr t (Some a)) s s'.
Proof.
  intros Href Hρ Hh Hty Hnil Hcl Hrec s Hi.
  unfold clonePtr. run.
  destruct (visited s !! a) as [c|] eqn:Hv.
  - exists s. cbn. split.
    + by erewrite expected_hit.
    + split; [by apply grown_refl|]. eapply covered_ref; [done|]. by rewrite Hv.
  - cbn. pose proof Hi as (Hh0 & _ & _).
    rewrite (lookup_weaken _ _ _ _ Hh Hh0). cbn.
    destruct (Hrec s Hi) as (s1 & Hr & (Hg & Hcov)). rewrite Hr. cbn.
    pose proof Hg as (Hi1 & Hh1 & Hv1 & Hn1).
    pose proof Hi1 as (Hh01 & _ & _).
    rewrite (lookup_weaken _ _ _ _ Hh Hh01). cbn.
    rewrite Hty.
    erewrite Set_expected; [|done|by apply inv_moved|done|done]. cbn.
    rewrite insert_insert_eq.
    assert (Hv1a : visited s1 !! a = None).
    { destruct (visited s1 !! a) as [c|] eqn:E; [|done].
      destruct (Hn1 a c E Hv) as (Hlt & _). lia. }
    set (a' := fresh_addr (heap s1)).
    assert (Hfresh : a' ∉ dom (heap s1)) by apply fresh_addr_fresh.
    eexists. split.
    + f_equal. f_equal. unfold expected. cbn. by rewrite lookup_insert_eq.
    + cbn. split.
      * eapply grown_trans; [by eapply grown_weaken; [done|lia]|].
        pose proof (grown_register n s1 a a' (OCell (rename (visited s1) x))) as Hreg.
        rewrite Href in Hreg. cbn in Hreg. apply Hreg; try done.
        unfold complete. rewrite Hh. split.
        -- rewrite lookup_insert_eq. do 2 f_equal. symmetry.
           apply rename_mono; [by apply insert_subseteq|done].
        -- eapply covered_mono; [|done]. by apply insert_subseteq.
      * eapply covered_ref; [done|]. cbn. by rewrite lookup_insert_eq.
Qed.

(** What the clone of a value that is not nil is: an interface that
    holds a concrete value, which fits where the value was. *)
Lemma expected_non_nil n x σ :
  clonable n x → moved σ → is_nil x = false →
  ∃ v', expected σ x = Some v'
        ∧ ∀ context s, assignTo context (typeof x) v' s = (Ret (rename σ x), s).
Proof.
  intros H Hσ Hnil. unfold expected. rewrite Hnil.
  destruct (decide (kind_of x = reflect.Interface)) as [Hk|Hk].
  - destruct x; try done. destruct dyn as [y|]; [|done].
    inversion H; subst; try done. cbn [rename to_iface].
    exists (rename σ y). split; [done|]. intros context s.
    assert (Hty : typeof (rename σ y) = typeof y) by (by eapply typeof_rename).
    unfold assignTo. cbn [typeof].
    assert (Hne : type_eqb TInterface (typeof (rename σ y)) = false).
    { destruct (type_eqb TInterface (typeof (rename σ y))) eqn:E; [|done].
      apply type_eqb_eq in E. rewrite Hty in E. unfold kind_of in *.
      by rewrite <- E in *. }
    rewrite Hne.
    assert (Hk' : kind_of (rename σ y) ≠ reflect.Interface).
    { by erewrite kind_of_rename. }
    by destruct (rename σ y).
  - assert (Hk' : kind_of (rename σ x) ≠ reflect.Interface).
    { by erewrite kind_of_rename. }
    rewrite to_iface_concrete by done.
    exists (rename σ x). split; [done|]. intros context s.
    apply assignTo_same. by eapply typeof_rename.
Qed.

Lemma cloneInterface_spec rec n m y :
  plain (VIface (Some y)) →
  m < n →
  is_nil y = false →
  kind_of y ≠ reflect.Interface →
  clonable m y →
  clones rec m y →
  ∀ s, inv s →
    ∃ s', cloneInterface rec (Valid (VIface (Some y)) false) s
          = (Ret (expected (visited s') (VIface (Some y)), None), s')
          ∧ post n (VIface (Some y)) s s'.
Proof.
  intros Hpl Hm Hnil Hk Hcl Hrec s Hi.
  unfold cloneInterface. run.
  destruct (Hrec s Hi) as (s1 & Hr & (Hg & Hcov)). rewrite Hr. cbn.
  pose proof Hg as (Hi1 & _).
  assert (Hcl' : clonable n (VIface (Some y))) by (by eapply clonable_iface).
  destruct (expected_non_nil n (VIface (Some y)) (visited s1) Hcl'
              (inv_moved _ Hi1) eq_refl) as (v' & Hv' & Hassign).
  assert (Hky : kind_of (rename (visited s1) y) ≠ reflect.Interface).
  { erewrite kind_of_rename; [done|done|by apply inv_moved]. }
  assert (Hey : expected (visited s1) y = Some (rename (visited s1) y)).
  { unfold expected. rewrite Hnil. by apply to_iface_concrete. }
  assert (v' = rename (visited s1) y) as ->.
  { unfold expected in Hv'. cbn in Hv'. by simplify_eq. }
  rewrite Hey. cbn. unfold bind. cbn in Hassign. rewrite Hassign. cbn.
  match goal with |- ∃ _, (_, ?st) = _ ∧ _ => exists st end. split.
  - cbn [visited]. by rewrite Hv'.
  - split; [|done]. eapply grown_weaken; [done|lia].
Qed.

Lemma grown_stats n s s' st :
  grown n s s' → grown n s (State (heap s') (visited s') st).
Proof. done. Qed.

Lemma cloneArray_spec rec n m t l :
  plain (VArray t l) →
  m < n →
  Forall (λ x, typeof x = t ∧ is_nil x = false ∧ clonable m x ∧ clones rec m x) l →
  ∀ s, inv s →
    ∃ s', cloneArray rec (Valid (VArray t l) false) s
          = (Ret (expected (visited s') (VArray t l), None), s')
          ∧ post n (VArray t l) s s'.
Proof.
  intros Hpl Hm Hall s Hi.
  unfold cloneArray.
  rewrite (bind_ret_eq _ _ _ _ _ (eq_refl : Type_ (Valid (VArray t l) false) s = (Ret (TArray (length l) t), s))).
  rewrite (bind_ret_eq _ _ _ _ _ (eq_refl : Len (Valid (VArray t l) false) s = (Ret (length l), s))).
  set (P := λ (i : nat) (acc : value) (si : state),
    grown n s si
    ∧ Forall (covered (visited si)) (take i l)
    ∧ acc = VArray t (map (rename (visited si)) (take i l)
                      ++ replicate (length l - i) (zero t))).
  destruct (for_acc_inv (cloneArray_elem rec (Valid (VArray t l) false)) P
              (length l) 0 (zero (TArray (length l) t)) s) as (acc & s1 & Hloop & HP).
  { split; [by apply grown_refl|]. split; [by rewrite take_0|].
    cbn. by rewrite Nat.sub_0_r. }
  { intros i acc si [_ Hi'] (Hg & Hcov & ->). cbn in Hi'.
    destruct (lookup_lt_is_Some_2 l i Hi') as [x Hx].
    pose proof Hall as Hall'. rewrite Forall_lookup in Hall'.
    destruct (Hall' i x Hx) as (Hty & Hnil & Hcl & Hrec).
    pose proof Hg as (Hii & _).
    destruct (Hrec si Hii) as (s' & Hr & (Hg' & Hcov')).
    unfold cloneArray_elem. unfold bind at 1. cbn [Index]. rewrite Hx. cbn [ret].
    rewrite (bind_ret_eq _ _ _ _ _ Hr). cbn [snd fst].
    pose proof Hg' as (Hi1 & _ & Hv1 & _).
    destruct (expected_non_nil m x (visited s') Hcl (inv_moved _ Hi1) Hnil)
      as (v' & Hv' & Hassign).
    rewrite Hv'. unfold SetArrayIndex.
    rewrite decide_True.
    2:{ rewrite length_app, length_map, length_take, length_replicate. lia. }
    unfold bind at 1. unfold bind at 1. cbn [ValueOf Set_].
    rewrite Hty in Hassign. rewrite Hassign. cbn [ret].
    eexists _, s'. split; [done|].
    split; [|split].
    - eapply grown_trans; [done|]. eapply grown_weaken; [done|lia].
    - rewrite (take_S_r _ _ _ Hx). apply Forall_app. split.
      + eapply Forall_impl; [done|]. intros y Hy. by eapply covered_mono.
      + by apply Forall_singleton.
    - f_equal. rewrite (take_S_r _ _ _ Hx), map_app. cbn [map].
      replace (length l - i) with (S (length l - S i)) by lia. cbn [replicate].
      rewrite insert_middle by (rewrite length_map, length_take; lia).
      rewrite <- app_assoc. cbn. f_equal.
      apply map_ext_Forall. eapply Forall_impl; [done|].
      intros y Hy. symmetry. by apply rename_mono. }
  rewrite (bind_ret_eq _ _ _ _ _ Hloop).
  destruct HP as (Hg & Hcov & ->). cbn [Nat.add] in *.
  rewrite firstn_all, Nat.sub_diag, app_nil_r in *.
  run. match goal with |- ∃ _, (_, ?st) = _ ∧ _ => exists st end.
  split; [done|].
  split; [done|]. by apply covered_array.
Qed.

Lemma cloneStruct_spec rec n m name fs :
  plain (VStruct name fs) →
  m < n →
  Forall (λ f, exported f.1.1 = true ∧ typeof f.2 = f.1.2
               ∧ clonable m f.2 ∧ clones rec m f.2) fs →
  ∀ s, inv s →
    ∃ s', cloneStruct rec (Valid (VStruct name fs) false) s
          = (Ret (expected (visited s') (VStruct name fs), None), s')
          ∧ post n (VStruct name fs) s s'.
Proof.
  intros Hpl Hm Hall s Hi.
  unfold cloneStruct.
  rewrite (bind_ret_eq _ _ _ _ _ (eq_refl : Type_ (Valid (VStruct name fs) false) s = (Ret (typeof (VStruct name fs)), s))).
  rewrite (bind_ret_eq _ _ _ _ _ (eq_refl : NumField (Valid (VStruct name fs) false) s = (Ret (length fs), s))).
  rewrite zero_typeof_struct.
  set (P := λ (i : nat) (acc : value) (si : state),
    grown n s si
    ∧ Forall (λ f, covered (visited si) f.2) (take i fs)
    ∧ acc = VStruct name (map (λ f, (f.1, rename (visited si) f.2)) (take i fs)
                          ++ map zero_field (drop i fs))).
  destruct (for_acc_inv (cloneStruct_field rec (Valid (VStruct name fs) false)) P
              (length fs) 0 (VStruct name (map zero_field fs)) s)
    as (acc & s1 & Hloop & HP).
  { split; [by apply grown_refl|]. split; [by rewrite take_0|].
    by rewrite take_0, drop_0. }
  { intros i acc si [_ Hi'] (Hg & Hcov & ->). cbn in Hi'.
    destruct (lookup_lt_is_Some_2 fs i Hi') as [f Hf].
    pose proof Hall as Hall'. rewrite Forall_lookup in Hall'.
    destruct (Hall' i f Hf) as (Hex & Hty & Hcl & Hrec).
    pose proof Hg as (Hii & _).
    destruct (Hrec si Hii) as (s' & Hr & (Hg' & Hcov')).
    pose proof Hg' as (Hi1 & _ & Hv1 & _).
    assert (Hacc : (map (λ f, (f.1, rename (visited si) f.2)) (take i fs)
                    ++ map zero_field (drop i fs)) !! i = Some (zero_field f)).
    { rewrite lookup_app_r by (rewrite length_map, length_take; lia).
      rewrite length_map, length_take.
      replace (i - i `min` length fs) with 0 by lia.
      by rewrite (drop_S _ _ _ Hf). }
    unfold cloneStruct_field. unfold bind at 1. cbn [Field]. rewrite Hf. cbn [ret].
    unfold bind at 1. rewrite Hacc. cbn [ret zero_field fst snd].
    rewrite Hex. cbn [negb orb CanSet].
    rewrite (bind_ret_eq _ _ _ _ _ Hr). cbn [snd fst IsValid negb].
    assert (Hnext : ∀ y, y = rename (visited s') f.2 →
      P (S i) (VStruct name
                 (<[i := (f.1, y)]>
                    (map (λ f, (f.1, rename (visited si) f.2)) (take i fs)
                     ++ map zero_field (drop i fs)))) s').
    { intros y ->. split; [|split].
      - eapply grown_trans; [done|]. eapply grown_weaken; [done|lia].
      - rewrite (take_S_r _ _ _ Hf). apply Forall_app. split.
        + eapply Forall_impl; [done|]. intros y Hy. by eapply covered_mono.
        + by apply Forall_singleton.
      - f_equal. rewrite (take_S_r _ _ _ Hf), map_app. cbn [map].
        rewrite (drop_S _ _ _ Hf). cbn [map].
        rewrite insert_middle by (rewrite length_map, length_take; lia).
        rewrite <- app_assoc. cbn. f_equal.
        apply map_ext_Forall. eapply Forall_impl; [done|].
        intros y Hy. cbn. f_equal. symmetry. by apply rename_mono. }
    destruct (is_nil f.2) eqn:Hnil.
    - unfold expected. rewrite Hnil. cbn [ret].
      eexists _, s'. split; [done|].
      specialize (Hnext (zero f.1.2)).
      rewrite list_insert_id in Hnext by done.
      apply Hnext. rewrite is_nil_rename_nil by done.
      rewrite <- Hty. by apply nil_is_zero.
    - destruct (expected_non_nil m f.2 (visited s') Hcl (inv_moved _ Hi1) Hnil)
        as (v' & Hv' & Hassign).
      rewrite Hv'. unfold SetField. rewrite Hacc.
      unfold bind at 1. unfold bind at 1. cbn [ValueOf Set_ zero_field fst snd].
      rewrite Hty in Hassign. rewrite Hassign. cbn [ret].
      eexists _, s'. split; [done|]. by apply Hnext. }
  rewrite (bind_ret_eq _ _ _ _ _ Hloop).
  destruct HP as (Hg & Hcov & ->). cbn [Nat.add] in *.
  rewrite firstn_all, drop_all, app_nil_r in *.
  run. match goal with |- ∃ _, (_, ?st) = _ ∧ _ => exists st end.
  split; [done|].
  split; [done|]. by apply covered_struct.
Qed.

Lemma inv_register s a a' o st :
  inv s →
  visited s !! a = None →
  a' ∉ dom (heap s) →
  ref_addr (ref a) = Some a →
  inv (State (<[a' := o]> (heap s))
             (<[a := retarget (ref a) a']> (visited s)) st).
Proof.
  intros Hi Hv Hf Hr.
  pose proof Hi as (Hh & He & Hinj).
  assert (Hf0 : a' ∉ dom h0).
  { intros Hd. apply Hf. apply elem_of_dom in Hd as [x Hx].
    apply elem_of_dom. exists x. by eapply lookup_weaken. }
  split; [|split]; cbn.
  - apply insert_subseteq_r; [|done]. by apply not_elem_of_dom.
  - intros b c Hc. destruct (decide (a = b)) as [<-|Hne].
    + rewrite lookup_insert_eq in Hc. simplify_eq.
      exists a'. repeat split; try done. rewrite dom_insert. set_solver.
    + rewrite lookup_insert_ne in Hc by done.
      destruct (He b c Hc) as (b' & -> & Hrb & Hb0 & Hb).
      exists b'. repeat split; try done. rewrite dom_insert. set_solver.
  - intros a1 a2 c1 c2 H1 H2 Heq.
    destruct (decide (a = a1)) as [<-|Hne1];
      destruct (decide (a = a2)) as [<-|Hne2]; try done.
    + rewrite lookup_insert_eq in H1. rewrite lookup_insert_ne in H2 by done.
      simplify_eq. rewrite (ref_addr_retarget _ _ _ Hr) in Heq.
      symmetry in Heq.
      destruct (inv_entry_dom s a2 c2 a' Hi H2 Heq) as [_ Hd]. done.
    + rewrite lookup_insert_eq in H2. rewrite lookup_insert_ne in H1 by done.
      simplify_eq. rewrite (ref_addr_retarget _ _ _ Hr) in Heq.
      destruct (inv_entry_dom s a1 c1 a' Hi H1 Heq) as [_ Hd]. done.
    + rewrite lookup_insert_ne in H1, H2 by done. by eapply Hinj.
Qed.

(** The end of [cloneSlice] and [cloneMap]: the object at [a'], registered
    for [a] before its contents were cloned, is complete. *)
Lemma grown_filled n s a a' o st s' st' :
  inv s →
  visited s !! a = None →
  a' ∉ dom (heap s) →
  ref_addr (ref a) = Some a →
  ρ a < n →
  grown_but a' (ρ a)
    (State (<[a' := o]> (heap s)) (<[a := retarget (ref a) a']> (visited s)) st) s' →
  complete (heap s') (visited s') a (retarget (ref a) a') →
  grown n s (State (heap s') (visited s') st').
Proof.
  intros Hi Hv Hf Hr Hρ (Hi' & Hh' & Hd' & Hv' & Hn') Hcomp. cbn in *.
  split; [done|]. cbn. split; [|split].
  - apply map_subseteq_spec. intros b x Hb. apply Hh'.
    + intros ->. apply Hf. apply elem_of_dom. eauto.
    + rewrite lookup_insert_ne; [done|].
      intros <-. apply Hf. apply elem_of_dom. eauto.
  - etrans; [|done]. by apply insert_subseteq.
  - intros b c Hc Hnone. destruct (decide (a = b)) as [<-|Hne].
    + assert (c = retarget (ref a) a') as ->.
      { assert (Hc1 : (<[a := retarget (ref a) a']> (visited s)) !! a
                      = Some (retarget (ref a) a')) by apply lookup_insert_eq.
        pose proof (lookup_weaken _ _ _ _ Hc1 Hv'). congruence. }
      split; [done|]. split; [|done].
      intros b' Hb'. rewrite (ref_addr_retarget _ _ _ Hr) in Hb'. by simplify_eq.
    + destruct (Hn' b c Hc) as (Hlt & Hfr & Hcm).
      { by rewrite lookup_insert_ne. }
      split; [lia|]. split; [|done].
      intros b' Hb' Hdb. apply (Hfr b' Hb'). rewrite dom_insert.
      apply elem_of_union. by right.
Qed.

Lemma cloneSlice_spec rec n t a len cap l :
  ref a = VSlice t (Some (a, len, cap)) →
  ρ a < n →
  h0 !! a = Some (OArray l) →
  len ≤ cap →
  len ≤ length l →
  Forall (λ x, typeof x = t ∧ is_nil x = false
               ∧ clonable (ρ a) x ∧ clones rec (ρ a) x) (take len l) →
  ∀ s, inv s →
    ∃ s', cloneSlice rec (Valid (VSlice t (Some (a, len, cap))) false) s
          = (Ret (expected (visited s') (VSlice t (Some (a, len, cap))), None), s')
          ∧ post n (VSlice t (Some (a, len, cap))) s s'.
Proof.
  intros Href Hρ Hh Hcap Hlen Hall s Hi.
  set (src := Valid (VSlice t (Some (a, len, cap))) false).
  unfold cloneSlice.
  rewrite (bind_ret_eq _ _ _ _ _ (eq_refl : IsNil src s = (Ret false, s))).
  rewrite (bind_ret_eq _ _ _ _ _ (eq_refl : Pointer src s = (Ret a, s))).
  rewrite (bind_ret_eq _ _ _ _ _ (eq_refl : get s = (Ret s, s))).
  destruct (visited s !! a) as [c|] eqn:Hv.
  - exists s. split.
    + unfold ret. by erewrite expected_hit.
    + split; [by apply grown_refl|].
      eapply (covered_ref _ _ a); [done|by rewrite Hv].
  - rewrite (bind_ret_eq _ _ _ _ _ (eq_refl : Type_ src s = (Ret (TSlice t), s))).
    rewrite (bind_ret_eq _ _ _ _ _ (eq_refl : Len src s = (Ret len, s))).
    rewrite (bind_ret_eq _ _ _ _ _ (eq_refl : Cap src s = (Ret cap, s))).
    set (a' := fresh_addr (heap s)).
    assert (Hfresh : a' ∉ dom (heap s)) by apply fresh_addr_fresh.
    set (clone := VSlice t (Some (a', len, cap))).
    set (s0 := State (<[a' := OArray (replicate cap (zero t))]> (heap s))
                     (visited s) (stats s)).
    assert (HMake : MakeSlice (TSlice t) len cap s = (Ret clone, s0)).
    { unfold MakeSlice. rewrite decide_True by done. done. }
    rewrite (bind_ret_eq _ _ _ _ _ HMake).
    set (s1 := State (<[a' := OArray (replicate cap (zero t))]> (heap s))
                     (<[a := clone]> (visited s)) (stats s)).
    rewrite (bind_ret_eq _ _ _ _ _ (eq_refl : set_visited a clone s0 = (Ret tt, s1))).
    assert (Hra : ref_addr (ref a) = Some a) by (by rewrite Href).
    assert (Hclone : clone = retarget (ref a) a') by (by rewrite Href).
    assert (Hi1 : inv s1).
    { unfold s1. rewrite Hclone. by apply inv_register. }
    assert (Hd1 : a' ∈ dom (heap s1)).
    { cbn. rewrite dom_insert. set_solver. }
    assert (Hn0 : a' ∉ dom h0).
    { intros Hd. apply Hfresh. apply elem_of_dom in Hd as [x Hx].
      apply elem_of_dom. exists x. destruct Hi as (Hh0 & _). by eapply lookup_weaken. }
    set (P := λ (i : nat) (si : state),
      grown_but a' (ρ a) s1 si
      ∧ heap si !! a' = Some (OArray (map (rename (visited si)) (take i l)
                                      ++ replicate (cap - i) (zero t)))
      ∧ Forall (covered (visited si)) (take i l)).
    destruct (for_range_inv (cloneSlice_elem rec src clone) P len 0 s1)
      as (s2 & Hloop & HP).
    { split; [by apply grown_but_refl|]. split; [|by rewrite take_0].
      cbn. rewrite lookup_insert_eq, Nat.sub_0_r. done. }
    { intros i si [_ Hi'] (Hg & Hcur & Hcov). cbn in Hi'.
      assert (Hil : i < length l) by lia.
      destruct (lookup_lt_is_Some_2 l i Hil) as [x Hx].
      assert (Hxt : take len l !! i = Some x) by (by rewrite lookup_take_lt).
      pose proof Hall as Hall'. rewrite Forall_lookup in Hall'.
      destruct (Hall' i x Hxt) as (Hty & Hnil & Hcl & Hrec).
      pose proof Hg as (Hii & _ & Hdi & _).
      destruct (Hrec si Hii) as (s' & Hr & (Hg' & Hcov')).
      pose proof Hg' as (Hi3 & Hh' & Hv' & _).
      assert (HIndex : Index src i si = (Ret (Valid x false), si)).
      { unfold Index, src. cbn [fst snd]. rewrite decide_True by done.
        unfold bind, get.
        destruct Hii as (Hh0 & _). rewrite (lookup_weaken _ _ _ _ Hh Hh0).
        by rewrite Hx. }
      unfold cloneSlice_elem.
      rewrite (bind_ret_eq _ _ _ _ _ HIndex).
      rewrite (bind_ret_eq _ _ _ _ _ Hr). cbn [snd fst].
      destruct (expected_non_nil (ρ a) x (visited s') Hcl (inv_moved _ Hi3) Hnil)
        as (v' & Hv'' & Hassign).
      rewrite Hv''. rewrite Hty in Hassign.
      set (cur := map (rename (visited si)) (take i l) ++ replicate (cap - i) (zero t)).
      set (s'' := State (<[a' := OArray (<[i := rename (visited s') x]> cur)]> (heap s'))
                        (visited s') (stats s')).
      assert (HSet : SetIndex clone i (ValueOf (Some v')) s' = (Ret tt, s'')).
      { unfold SetIndex, clone. cbn [fst snd]. rewrite decide_True by done.
        unfold bind at 1. unfold get.
        rewrite (lookup_weaken _ _ _ _ Hcur Hh').
        unfold bind. cbn [ValueOf Set_]. rewrite Hassign. done. }
      rewrite (bind_ret_eq _ _ _ _ _ HSet).
      exists s''. split; [done|].
      assert (Hdi' : a' ∈ dom (heap s')).
      { apply elem_of_dom in Hdi as [o Ho]. apply elem_of_dom. exists o.
        by eapply lookup_weaken. }
      split; [|split].
      - eapply grown_but_trans; [done|done|].
        eapply grown_but_trans; [done|by apply grown_grown_but|].
        by apply grown_but_store.
      - cbn. rewrite lookup_insert_eq. do 2 f_equal. unfold cur.
        rewrite (take_S_r _ _ _ Hx), map_app. cbn [map].
        replace (cap - i) with (S (cap - S i)) by lia. cbn [replicate].
        rewrite insert_middle by (rewrite length_map, length_take; lia).
        rewrite <- app_assoc. cbn. f_equal.
        apply map_ext_Forall. eapply Forall_impl; [done|].
        intros y Hy. symmetry. by apply rename_mono.
      - cbn. rewrite (take_S_r _ _ _ Hx). apply Forall_app. split.
        + eapply Forall_impl; [done|]. intros y Hy. by eapply covered_mono.
        + by apply Forall_singleton. }
    rewrite (bind_ret_eq _ _ _ _ _ Hloop).
    destruct HP as (Hg & Hcur & Hcov). cbn [Nat.add] in *.
    pose proof Hg as (Hi2 & _ & _ & Hv2 & _).
    assert (Hva : visited s2 !! a = Some clone).
    { eapply lookup_weaken; [|done]. cbn. by rewrite lookup_insert_eq. }
    run. match goal with |- ∃ _, (_, ?st) = _ ∧ _ => exists st end.
    split.
    + cbn [visited]. by erewrite (expected_hit s2).
    + split.
      * eapply (grown_filled n s a a'); try done.
        -- rewrite <- Hclone. done.
        -- rewrite <- Hclone. unfold complete. rewrite Hh. done.
      * eapply (covered_ref _ _ a); [done|]. cbn. by rewrite Hva.
Qed.

Lemma cloneMap_spec rec n k e a es :
  ref a = VMap k e (Some a) →
  ρ a < n →
  h0 !! a = Some (OMap es) →
  NoDup (map fst es) →
  Forall (λ kv, typeof kv.1 = k ∧ is_nil kv.1 = false ∧ addrs kv.1 = []
                ∧ clonable (ρ a) kv.1 ∧ clones rec (ρ a) kv.1
                ∧ typeof kv.2 = e ∧ is_nil kv.2 = false
                ∧ clonable (ρ a) kv.2 ∧ clones rec (ρ a) kv.2) es →
  ∀ s, inv s →
    ∃ s', cloneMap rec (Valid (VMap k e (Some a)) false) s
          = (Ret (expected (visited s') (VMap k e (Some a)), None), s')
          ∧ post n (VMap k e (Some a)) s s'.
Proof.
  intros Href Hρ Hh Hnd Hall s Hi.
  set (src := Valid (VMap k e (Some a)) false).
  unfold cloneMap.
  rewrite (bind_ret_eq _ _ _ _ _ (eq_refl : IsNil src s = (Ret false, s))).
  rewrite (bind_ret_eq _ _ _ _ _ (eq_refl : Pointer src s = (Ret a, s))).
  rewrite (bind_ret_eq _ _ _ _ _ (eq_refl : get s = (Ret s, s))).
  destruct (visited s !! a) as [c|] eqn:Hv.
  - exists s. split.
    + unfold ret. by erewrite expected_hit.
    + split; [by apply grown_refl|].
      eapply (covered_ref _ _ a); [done|by rewrite Hv].
  - rewrite (bind_ret_eq _ _ _ _ _ (eq_refl : Type_ src s = (Ret (TMap k e), s))).
    assert (HLen : Len src s = (Ret (length es), s)).
    { unfold Len, src, bind, get. destruct Hi as (Hh0 & _).
      by rewrite (lookup_weaken _ _ _ _ Hh Hh0). }
    rewrite (bind_ret_eq _ _ _ _ _ HLen).
    set (a' := fresh_addr (heap s)).
    assert (Hfresh : a' ∉ dom (heap s)) by apply fresh_addr_fresh.
    set (clone := VMap k e (Some a')).
    set (s0 := State (<[a' := OMap []]> (heap s)) (visited s) (stats s)).
    rewrite (bind_ret_eq _ _ _ _ _
               (eq_refl : MakeMapWithSize (TMap k e) (length es) s = (Ret clone, s0))).
    set (s1 := State (<[a' := OMap []]> (heap s))
                     (<[a := clone]> (visited s)) (stats s)).
    rewrite (bind_ret_eq _ _ _ _ _ (eq_refl : set_visited a clone s0 = (Ret tt, s1))).
    assert (Hra : ref_addr (ref a) = Some a) by (by rewrite Href).
    assert (Hclone : clone = retarget (ref a) a') by (by rewrite Href).
    assert (Hi1 : inv s1).
    { unfold s1. rewrite Hclone. by apply inv_register. }
    assert (Hd1 : a' ∈ dom (heap s1)).
    { cbn. rewrite dom_insert. apply elem_of_union. left. by apply elem_of_singleton. }
    assert (Hn0 : a' ∉ dom h0).
    { intros Hd. apply Hfresh. apply elem_of_dom in Hd as [x Hx].
      apply elem_of_dom. exists x. destruct Hi as (Hh0 & _). by eapply lookup_weaken. }
    assert (HKeys : MapKeys src s1 = (Ret (map (λ kv, Valid kv.1 false) es), s1)).
    { unfold MapKeys, src, bind, get. destruct Hi1 as (Hh0 & _).
      by rewrite (lookup_weaken _ _ _ _ Hh Hh0). }
    rewrite (bind_ret_eq _ _ _ _ _ HKeys).
    set (P := λ (i : nat) (si : state),
      grown_but a' (ρ a) s1 si
      ∧ heap si !! a' = Some (OMap (map (λ kv, (kv.1, rename (visited si) kv.2))
                                        (take i es)))
      ∧ Forall (λ kv, covered (visited si) kv.2) (take i es)).
    destruct (for_each_inv (cloneMap_entry rec src clone) P
                (map (λ kv, Valid kv.1 false) es) s1) as (s2 & Hloop & HP).
    { split; [by apply grown_but_refl|]. split; [|by rewrite take_0].
      cbn. by rewrite lookup_insert_eq. }
    { intros i key si Hkey (Hg & Hcur & Hcov).
      rewrite lookup_map in Hkey.
      destruct (es !! i) as [kv|] eqn:Hkv; [|done]. cbn in Hkey.
      injection Hkey as Hkey. subst key.
      pose proof Hall as Hall'. rewrite Forall_lookup in Hall'.
      destruct (Hall' i kv Hkv)
        as (Htk & Hnk & Hak & Hck & Hreck & Hte & Hne & Hce & Hrece).
      pose proof Hg as (Hii & _ & Hdi & _).
      destruct (Hreck si Hii) as (sk & Hrk & (Hgk & Hcovk)).
      pose proof Hgk as (Hik & Hhk & Hvk & _).
      destruct (Hrece sk Hik) as (se & Hre & (Hge & Hcove)).
      pose proof Hge as (Hie & Hhe & Hve & _).
      destruct (expected_non_nil (ρ a) kv.1 (visited sk) Hck (inv_moved _ Hik) Hnk)
        as (vk & Hvk' & Hassignk).
      destruct (expected_non_nil (ρ a) kv.2 (visited se) Hce (inv_moved _ Hie) Hne)
        as (ve & Hve' & Hassigne).
      rewrite Htk, (rename_no_addrs _ _ Hak) in Hassignk. rewrite Hte in Hassigne.
      assert (HIndex : MapIndex src (Valid kv.1 false) sk = (Ret (Valid kv.2 false), sk)).
      { unfold MapIndex, src, bind, get. destruct Hik as (Hh0 & _).
        rewrite (lookup_weaken _ _ _ _ Hh Hh0).
        by rewrite (map_get_lookup _ _ _ Hnd Hkv). }
      unfold cloneMap_entry.
      rewrite (bind_ret_eq _ _ _ _ _ Hrk). cbn [snd fst].
      rewrite (bind_ret_eq _ _ _ _ _ HIndex).
      rewrite (bind_ret_eq _ _ _ _ _ Hre). cbn [snd fst].
      rewrite Hvk', Hve'.
      set (cur := map (λ kv, (kv.1, rename (visited si) kv.2)) (take i es)).
      set (s'' := State (<[a' := OMap (cur ++ [(kv.1, rename (visited se) kv.2)])]> (heap se))
                        (visited se) (stats se)).
      assert (Hcure : heap se !! a' = Some (OMap cur)).
      { eapply lookup_weaken; [|done]. by eapply lookup_weaken. }
      assert (HSet : SetMapIndex clone (ValueOf (Some vk)) (ValueOf (Some ve)) se
                     = (Ret tt, s'')).
      { unfold SetMapIndex, clone. cbn [ValueOf].
        unfold bind at 1. rewrite Hassignk.
        unfold bind at 1. rewrite Hassigne.
        unfold bind at 1. unfold get. rewrite Hcure.
        rewrite map_set_fresh; [done|].
        unfold cur. rewrite map_map. cbn.
        change (kv.1 ∉ map fst (take i es)).
        rewrite <- firstn_map.
        apply NoDup_lookup_not_in_take; [done|].
        by rewrite lookup_map, Hkv. }
      rewrite (bind_ret_eq _ _ _ _ _ HSet).
      exists s''. split; [done|].
      assert (Hdk : a' ∈ dom (heap sk)).
      { apply elem_of_dom in Hdi as [o Ho]. apply elem_of_dom. exists o.
        by eapply lookup_weaken. }
      assert (Hde : a' ∈ dom (heap se)).
      { apply elem_of_dom. eauto. }
      split; [|split].
      - eapply grown_but_trans; [done|done|].
        eapply grown_but_trans; [done|by apply grown_grown_but|].
        eapply grown_but_trans; [done|by apply grown_grown_but|].
        by apply grown_but_store.
      - cbn. rewrite lookup_insert_eq. do 2 f_equal. unfold cur.
        rewrite (take_S_r _ _ _ Hkv), map_app. cbn [map]. f_equal.
        apply map_ext_Forall. eapply Forall_impl; [done|].
        intros y Hy. cbn. f_equal. symmetry.
        apply rename_mono; [by etrans|done].
      - cbn. rewrite (take_S_r _ _ _ Hkv). apply Forall_app. split.
        + eapply Forall_impl; [done|]. intros y Hy.
          eapply (covered_mono (visited si)); [by etrans|done].
        + by apply Forall_singleton. }
    rewrite (bind_ret_eq _ _ _ _ _ Hloop).
    destruct HP as (Hg & Hcur & Hcov). rewrite length_map in Hcur, Hcov.
    rewrite firstn_all in Hcur, Hcov.
    pose proof Hg as (Hi2 & _ & _ & Hv2 & _).
    assert (Hva : visited s2 !! a = Some clone).
    { eapply lookup_weaken; [|done]. cbn. by rewrite lookup_insert_eq. }
    run. match goal with |- ∃ _, (_, ?st) = _ ∧ _ => exists st end.
    split.
    + cbn [visited]. by erewrite (expected_hit s2).
    + split.
      * eapply (grown_filled n s a a'); try done.
        -- rewrite <- Hclone. done.
        -- rewrite <- Hclone. unfold complete. rewrite Hh. done.
      * eapply (covered_ref _ _ a); [done|]. cbn. by rewrite Hva.
Qed.

(** The engine clones every clonable value into its renaming. *)
Lemma deepClone_clonable n :
  ∀ v, clonable n v →
    ∀ fuel, n < fuel → clones (deepClone methods cloners fuel) n v.
Proof.
  induction n as [n IH] using lt_wf_ind.
  intros v Hv fuel Hfuel s Hi.
  destruct fuel as [|f]; [lia|].
  rewrite deepClone_S, dispatch_structural; [|done|by eapply clonable_plain].
  inversion Hv; subst.
  - exists s. split.
    + unfold expected. destruct v; try done.
    + split; [by apply grown_refl|]. apply covered_no_addrs. by destruct v.
  - exists s. split.
    + unfold expected. rewrite H.
      destruct v as [| | |t [p|]|t [h|]| |k e [m|]| |[d|]| |]; done.
    + split; [by apply grown_refl|]. apply covered_no_addrs.
      destruct v as [| | |t [p|]|t [h|]| |k e [m|]| |[d|]| |]; done.
  - apply (clonePtr_spec _ _ _ _ x); try done. apply IH; [done|done|lia].
  - apply (cloneSlice_spec _ _ _ _ _ _ l); try done.
    eapply Forall_impl; [done|]. intros x (Hty & Hnil & Hcl).
    repeat split; try done. apply IH; [done|done|lia].
  - apply (cloneArray_spec _ _ m); try done.
    eapply Forall_impl; [done|]. intros x (Hty & Hnil & Hcl).
    repeat split; try done. apply IH; [done|done|lia].
  - apply (cloneMap_spec _ _ _ _ _ es); try done.
    eapply Forall_impl; [done|].
    intros kv (Htk & Hnk & Hak & Hck & Hte & Hne & Hce).
    repeat split; try done; apply IH; try done; lia.
  - apply (cloneStruct_spec _ _ m); try done.
    eapply Forall_impl; [done|]. intros x (Hex & Hty & Hcl).
    repeat split; try done. apply IH; [done|done|lia].
  - apply (cloneInterface_spec _ _ m); try done. apply IH; [done|done|lia].
Qed.

(** Every entry of the registry [σ] is complete in the heap [H]. *)
Definition image (H : gmap addr object) (σ : gmap addr value) : Prop :=
  moved σ ∧ ∀ a c, σ !! a = Some c → complete H σ a c.

Lemma image_ref H σ v a :
  image H σ → ref a = v → ref_addr v = Some a → covered σ v →
  ∃ a', σ !! a = Some (retarget v a') ∧ rename σ v = retarget v a'
        ∧ complete H σ a (retarget v a').
Proof.
  intros [Hm Hc] Href Hr Hcov.
  destruct (Hcov a) as [c Hσ].
  { destruct v as [| | |t [p|]|t [h|]| |k e [m|]| | | |]; cbn in *; simplify_eq;
      by apply list_elem_of_singleton. }
  destruct (Hm a c Hσ) as (a' & ->). rewrite Href in *.
  exists a'. split; [done|]. split; [|by apply Hc].
  destruct v as [| | |t [p|]|t [h|]| |k e [m|]| | | |]; cbn in *; simplify_eq;
    by rewrite Hσ.
Qed.

(** A clonable value and its renaming are deeply equal, whatever has
    become of the heap outside the source and its clone. *)
Lemma DeepEqual_rename hs hc σ n :
  h0 ⊆ hs → image hc σ →
  ∀ v, clonable n v → covered σ v →
    ∀ fuel, n < fuel → DeepEqual fuel hs hc v (rename σ v) = true.
Proof.
  intros Hsub Him. induction n as [n IH] using lt_wf_ind.
  intros v Hv Hcov fuel Hfuel. destruct fuel as [|f]; [lia|].
  assert (Hty : type_eqb (typeof v) (typeof (rename σ v)) = true).
  { apply type_eqb_eq. symmetry. eapply typeof_rename; [done|]. by destruct Him. }
  cbn [DeepEqual]. rewrite Hty. cbn [andb].
  inversion Hv; subst.
  - rewrite is_scalar_rename by done. destruct v; try done; by apply value_eqb_refl.
  - rewrite is_nil_rename_nil by done.
    destruct v as [| | |t [p|]|t [h|]| |k e [m|]| |[d|]| |]; done.
  - destruct (image_ref hc σ _ a Him H0 eq_refl Hcov) as (a' & Hσ & -> & Hc).
    cbn [retarget]. unfold complete in Hc. rewrite H2 in Hc.
    cbn in Hc. destruct Hc as [Hh Hcx].
    rewrite (lookup_weaken _ _ _ _ H2 Hsub), Hh.
    apply (IH (ρ a)); [lia|done|done|lia].
  - destruct (image_ref hc σ _ a Him H0 eq_refl Hcov) as (a' & Hσ & -> & Hc).
    cbn [retarget fst snd]. unfold complete in Hc. rewrite H2 in Hc.
    cbn [retarget fst snd] in Hc. destruct Hc as [Hh Hcx].
    rewrite (lookup_weaken _ _ _ _ H2 Hsub), Hh.
    rewrite bool_decide_eq_true_2 by done. cbn [andb].
    rewrite take_app_le by (rewrite length_map, length_take; lia).
    rewrite (take_ge (map _ _)) by (rewrite length_map, length_take; lia).
    apply all2_map. rewrite Forall_forall. intros x Hx.
    rewrite Forall_forall in H5, Hcx.
    destruct (H5 x Hx) as (_ & _ & Hclx).
    apply (IH (ρ a)); [lia|done|by apply Hcx|lia].
  - cbn [rename]. apply all2_map. apply covered_array in Hcov.
    rewrite Forall_forall in H1, Hcov |- *. intros x Hx.
    destruct (H1 x Hx) as (_ & _ & Hclx).
    apply (IH m); [lia|done|by apply Hcov|lia].
  - destruct (image_ref hc σ _ a Him H0 eq_refl Hcov) as (a' & Hσ & -> & Hc).
    cbn [retarget]. unfold complete in Hc. rewrite H2 in Hc.
    cbn in Hc. destruct Hc as [Hh Hcx].
    rewrite (lookup_weaken _ _ _ _ H2 Hsub), Hh.
    rewrite length_map, bool_decide_eq_true_2 by done. cbn [andb].
    apply forallb_Forall. rewrite Forall_forall. intros kv Hkv.
    apply list_elem_of_lookup in Hkv as [i Hi].
    rewrite (map_get_map (rename σ) es kv.1 kv.2)
      by (by eapply map_get_lookup).
    rewrite Forall_lookup in H4, Hcx.
    destruct (H4 i kv Hi) as (_ & _ & _ & _ & _ & _ & Hclx).
    apply (IH (ρ a)); [lia|done|by eapply Hcx|lia].
  - cbn [rename]. apply covered_struct in Hcov.
    assert (Hall : Forall (λ x : string * type * value,
              DeepEqual f hs hc x.2 (rename σ x.2) = true) fs).
    { rewrite Forall_forall in H1, Hcov |- *. intros x Hx.
      destruct (H1 x Hx) as (_ & _ & Hclx).
      apply (IH m); [lia|done|by apply Hcov|lia]. }
    clear -Hall. induction Hall as [|x l Hx _ IHl]; [done|].
    cbn. by rewrite Hx, IHl.
  - cbn [rename]. apply (IH m); [lia|done|done|lia].
Qed.

Lemma clonable_down (P Q : Prop) m n r :
  P ∧ Q ∧ clonable m r → m ≤ n → P ∧ Q ∧ clonable n r.
Proof.
  intros (HP & HQ & Hr) Hle. split; [done|]. split; [done|].
  by eapply clonable_weaken.
Qed.

(** The clone holds, at every location of the source, the renaming of what
    the source holds there. *)
Lemma locate_rename hc σ path :
  image hc σ →
  ∀ n v r, clonable n v → covered σ v → locate h0 v path = Some r →
    locate hc (rename σ v) path = Some (rename σ r)
    ∧ covered σ r ∧ clonable n r.
Proof.
  intros Him. induction path as [|st path IH]; intros n v r Hv Hcov Hloc.
  { cbn in *. by simplify_eq. }
  inversion Hv; subst.
  - destruct v; try done; destruct st; done.
  - destruct v as [| | |t [p|]|t [h|]| |k e [m|]| |[d|]| |]; try done;
      destruct st; done.
  - destruct (image_ref hc σ _ a Him H0 eq_refl Hcov) as (a' & Hσ & -> & Hc).
    destruct st; try done. cbn in Hloc |- *. rewrite H2 in Hloc.
    unfold complete in Hc. rewrite H2 in Hc. cbn in Hc. destruct Hc as [-> Hcx].
    eapply clonable_down; [by eapply IH|lia].
  - destruct (image_ref hc σ _ a Him H0 eq_refl Hcov) as (a' & Hσ & -> & Hc).
    destruct st; try done. cbn in Hloc |- *. rewrite H2 in Hloc.
    unfold complete in Hc. rewrite H2 in Hc. cbn in Hc. destruct Hc as [-> Hcx].
    destruct (decide (i < len)) as [Hi|]; [|done].
    destruct (l !! i) as [x|] eqn:Hx; [|done].
    assert (Hx' : take len l !! i = Some x) by (by rewrite lookup_take_lt).
    rewrite lookup_app_l by (rewrite length_map, length_take; lia).
    rewrite map_fmap, list_lookup_fmap, Hx'. cbn.
    rewrite Forall_lookup in H5, Hcx.
    destruct (H5 i x Hx') as (_ & _ & Hclx).
    eapply clonable_down; [eapply IH; [done|by eapply Hcx|done]|lia].
  - destruct st; try done. cbn in Hloc |- *.
    destruct (l !! i) as [x|] eqn:Hx; [|done].
    rewrite map_fmap, list_lookup_fmap, Hx. cbn.
    apply covered_array in Hcov. rewrite Forall_lookup in H1, Hcov.
    destruct (H1 i x Hx) as (_ & _ & Hclx).
    eapply clonable_down; [eapply IH; [done|by eapply Hcov|done]|lia].
  - destruct (image_ref hc σ _ a Him H0 eq_refl Hcov) as (a' & Hσ & -> & Hc).
    destruct st; try done. cbn in Hloc |- *. rewrite H2 in Hloc.
    unfold complete in Hc. rewrite H2 in Hc. cbn in Hc. destruct Hc as [-> Hcx].
    destruct (map_get k0 es) as [x|] eqn:Hx; [|done].
    rewrite (map_get_map (rename σ) es k0 x Hx).
    assert (∃ j kv, es !! j = Some kv ∧ kv.2 = x) as (j & kv & Hj & <-).
    { clear -Hx. induction es as [|e es IHes]; [done|]. cbn in Hx.
      destruct (value_eqb e.1 k0).
      - exists 0, e. by simplify_eq.
      - destruct (IHes Hx) as (j & kv & Hj & Hkv). by exists (S j), kv. }
    rewrite Forall_lookup in H4, Hcx.
    destruct (H4 j kv Hj) as (_ & _ & _ & _ & _ & _ & Hclx).
    eapply clonable_down; [eapply IH; [done|by eapply Hcx|done]|lia].
  - destruct st; try done. cbn in Hloc |- *.
    destruct (fs !! i) as [f|] eqn:Hf; [|done].
    rewrite map_fmap, list_lookup_fmap, Hf. cbn.
    apply covered_struct in Hcov. rewrite Forall_lookup in H1, Hcov.
    destruct (H1 i f Hf) as (_ & _ & Hclx).
    eapply clonable_down; [eapply IH; [done|by eapply Hcov|done]|lia].
  - destruct st; try done. cbn in Hloc |- *.
    eapply clonable_down; [by eapply IH|lia].
Qed.

Lemma inv_New : inv (NewCloneManager h0).
Proof.
  split; [done|]. split.
  - intros a c Hc. cbn in Hc. by rewrite lookup_empty in Hc.
  - intros a1 a2 c1 c2 Hc. cbn in Hc. by rewrite lookup_empty in Hc.
Qed.

Lemma image_agree hc H σ :
  image H σ →
  (∀ a c a', σ !! a = Some c → ref_addr c = Some a' → hc !! a' = H !! a') →
  image hc σ.
Proof.
  intros [Hm Hc] Hag. split; [done|]. intros a c Hσ.
  eapply complete_mono; [by apply Hc|done|]. intros a' Ha'. by eapply Hag.
Qed.

(** How a clone of a clonable graph by a new manager ends: with the
    renaming of the source by the registry, whose entries are complete
    and refer to storage that the source heap does not have. *)
Lemma Clone_clonable n v :
  clonable n v → is_nil v = false → kind_of v ≠ reflect.Interface →
  ∃ s', Clone methods cloners (S n) (Some v) (NewCloneManager h0)
          = (Ret (Some (rename (visited s') v), None), s')
        ∧ inv s' ∧ covered (visited s') v
        ∧ image (heap s') (visited s')
        ∧ (∀ a c a', visited s' !! a = Some c → ref_addr c = Some a' →
             a' ∉ dom h0).
Proof.
  intros Hv Hnil Hk.
  destruct (deepClone_clonable n v Hv (S n) (Nat.lt_succ_diag_r n)
              (NewCloneManager h0) inv_New) as (s' & Hrun & (Hi & _ & _ & Hnew) & Hcov).
  exists s'. split; [|split; [done|split; [done|split]]].
  - unfold Clone. cbn [ValueOf]. rewrite Hrun. unfold expected. rewrite Hnil.
    rewrite to_iface_concrete; [done|].
    erewrite kind_of_rename; [done|done|by apply inv_moved].
  - split; [by apply inv_moved|]. intros a c Hc.
    by apply (Hnew a c Hc (lookup_empty a)).
  - intros a c a' Hc Hr. by destruct (inv_entry_dom s' a c a' Hi Hc Hr).
Qed.

(** *** Equality, independence and aliasing *)

Lemma clonable_ref m r a : clonable m r → ref_addr r = Some a → ref a = r.
Proof.
  intros Hr Ha. inversion Hr; subst; try done; cbn in Ha; simplify_eq; try done.
  - by destruct r.
  - by destruct r as [| | |t [p|]|t [h|]| |k e [m'|]| |[d|]| |].
Qed.

Lemma covered_ref_addr σ r a : covered σ r → ref_addr r = Some a → is_Some (σ !! a).
Proof.
  intros Hcov Ha. apply Hcov.
  destruct r as [| | |t [p|]|t [h|]| |k e [m'|]| | | |]; cbn in *; simplify_eq;
    by apply list_elem_of_singleton.
Qed.



End graph_facts.

(** *** A record with a field that cannot be set *)

(** [type Account struct { Owner string; balance int }]. *)
Definition Account : value :=
  VStruct "Account"
    [("Owner", TString, VString "ann"); ("balance", TInt, VInt 100)].


(** [type Pair struct { first *int; Second *int }], both fields the same
    pointer. *)
Definition Pair : value :=
  VStruct "Pair" [("first", TPtr TInt, VPtr TInt (Some 1%N));
                  ("Second", TPtr TInt, VPtr TInt (Some 1%N))].

Definition pair_heap : gmap addr object := {[ 1%N := OCell (VInt 7) ]}.


(** *** The slice of pointers [[r(300), r(400), r(300)]] *)

Definition refs_heap : gmap addr object :=
  {[ 1%N := OCell (VInt 300); 2%N := OCell (VInt 400);
     3%N := OArray [VPtr TInt (Some 1%N); VPtr TInt (Some 2%N);
                    VPtr TInt (Some 1%N)] ]}.

Definition refs : value := VSlice (TPtr TInt) (Some (3%N, 3, 3)).

Definition refs_rank (a : addr) : nat := if (a =? 3)%N then 1 else 0.

Definition refs_ref (a : addr) : value :=
  if (a =? 3)%N then refs else VPtr TInt (Some a).

Ltac by_eval := vm_compute; first [reflexivity | lia | done].

Ltac for_all tac :=
  repeat first [apply List.Forall_nil | apply List.Forall_cons; [tac|]].

Ltac clonable_int_ptr :=
  split; [reflexivity|]; split; [reflexivity|];
  eapply clonable_ptr;
    [reflexivity|reflexivity|by_eval|by_eval|reflexivity|reflexivity|];
  apply clonable_scalar; reflexivity.


(** *** A box of items and tags *)

Definition Box_t : type :=
  TStruct "Box" [("Items", TSlice TInt); ("Tags", TMap TString TInt)].

Definition box_items : value := VSlice TInt (Some (1%N, 2, 2)).
Definition box_tags : value := VMap TString TInt (Some 2%N).

Definition box_struct : value :=
  VStruct "Box" [("Items", TSlice TInt, box_items);
                 ("Tags", TMap TString TInt, box_tags)].

Definition box : value := VPtr Box_t (Some 3%N).

Definition box_heap : gmap addr object :=
  {[ 1%N := OArray [VInt 1; VInt 2];
     2%N := OMap [(VString "k", VInt 5)];
     3%N := OCell box_struct ]}.

Definition box_rank (a : addr) : nat := if (a =? 3)%N then 2 else 0.

Definition box_ref (a : addr) : value :=
  if (a =? 1)%N then box_items else if (a =? 2)%N then box_tags else box.


(** * More of the package *)

(** ** [RegisterCloner]: the registry is a map from types *)

(** An extension that uses the manager it is handed only by calling its
    [Clone]: it cannot tell two managers whose [Clone] behave alike. *)
Definition extensional {X} (ext : CloneFn → X → M cloned) : Prop :=
  ∀ f g : CloneFn, (∀ i s, f i s = g i s) → ∀ x s, ext f x s = ext g x s.

Lemma cloners_lookup_RegisterCloner t c cs t' :
  cloners_lookup (RegisterCloner t c cs) t'
  = if type_eqb t t' then Some c else cloners_lookup cs t'.
Proof.
  unfold cloners_lookup, RegisterCloner. cbn [find fst].
  by destruct (type_eqb t t').
Qed.

Lemma bind_ext {A B} (m : M A) (k k' : A → M B) s :
  (∀ a s1, k a s1 = k' a s1) → bind m k s = bind m k' s.
Proof. intros H. unfold bind. destruct (m s) as [[a|msg|] s1]; auto. Qed.

Lemma bind_ext2 {A B} (m m' : M A) (k k' : A → M B) s :
  m s = m' s → (∀ a s1, k a s1 = k' a s1) → bind m k s = bind m' k' s.
Proof. intros Hm H. unfold bind. rewrite Hm. destruct (m' s) as [[a|msg|] s1]; auto. Qed.

Lemma for_range_ext {R} (body body' : nat → M (option R)) n :
  (∀ i s, body i s = body' i s) →
  ∀ from s, for_range body from n s = for_range body' from n s.
Proof.
  intros Hb. induction n as [|n IH]; intros from s; [done|]. cbn.
  apply bind_ext2; [apply Hb|]. intros [r|] s1; [done|apply IH].
Qed.

Lemma for_acc_ext {A R} (body body' : nat → A → M (R + A)) n :
  (∀ i acc s, body i acc s = body' i acc s) →
  ∀ from acc s, for_acc body from n acc s = for_acc body' from n acc s.
Proof.
  intros Hb. induction n as [|n IH]; intros from acc s; [done|]. cbn.
  apply bind_ext2; [apply Hb|]. intros [r|acc'] s1; [done|apply IH].
Qed.

Lemma for_each_ext {X R} (body body' : X → M (option R)) xs :
  (∀ x s, body x s = body' x s) →
  ∀ s, for_each body xs s = for_each body' xs s.
Proof.
  intros Hb. induction xs as [|x xs IH]; intros s; [done|]. cbn.
  apply bind_ext2; [apply Hb|]. intros [r|] s1; [done|apply IH].
Qed.

(** One step of a proof that two runs agree: the same operation is
    followed by continuations that agree, or [Hrec] makes the two calls
    agree. *)
Ltac ext_step Hrec :=
  lazymatch goal with
  | |- bind ?m _ ?s = bind ?m _ ?s => apply bind_ext; intros ? ?
  | |- bind _ _ _ = bind _ _ _ => apply bind_ext2; [try apply Hrec|intros ? ?]
  | |- (if ?b then _ else _) _ = _ => destruct b
  | |- (match ?x with _ => _ end) _ = _ => destruct x
  | |- _ => reflexivity
  end.

Section by_lookup.

Variable methods : type → option Cloneable.

Lemma structural_ext (rec rec' : Value → M cloned) :
  (∀ x s, rec x s = rec' x s) →
  ∀ src s, structural rec src s = structural rec' src s.
Proof.
  intros Hrec src s. unfold structural.
  destruct (Kind_ src) as [[]|]; try reflexivity.
  - unfold clonePtr. repeat ext_step Hrec.
  - unfold cloneSlice. repeat ext_step Hrec.
    apply for_range_ext. intros i s'. unfold cloneSlice_elem. repeat ext_step Hrec.
  - unfold cloneArray. repeat ext_step Hrec.
    apply for_acc_ext. intros i acc s'. unfold cloneArray_elem. repeat ext_step Hrec.
  - unfold cloneMap. repeat ext_step Hrec.
    apply for_each_ext. intros key s'. unfold cloneMap_entry. repeat ext_step Hrec.
  - unfold cloneStruct. repeat ext_step Hrec.
    apply for_acc_ext. intros i acc s'. unfold cloneStruct_field. repeat ext_step Hrec.
  - unfold cloneInterface. repeat ext_step Hrec.
Qed.

(** Two registries that answer every lookup alike clone alike. *)
Lemma deepClone_by_lookup cs cs' :
  (∀ t m, methods t = Some m → extensional m) →
  (∀ t c, cloners_lookup cs t = Some c → extensional c) →
  (∀ t, cloners_lookup cs t = cloners_lookup cs' t) →
  ∀ fuel src s, deepClone methods cs fuel src s = deepClone methods cs' fuel src s.
Proof.
  intros Hm Hc Hl. induction fuel as [|fuel IH]; intros src s; [done|].
  rewrite 2 deepClone_S. unfold dispatch.
  destruct src as [|x ro]; [done|]. cbn [IsValid negb CanInterface Interface_ Type_].
  set (C := λ i, deepClone methods cs fuel (ValueOf i)).
  set (C' := λ i, deepClone methods cs' fuel (ValueOf i)).
  assert (HC : ∀ i s, C i s = C' i s) by (intros i s0; apply IH).
  assert (Hrest : ∀ s0,
            (t <- ret (typeof x) ;;
             match cloners_lookup cs t with
             | Some cloner => i <- Interface_ (Valid x ro) ;; cloner C i
             | None => structural (deepClone methods cs fuel) (Valid x ro)
             end) s0
            = (t <- ret (typeof x) ;;
               match cloners_lookup cs' t with
               | Some cloner => i <- Interface_ (Valid x ro) ;; cloner C' i
               | None => structural (deepClone methods cs' fuel) (Valid x ro)
               end) s0).
  { intros s0. unfold bind at 1 3. cbn [ret]. rewrite <- Hl.
    destruct (cloners_lookup cs (typeof x)) as [c|] eqn:Hcx.
    - apply bind_ext. intros i s1. by apply (Hc _ _ Hcx).
    - by apply structural_ext. }
  destruct ro.
  - unfold bind at 1 5. cbn [ret negb]. unfold bind at 1 4. cbn [ret]. apply Hrest.
  - unfold bind at 1 6. cbn [ret negb].
    unfold bind at 1 6. unfold bind at 1 6. cbn [ret].
    destruct (as_Cloneable methods (to_iface x)) as [[m y]|] eqn:Hcl.
    + assert (Hmy : methods (typeof y) = Some m).
      { unfold as_Cloneable in Hcl. destruct (to_iface x) as [z|]; [|done].
        destruct (methods (typeof z)) eqn:E; by simplify_eq/=. }
      by apply (Hm _ _ Hmy).
    + apply Hrest.
Qed.

End by_lookup.

Lemma cloners_lookup_In cs t c :
  cloners_lookup cs t = Some c → ∃ t', (t', c) ∈ cs.
Proof.
  unfold cloners_lookup. induction cs as [|e cs IH]; [done|]. cbn [find].
  destruct (type_eqb e.1 t).
  - cbn. intros [= <-]. exists e.1. destruct e. apply list_elem_of_here.
  - intros H. destruct (IH H) as [t' Ht']. exists t'. by apply list_elem_of_further.
Qed.

(** X1.  [cm.cloners[t] = cloner] assigns into a map: a registration
    replaces an earlier one for the same type, and registrations for
    different types can be made in either order; the manager clones every
    input alike.  Extensions are taken to use the manager they are handed
    only by calling its [Clone]. *)
Theorem RegisterCloner_replaces_and_commutes methods cs t c :
  (∀ t m, methods t = Some m → extensional m) →
  Forall (λ e : type * Cloner, extensional e.2) cs →
  extensional c →
  (∀ c0 fuel src s,
     deepClone methods (RegisterCloner t c (RegisterCloner t c0 cs)) fuel src s
     = deepClone methods (RegisterCloner t c cs) fuel src s)
  ∧ (∀ t' c' fuel src s,
       t ≠ t' → extensional c' →
       deepClone methods (RegisterCloner t c (RegisterCloner t' c' cs)) fuel src s
       = deepClone methods (RegisterCloner t' c' (RegisterCloner t c cs)) fuel src s).
Proof.
  intros Hm Hcs Hc.
  assert (Hin : ∀ t0 c0, cloners_lookup cs t0 = Some c0 → extensional c0).
  { intros t0 c0 H0. destruct (cloners_lookup_In _ _ _ H0) as [t' Ht'].
    rewrite Forall_forall in Hcs. apply (Hcs _ Ht'). }
  split.
  - intros c0 fuel src s. symmetry. apply deepClone_by_lookup; [done| |].
    + intros t0 c1. rewrite cloners_lookup_RegisterCloner.
      destruct (type_eqb t t0); [by intros [= <-]|apply Hin].
    + intros t0. rewrite 3 cloners_lookup_RegisterCloner.
      by destruct (type_eqb t t0).
  - intros t' c' fuel src s Hne Hc'. apply deepClone_by_lookup; [done| |].
    + intros t0 c1. rewrite 2 cloners_lookup_RegisterCloner.
      destruct (type_eqb t t0); [by intros [= <-]|].
      destruct (type_eqb t' t0); [by intros [= <-]|apply Hin].
    + intros t0. rewrite 4 cloners_lookup_RegisterCloner.
      destruct (type_eqb t t0) eqn:E1; destruct (type_eqb t' t0) eqn:E2; try done.
      apply type_eqb_eq in E1, E2. congruence.
Qed.

Lemma extensional_refusing : extensional refusing.
Proof. by intros f g H x s. Qed.

Lemma extensional_constant n : extensional (constant n).
Proof. by intros f g H x s. Qed.

(** A cloner registered for [*int] after another one for [*int] is the one
    that answers. *)
Lemma RegisterCloner_replaces_and_commutes_witness :
  deepClone no_methods
    (RegisterCloner (TPtr TInt) (constant 1)
       (RegisterCloner (TPtr TInt) refusing []))
    1 (Valid (VPtr TInt None) false) (NewCloneManager ∅)
  = (Ret (Some (VInt 1), None), NewCloneManager ∅).
Proof.
  etrans.
  - apply (proj1 (RegisterCloner_replaces_and_commutes no_methods []
                    (TPtr TInt) (constant 1)
                    ltac:(intros t m H; discriminate H)
                    (List.Forall_nil _)
                    (extensional_constant 1))).
  - vm_compute. reflexivity.
Defined.

(** ** The visited registry is keyed by the address alone *)

(** X2.  [cm.visited] is a map from [uintptr]: when the address of a
    non-nil pointer, slice or map has an entry, [deepClone] returns that
    entry as it is -- whatever the type of the input, the length and
    capacity of a slice, and the memory the address now holds -- and
    changes nothing: no allocation, no tally. *)
Theorem registry_hit_by_address methods cloners fuel x ro a c s :
  delegated methods cloners (Valid x ro) = false →
  ref_addr x = Some a →
  visited s !! a = Some c →
  deepClone methods cloners (S fuel) (Valid x ro) s = (Ret (Some c, None), s).
Proof.
  intros Hd Ha Hc. rewrite deepClone_S, dispatch_structural by done.
  destruct x as [| | |t [p|]|t [[[b len] cap]|]| |k e [m|]| | | |];
    cbn in Ha; simplify_eq;
    cbn [structural Kind_ kind_of kind_of_type typeof].
  - unfold clonePtr. run. by rewrite Hc.
  - unfold cloneSlice. run. by rewrite Hc.
  - unfold cloneMap. run. by rewrite Hc.
Qed.

(** A slice of one [int] cut from the array of which the registry holds
    the clone as a slice of three: the clone of three comes back. *)
Lemma registry_hit_by_address_witness :
  let c := VSlice TInt (Some (2%N, 3, 3)) in
  let s := State {[ 1%N := OArray [VInt 1; VInt 2; VInt 3];
                    2%N := OArray [VInt 1; VInt 2; VInt 3] ]}
                 {[ 1%N := c ]} ∅ in
  deepClone no_methods [] 1 (Valid (VSlice TInt (Some (1%N, 1, 3))) false) s
  = (Ret (Some c, None), s).
Proof.
  intros c s.
  apply (registry_hit_by_address no_methods [] 0 _ false 1%N c s);
    reflexivity.
Defined.

(** ** Where errors come from *)

(** Whenever [m] returns, what it returns satisfies [Q]. *)
Definition yields {A} (Q : A → Prop) (m : M A) : Prop :=
  ∀ s a s', m s = (Ret a, s') → Q a.

Lemma yields_ret {A} (Q : A → Prop) a : Q a → yields Q (ret a).
Proof. intros HQ s b s' [= <- <-]. done. Qed.

Lemma yields_any {A} (m : M A) : yields (λ _, True) m.
Proof. done. Qed.

Lemma yields_panic {A} (Q : A → Prop) msg : yields Q (panic msg).
Proof. done. Qed.

Lemma yields_bind {A B} (R : A → Prop) (Q : B → Prop) (m : M A) (k : A → M B) :
  yields R m → (∀ a, R a → yields Q (k a)) → yields Q (bind m k).
Proof.
  intros Hm Hk s b s'. unfold bind.
  destruct (m s) as [[a|msg|] s1] eqn:E; try done.
  apply Hk. by eapply Hm.
Qed.

Lemma yields_Field_valid v i : yields (λ x, IsValid x = true) (Field v i).
Proof.
  intros s x s'. unfold Field.
  repeat (case_match; try done); by intros [= <- <-].
Qed.

Lemma yields_for_range {R} (Q : option R → Prop) (body : nat → M (option R)) n :
  Q None → (∀ i, yields Q (body i)) → ∀ from, yields Q (for_range body from n).
Proof.
  intros HQ Hb. induction n as [|n IH]; intros from; cbn.
  - by apply yields_ret.
  - eapply yields_bind; [apply Hb|]. intros [r|] Hr; [by apply yields_ret|apply IH].
Qed.

Lemma yields_for_acc {A R} (Q : R + A → Prop) (body : nat → A → M (R + A)) n :
  (∀ acc, Q (inr acc)) → (∀ i acc, yields Q (body i acc)) →
  ∀ from acc, yields Q (for_acc body from n acc).
Proof.
  intros HQ Hb. induction n as [|n IH]; intros from acc; cbn.
  - by apply yields_ret.
  - eapply yields_bind; [apply Hb|]. intros [r|acc'] Hr; [by apply yields_ret|apply IH].
Qed.

Lemma yields_for_each {X R} (Q : option R → Prop) (body : X → M (option R)) xs :
  Q None → (∀ x, yields Q (body x)) → yields Q (for_each body xs).
Proof.
  intros HQ Hb. induction xs as [|x xs IH]; cbn.
  - by apply yields_ret.
  - eapply yields_bind; [apply Hb|]. intros [r|] Hr; [by apply yields_ret|apply IH].
Qed.

Section errors.

Variable methods : type → option Cloneable.
Variable cloners : list (type * Cloner).

(** The errors a call may return. *)
Variable P : error → Prop.

(** If [r] carries an error, the error is one of [P]. *)
Definition error_in (r : cloned) : Prop := ∀ e, r.2 = Some e → P e.

Definition early_in (r : option cloned) : Prop := ∀ c, r = Some c → error_in c.

Definition early_acc_in (r : cloned + value) : Prop := ∀ c, r = inl c → error_in c.

(** An extension whose errors are in [P] when those of the [Clone] it
    calls are. *)
Definition errors_through_Clone {X} (ext : CloneFn → X → M cloned) : Prop :=
  ∀ Clone_ x, (∀ i, yields error_in (Clone_ i)) → yields error_in (ext Clone_ x).

Hypothesis P_chan : P "channels cannot be cloned".
Hypothesis P_func : ∀ a, P ("functions cannot be cloned: " +:+ a).
Hypothesis methods_errors : ∀ t m, methods t = Some m → errors_through_Clone m.
Hypothesis cloners_errors :
  ∀ t c, cloners_lookup cloners t = Some c → errors_through_Clone c.

Lemma error_in_ok v : error_in (v, None).
Proof. by intros e. Qed.

Lemma error_in_passed r err : error_in r → r.2 = Some err → ∀ v, error_in (v, Some err).
Proof. intros Hr He v e [= <-]. by apply Hr. Qed.

Section errors_composite.

Variable rec : Value → M cloned.
Hypothesis rec_errors : ∀ x, yields error_in (rec x).

Ltac yields_step :=
  lazymatch goal with
  | |- yields error_in (ret (_, None)) => apply yields_ret, error_in_ok
  | |- yields error_in (ret (_, Some _)) =>
      apply yields_ret; eapply error_in_passed; eassumption
  | |- yields early_in (ret None) => by apply yields_ret
  | |- yields early_in (ret (Some (_, Some _))) =>
      apply yields_ret; intros ? [= <-]; eapply error_in_passed; eassumption
  | |- yields early_acc_in (ret (inr _)) => by apply yields_ret
  | |- yields early_acc_in (ret (inl (_, Some _))) =>
      apply yields_ret; intros ? [= <-]; eapply error_in_passed; eassumption
  | |- yields error_in (ret ?c) =>
      apply yields_ret;
      match goal with
      | H : early_in (Some c) |- _ => by apply H
      | H : early_acc_in (inl c) |- _ => by apply H
      end
  | |- yields _ (bind (for_range _ _ _) _) =>
      eapply yields_bind;
        [apply (yields_for_range early_in); [done|intros ?]|intros ? ?]
  | |- yields _ (bind (for_acc _ _ _ _) _) =>
      eapply yields_bind;
        [apply (yields_for_acc early_acc_in); [done|intros ? ?]|intros ? ?]
  | |- yields _ (bind (for_each _ _) _) =>
      eapply yields_bind;
        [apply (yields_for_each early_in); [done|intros ?]|intros ? ?]
  | |- yields _ (cloneSlice_elem _ _ _ _) => unfold cloneSlice_elem
  | |- yields _ (cloneArray_elem _ _ _ _) => unfold cloneArray_elem
  | |- yields _ (cloneMap_entry _ _ _ _) => unfold cloneMap_entry
  | |- yields _ (cloneStruct_field _ _ _ _) => unfold cloneStruct_field
  | |- yields _ (bind (rec _) _) =>
      eapply yields_bind; [apply rec_errors|intros ? ?]
  | |- yields _ (bind (Field _ _) _) =>
      eapply yields_bind; [apply yields_Field_valid|intros ? ?]
  | |- yields _ (bind _ _) =>
      eapply yields_bind; [apply yields_any|intros ? _]
  | |- yields _ (match ?x with _ => _ end) => destruct x eqn:?
  | |- yields _ (if ?b then _ else _) => destruct b eqn:?
  end.

Lemma errors_clonePtr src : yields error_in (clonePtr rec src).
Proof. unfold clonePtr. repeat yields_step. Qed.

Lemma errors_cloneSlice src : yields error_in (cloneSlice rec src).
Proof. unfold cloneSlice. repeat yields_step. Qed.

Lemma errors_cloneArray src : yields error_in (cloneArray rec src).
Proof. unfold cloneArray. repeat yields_step. Qed.

Lemma errors_cloneMap src : yields error_in (cloneMap rec src).
Proof. unfold cloneMap. repeat yields_step. Qed.

Lemma errors_cloneStruct src : yields error_in (cloneStruct rec src).
Proof.
  unfold cloneStruct. repeat yields_step.
  (* the field of the clone under construction is valid: the error of the
     loop's own cannot arise *)
  cbv beta in *.
  match goal with
  | H : IsValid ?v = true, H' : negb (IsValid ?v) = true |- _ =>
      rewrite H in H'; discriminate H'
  end.
Qed.

Lemma errors_cloneInterface src : yields error_in (cloneInterface rec src).
Proof. unfold cloneInterface. repeat yields_step. Qed.

Lemma errors_structural src : yields error_in (structural rec src).
Proof.
  unfold structural.
  destruct (Kind_ src) as [[]|];
    auto using errors_clonePtr, errors_cloneSlice, errors_cloneArray,
      errors_cloneMap, errors_cloneStruct, errors_cloneInterface;
    try (by repeat yields_step).
  - apply yields_ret. intros e [= <-]. apply P_chan.
  - apply yields_ret. intros e [= <-]. apply P_func.
Qed.

End errors_composite.

Lemma errors_deepClone fuel : ∀ src, yields error_in (deepClone methods cloners fuel src).
Proof.
  induction fuel as [|fuel IH]; intros src; [done|].
  rewrite deepClone_S. unfold dispatch.
  destruct src as [|x ro]; [apply yields_ret, error_in_ok|].
  cbn [IsValid negb].
  eapply yields_bind; [apply yields_any|intros ci _].
  eapply (yields_bind (λ cl, ∀ m y, cl = Some (m, y) → methods (typeof y) = Some m)).
  { destruct ci.
    - eapply yields_bind; [apply yields_any|intros i _].
      apply yields_ret. intros m y Hcl. unfold as_Cloneable in Hcl.
      destruct i as [z|]; [|done].
      destruct (methods (typeof z)) eqn:E; by simplify_eq/=.
    - by apply yields_ret. }
  intros [[m y]|] Hcl.
  - eapply methods_errors; [by apply Hcl|]. intros i. apply IH.
  - eapply yields_bind; [apply yields_any|intros t _].
    destruct (cloners_lookup cloners t) as [c|] eqn:Hc.
    + eapply yields_bind; [apply yields_any|intros i _].
      eapply cloners_errors; [done|]. intros j. apply IH.
    + by apply errors_structural.
Qed.

End errors.

(** The two errors [deepClone] makes itself. *)
Definition channel_or_function_error (e : error) : Prop :=
  e = "channels cannot be cloned"
  ∨ ∃ a, e = "functions cannot be cloned: " +:+ a.

(** X3.  The composite cloners make no error of their own (the error
    [cannot set invalid field] of [cloneStruct] cannot arise): an error
    that [deepClone] returns is the channel error, the function error, or
    an error of a [Clone] method or registered cloner.  With no extension,
    every error is one of the first two. *)
Theorem errors_are_made_by_channels_functions_and_extensions :
  (∀ methods cloners (P : error → Prop),
     (∀ e, channel_or_function_error e → P e) →
     (∀ t m, methods t = Some m → errors_through_Clone P m) →
     (∀ t c, cloners_lookup cloners t = Some c → errors_through_Clone P c) →
     ∀ fuel src s r e s',
       deepClone methods cloners fuel src s = (Ret (r, Some e), s') → P e)
  ∧ (∀ fuel src s r e s',
       deepClone no_methods [] fuel src s = (Ret (r, Some e), s') →
       channel_or_function_error e).
Proof.
  assert (Hgen : ∀ methods cloners (P : error → Prop),
     (∀ e, channel_or_function_error e → P e) →
     (∀ t m, methods t = Some m → errors_through_Clone P m) →
     (∀ t c, cloners_lookup cloners t = Some c → errors_through_Clone P c) →
     ∀ fuel src s r e s',
       deepClone methods cloners fuel src s = (Ret (r, Some e), s') → P e).
  { intros methods cloners P HP Hm Hc fuel src s r e s' Hrun.
    eapply (errors_deepClone methods cloners P); [| |done|done|exact Hrun|done].
    - apply HP. by left.
    - intros a. apply HP. right. by exists a. }
  split; [exact Hgen|].
  intros fuel src s r e s' Hrun.
  by eapply (Hgen no_methods [] channel_or_function_error); [done| | |exact Hrun].
Qed.

(** The error of cloning a struct with a channel in it is the channel
    error. *)
Lemma errors_are_made_by_channels_functions_and_extensions_witness :
  deepClone no_methods [] 3 (Valid (VPtr Conn (Some 1%N)) false)
    (NewCloneManager conn_heap)
  = (Ret (None, Some "channels cannot be cloned"), NewCloneManager conn_heap)
  ∧ channel_or_function_error "channels cannot be cloned".
Proof.
  split; [vm_compute; reflexivity|].
  apply (proj2 errors_are_made_by_channels_functions_and_extensions
           3 (Valid (VPtr Conn (Some 1%N)) false) (NewCloneManager conn_heap)
           None _ (NewCloneManager conn_heap)).
  vm_compute. reflexivity.
Defined.

(** ** What a call leaves alone *)

(** [m] keeps every object of the heap [h0] as it is, and what it returns
    satisfies [Q]. *)
Definition frames (h0 : gmap addr object) {A} (Q : A → Prop) (m : M A) : Prop :=
  ∀ s, h0 ⊆ heap s → h0 ⊆ heap (m s).2 ∧ ∀ a, (m s).1 = Ret a → Q a.

(** [m] does not write to the heap. *)
Definition heap_pure {A} (m : M A) : Prop := ∀ s, heap (m s).2 = heap s.

(** A reference to an object that [h0] does not have. *)
Definition off (h0 : gmap addr object) (v : value) : Prop :=
  ∀ a, ref_addr v = Some a → h0 !! a = None.

(** An extension that writes to the heap only what the [Clone] it calls
    writes, or into objects it allocates. *)
Definition heap_through_Clone {X} (ext : CloneFn → X → M cloned) : Prop :=
  ∀ h0 Clone_ x,
    (∀ i, frames h0 (λ _, True) (Clone_ i)) → frames h0 (λ _, True) (ext Clone_ x).

Lemma frames_ret h0 {A} (Q : A → Prop) a : Q a → frames h0 Q (ret a).
Proof. intros HQ s Hs. split; [done|]. by intros b [= <-]. Qed.

Lemma frames_pure h0 {A} (m : M A) : heap_pure m → frames h0 (λ _, True) m.
Proof. intros Hp s Hs. by rewrite Hp. Qed.

Lemma frames_True h0 {A} (Q : A → Prop) (m : M A) :
  frames h0 Q m → frames h0 (λ _, True) m.
Proof. intros Hm s Hs. by destruct (Hm s Hs). Qed.

Lemma frames_bind h0 {A B} (R : A → Prop) (Q : B → Prop) (m : M A) (k : A → M B) :
  frames h0 R m → (∀ a, R a → frames h0 Q (k a)) → frames h0 Q (bind m k).
Proof.
  intros Hm Hk s Hs. unfold bind. destruct (Hm s Hs) as [Hh HR].
  destruct (m s) as [[a|msg|] s1]; cbn in *; [|done|done].
  by apply Hk; [apply HR|].
Qed.

Lemma frames_alloc h0 o : frames h0 (λ a, h0 !! a = None) (alloc o).
Proof.
  intros s Hs. cbn.
  assert (Hf : h0 !! fresh_addr (heap s) = None).
  { eapply lookup_weaken_None; [apply fresh_addr_None|done]. }
  split; [by apply insert_subseteq_r|]. by intros a [= <-].
Qed.

Lemma frames_store h0 a o : h0 !! a = None → frames h0 (λ _, True) (store a o).
Proof. intros Ha s Hs. cbn. split; [by apply insert_subseteq_r|done]. Qed.

Lemma frames_New h0 t : frames h0 (off h0) (New t).
Proof.
  unfold New. eapply frames_bind; [apply frames_alloc|]. intros a Ha.
  apply frames_ret. by intros b [= <-].
Qed.

Lemma frames_MakeSlice h0 t len cap : frames h0 (off h0) (MakeSlice t len cap).
Proof.
  unfold MakeSlice. destruct t; try (by intros s Hs).
  destruct (decide (len ≤ cap)); [|by intros s Hs].
  eapply frames_bind; [apply frames_alloc|]. intros a Ha.
  apply frames_ret. by intros b [= <-].
Qed.

Lemma frames_MakeMapWithSize h0 t n : frames h0 (off h0) (MakeMapWithSize t n).
Proof.
  unfold MakeMapWithSize. destruct t; try (by intros s Hs).
  eapply frames_bind; [apply frames_alloc|]. intros a Ha.
  apply frames_ret. by intros b [= <-].
Qed.

Ltac heap_pure_tac :=
  intros ?;
  repeat (unfold bind, ret, get, panic, fault, assignTo, Set_; cbn);
  try done; repeat (case_match; simplify_eq/=; try done); done.

Lemma hpure_panic {A} msg : heap_pure (@panic A msg).
Proof. done. Qed.
Lemma hpure_out_of_fuel {A} : heap_pure (@out_of_fuel A).
Proof. done. Qed.
Lemma hpure_get : heap_pure get.
Proof. done. Qed.
Lemma hpure_UpdateStats n : heap_pure (UpdateStats n).
Proof. done. Qed.
Lemma hpure_set_visited a x : heap_pure (set_visited a x).
Proof. done. Qed.
Lemma hpure_CanInterface v : heap_pure (CanInterface v).
Proof. by destruct v. Qed.
Lemma hpure_Interface v : heap_pure (Interface_ v).
Proof. by destruct v as [|x []]. Qed.
Lemma hpure_Type v : heap_pure (Type_ v).
Proof. by destruct v. Qed.
Lemma hpure_IsNil v : heap_pure (IsNil v).
Proof. destruct v as [|[] ?]; done. Qed.
Lemma hpure_Pointer v : heap_pure (Pointer v).
Proof. destruct v as [|[] ?]; done. Qed.
Lemma hpure_Elem v : heap_pure (Elem v).
Proof. unfold Elem. heap_pure_tac. Qed.
Lemma hpure_Len v : heap_pure (Len v).
Proof. unfold Len. heap_pure_tac. Qed.
Lemma hpure_Cap v : heap_pure (Cap v).
Proof. unfold Cap. heap_pure_tac. Qed.
Lemma hpure_Index v i : heap_pure (Index v i).
Proof. unfold Index. heap_pure_tac. Qed.
Lemma hpure_MapKeys v : heap_pure (MapKeys v).
Proof. unfold MapKeys. heap_pure_tac. Qed.
Lemma hpure_MapIndex v k : heap_pure (MapIndex v k).
Proof. unfold MapIndex. heap_pure_tac. Qed.
Lemma hpure_NumField v : heap_pure (NumField v).
Proof. unfold NumField. heap_pure_tac. Qed.
Lemma hpure_Field v i : heap_pure (Field v i).
Proof. unfold Field. heap_pure_tac. Qed.
Lemma hpure_SetArrayIndex c i x : heap_pure (SetArrayIndex c i x).
Proof. unfold SetArrayIndex. heap_pure_tac. Qed.
Lemma hpure_SetField c i x : heap_pure (SetField c i x).
Proof. unfold SetField. heap_pure_tac. Qed.
Lemma hpure_Convert_Interface x t : heap_pure (Convert_Interface x t).
Proof. unfold Convert_Interface. heap_pure_tac. Qed.
Lemma hpure_Set T x : heap_pure (Set_ T x).
Proof. unfold Set_. heap_pure_tac. Qed.
Lemma hpure_assignTo c T x : heap_pure (assignTo c T x).
Proof. unfold assignTo. heap_pure_tac. Qed.

Create HintDb heapdb discriminated.
#[export] Hint Resolve hpure_panic hpure_out_of_fuel hpure_get hpure_UpdateStats
  hpure_set_visited hpure_CanInterface hpure_Interface hpure_Type hpure_IsNil
  hpure_Pointer hpure_Elem hpure_Len hpure_Cap hpure_Index hpure_MapKeys
  hpure_MapIndex hpure_NumField hpure_Field hpure_SetArrayIndex hpure_SetField
  hpure_Convert_Interface hpure_Set hpure_assignTo : heapdb.

Ltac frames_basic :=
  lazymatch goal with
  | |- frames _ _ (ret _) => by apply frames_ret
  | |- frames _ _ (store _ _) => apply frames_store; auto
  | |- frames _ _ (bind _ _) =>
      eapply frames_bind;
        [first [ apply frames_pure; solve [auto with heapdb] | idtac ]|intros ? ?]
  | |- frames _ _ (match ?x with _ => _ end) => destruct x eqn:?
  | |- frames _ _ (if ?b then _ else _) => destruct b eqn:?
  | |- frames _ _ _ => apply frames_pure; solve [auto with heapdb]
  end.

Lemma frames_SetElem h0 p x : off h0 p → frames h0 (λ _, True) (SetElem p x).
Proof.
  intros Hp. unfold SetElem.
  destruct p as [| | |t [a|]| | | | | | |]; try (by apply frames_pure; auto with heapdb).
  assert (h0 !! a = None) by (by apply Hp).
  repeat frames_basic.
Qed.

Lemma frames_SetIndex h0 sl i x : off h0 sl → frames h0 (λ _, True) (SetIndex sl i x).
Proof.
  intros Hp. unfold SetIndex.
  destruct sl as [| | | |t [g|]| | | | | |]; try (by apply frames_pure; auto with heapdb).
  assert (h0 !! g.1.1 = None) by (by apply Hp).
  repeat frames_basic.
Qed.

Lemma frames_SetMapIndex h0 m k e : off h0 m → frames h0 (λ _, True) (SetMapIndex m k e).
Proof.
  intros Hp. unfold SetMapIndex.
  destruct m as [| | | | | |kt et [a|]| | | |]; try (by apply frames_pure; auto with heapdb).
  assert (h0 !! a = None) by (by apply Hp).
  repeat frames_basic.
Qed.

Lemma frames_for_range h0 {R} (body : nat → M (option R)) n :
  (∀ i, frames h0 (λ _, True) (body i)) →
  ∀ from, frames h0 (λ _, True) (for_range body from n).
Proof.
  intros Hb. induction n as [|n IH]; intros from; cbn.
  - by apply frames_ret.
  - eapply frames_bind; [apply Hb|]. intros [r|] _; [by apply frames_ret|apply IH].
Qed.

Lemma frames_for_acc h0 {A R} (body : nat → A → M (R + A)) n :
  (∀ i acc, frames h0 (λ _, True) (body i acc)) →
  ∀ from acc, frames h0 (λ _, True) (for_acc body from n acc).
Proof.
  intros Hb. induction n as [|n IH]; intros from acc; cbn.
  - by apply frames_ret.
  - eapply frames_bind; [apply Hb|]. intros [r|acc'] _; [by apply frames_ret|apply IH].
Qed.

Lemma frames_for_each h0 {X R} (body : X → M (option R)) xs :
  (∀ x, frames h0 (λ _, True) (body x)) → frames h0 (λ _, True) (for_each body xs).
Proof.
  intros Hb. induction xs as [|x xs IH]; cbn.
  - by apply frames_ret.
  - eapply frames_bind; [apply Hb|]. intros [r|] _; [by apply frames_ret|apply IH].
Qed.

Section frame.

Variable methods : type → option Cloneable.
Variable cloners : list (type * Cloner).

Hypothesis methods_heap : ∀ t m, methods t = Some m → heap_through_Clone m.
Hypothesis cloners_heap :
  ∀ t c, cloners_lookup cloners t = Some c → heap_through_Clone c.

Section frame_composite.

Variable h0 : gmap addr object.
Variable rec : Value → M cloned.
Hypothesis frames_rec : ∀ x, frames h0 (λ _, True) (rec x).

Ltac frames_step :=
  lazymatch goal with
  | |- frames _ _ (bind (rec _) _) =>
      eapply frames_bind; [apply frames_rec|intros ? _]
  | |- frames _ _ (bind (New _) _) =>
      eapply frames_bind; [apply frames_New|intros ? ?]
  | |- frames _ _ (bind (MakeSlice _ _ _) _) =>
      eapply frames_bind; [apply frames_MakeSlice|intros ? ?]
  | |- frames _ _ (bind (MakeMapWithSize _ _) _) =>
      eapply frames_bind; [apply frames_MakeMapWithSize|intros ? ?]
  | |- frames _ _ (bind (SetElem _ _) _) =>
      eapply frames_bind; [by apply frames_SetElem|intros ? _]
  | |- frames _ _ (bind (SetIndex _ _ _) _) =>
      eapply frames_bind; [by apply frames_SetIndex|intros ? _]
  | |- frames _ _ (bind (SetMapIndex _ _ _) _) =>
      eapply frames_bind; [by apply frames_SetMapIndex|intros ? _]
  | |- frames _ _ (bind (for_range _ _ _) _) =>
      eapply frames_bind; [apply frames_for_range; intros ?|intros ? _]
  | |- frames _ _ (bind (for_acc _ _ _ _) _) =>
      eapply frames_bind; [apply frames_for_acc; intros ? ?|intros ? _]
  | |- frames _ _ (bind (for_each _ _) _) =>
      eapply frames_bind; [apply frames_for_each; intros ?|intros ? _]
  | |- frames _ _ (cloneSlice_elem _ _ _ _) => unfold cloneSlice_elem
  | |- frames _ _ (cloneArray_elem _ _ _ _) => unfold cloneArray_elem
  | |- frames _ _ (cloneMap_entry _ _ _ _) => unfold cloneMap_entry
  | |- frames _ _ (cloneStruct_field _ _ _ _) => unfold cloneStruct_field
  | |- frames _ _ (bind _ _) =>
      eapply frames_bind;
        [apply frames_pure; solve [auto with heapdb]|intros ? _]
  | |- frames _ _ (ret _) => by apply frames_ret
  | |- frames _ _ (match ?x with _ => _ end) => destruct x eqn:?
  | |- frames _ _ (if ?b then _ else _) => destruct b eqn:?
  | |- frames _ _ _ => apply frames_pure; solve [auto with heapdb]
  end.

Lemma frames_clonePtr src : frames h0 (λ _, True) (clonePtr rec src).
Proof. unfold clonePtr. repeat frames_step. Qed.

Lemma frames_cloneSlice src : frames h0 (λ _, True) (cloneSlice rec src).
Proof. unfold cloneSlice. repeat frames_step. Qed.

Lemma frames_cloneArray src : frames h0 (λ _, True) (cloneArray rec src).
Proof. unfold cloneArray. repeat frames_step. Qed.

Lemma frames_cloneMap src : frames h0 (λ _, True) (cloneMap rec src).
Proof. unfold cloneMap. repeat frames_step. Qed.

Lemma frames_cloneStruct src : frames h0 (λ _, True) (cloneStruct rec src).
Proof. unfold cloneStruct. repeat frames_step. Qed.

Lemma frames_cloneInterface src : frames h0 (λ _, True) (cloneInterface rec src).
Proof. unfold cloneInterface. repeat frames_step. Qed.

Lemma frames_structural src : frames h0 (λ _, True) (structural rec src).
Proof.
  unfold structural.
  destruct (Kind_ src) as [[]|];
    auto using frames_clonePtr, frames_cloneSlice, frames_cloneArray,
      frames_cloneMap, frames_cloneStruct, frames_cloneInterface;
    repeat frames_step.
Qed.

End frame_composite.

Lemma frames_deepClone h0 fuel :
  ∀ src, frames h0 (λ _, True) (deepClone methods cloners fuel src).
Proof.
  induction fuel as [|fuel IH]; intros src.
  - apply frames_pure. auto with heapdb.
  - rewrite deepClone_S. unfold dispatch.
    destruct src as [|x ro]; [by apply frames_ret|].
    cbn [IsValid negb].
    eapply frames_bind; [apply frames_pure; auto with heapdb|intros ci _].
    eapply (frames_bind _ (λ cl, ∀ m y, cl = Some (m, y) → methods (typeof y) = Some m)).
    { destruct ci.
      - eapply frames_bind; [apply frames_pure; auto with heapdb|intros i _].
        apply frames_ret. intros m y Hcl. unfold as_Cloneable in Hcl.
        destruct i as [z|]; [|done].
        destruct (methods (typeof z)) eqn:E; by simplify_eq/=.
      - by apply frames_ret. }
    intros [[m y]|] Hcl.
    + eapply methods_heap; [by apply Hcl|]. intros i. apply IH.
    + eapply frames_bind; [apply frames_pure; auto with heapdb|intros t _].
      destruct (cloners_lookup cloners t) as [c|] eqn:Hc.
      * eapply frames_bind; [apply frames_pure; auto with heapdb|intros i _].
        eapply cloners_heap; [done|]. intros j. apply IH.
      * by apply frames_structural.
Qed.

(** X4.  Whatever the input -- cyclic or not, with nil elements or
    unexported fields -- and however the call ends -- with a clone, an
    error, a panic, or still running -- [deepClone] leaves every object
    that was in memory before the call as it was: it writes only into
    objects it has allocated itself.  Extensions are taken to write only
    through the [Clone] they are handed or into what they allocate. *)
Theorem deepClone_writes_only_to_its_own_objects :
  ∀ fuel src s, heap s ⊆ heap (deepClone methods cloners fuel src s).2.
Proof. intros fuel src s. by apply (frames_deepClone (heap s) fuel src s). Qed.

End frame.

(** The pointer that refers to its own node, on which the call does not
    return: memory is as it was, whatever the fuel. *)
Lemma deepClone_writes_only_to_its_own_objects_witness :
  heap (deepClone no_methods [] 7 (Valid (VPtr Node (Some 1%N)) false)
          (NewCloneManager self_heap)).2 !! 1%N
  = Some (OCell (self_node 1%N)).
Proof.
  eapply lookup_weaken;
    [|apply (deepClone_writes_only_to_its_own_objects no_methods []
               ltac:(intros t m H; discriminate H)
               ltac:(intros t c H; discriminate H)
               7 (Valid (VPtr Node (Some 1%N)) false)
               (NewCloneManager self_heap))].
  reflexivity.
Defined.

(** ** A nil below a pointer, a slice, an array or an interface *)

Lemma for_range_panics {R} (body : nat → M (option R)) n i msg s' :
  ∀ from s sx,
    i < n →
    for_range body from i s = (Ret None, sx) →
    body (from + i) sx = (Panic msg, s') →
    for_range body from n s = (Panic msg, s').
Proof.
  intros from s sx Hlt. replace n with (i + S (n - S i)) by lia.
  generalize (n - S i). clear Hlt. intros k. revert from s sx.
  induction i as [|i IH]; intros from s sx Hpre Hbody; cbn in *.
  - unfold ret in Hpre. simplify_eq. rewrite Nat.add_0_r in Hbody.
    unfold bind. by rewrite Hbody.
  - unfold bind in *. destruct (body from s) as [[[x|]|m|] s1]; try done.
    eapply IH; [done|]. by replace (S from + i) with (from + S i) by lia.
Qed.

Lemma for_acc_panics {A R} (body : nat → A → M (R + A)) n i msg s' :
  ∀ from acc s acc' sx,
    i < n →
    for_acc body from i acc s = (Ret (inr acc'), sx) →
    body (from + i) acc' sx = (Panic msg, s') →
    for_acc body from n acc s = (Panic msg, s').
Proof.
  intros from acc s acc' sx Hlt. replace n with (i + S (n - S i)) by lia.
  generalize (n - S i). clear Hlt. intros k. revert from acc s acc' sx.
  induction i as [|i IH]; intros from acc s acc' sx Hpre Hbody; cbn in *.
  - unfold ret in Hpre. simplify_eq. rewrite Nat.add_0_r in Hbody.
    unfold bind. by rewrite Hbody.
  - unfold bind in *. destruct (body from acc s) as [[[x|acc1]|m|] s1]; try done.
    eapply IH; [done|]. by replace (S from + i) with (from + S i) by lia.
Qed.

(** The kinds whose cloner stores the clone of the child with [Set] or
    [Convert], without looking whether it is nil. *)
Definition stores_unchecked (src : Value) : bool :=
  match Kind_ src with
  | Some reflect.Ptr | Some reflect.Slice | Some reflect.Array
  | Some reflect.Interface => true
  | _ => false
  end.

Lemma absent_is_nil methods cloners fuel src s :
  absent src = true →
  delegated methods cloners src = false →
  deepClone methods cloners (S fuel) src s = (Ret (None, None), s).
Proof.
  intros Ha Hd. rewrite deepClone_S.
  destruct src as [|x ro]; [done|].
  rewrite dispatch_structural by done.
  destruct x as [| | |t [p|]|t [h|]| |k e [m|]| |[d|]| |]; try done.
Qed.

(** One level: the child comes back nil with no error, and the composite
    cloner panics when it stores it. *)
Lemma nil_child_panics rec src s x sx s' :
  child_call rec src s x sx →
  stores_unchecked src = true →
  rec x sx = (Ret (None, None), s') →
  ∃ msg s'', structural rec src s = (Panic msg, s'').
Proof.
  intros Hc Hk Hrec. destruct Hc; try done.
  - cbn. unfold clonePtr. run. rewrite H. run. rewrite H0. run.
    rewrite Hrec. cbn. unfold UpdateStats. cbn.
    repeat (case_match; simplify_eq/=; eauto).
  - cbn. unfold cloneSlice. run. rewrite H. run.
    change (MakeSlice (TSlice t) len cap s) with
      (match TSlice t with
       | TSlice e0 =>
           if decide (len ≤ cap) then
             a <- alloc (OArray (replicate cap (zero e0))) ;;
             ret (VSlice e0 (Some (a, len, cap)))
           else panic "reflect.MakeSlice: len > cap"
       | _ => panic "reflect.MakeSlice of non-slice type"
       end s) in H0.
    cbn in H0. destruct (decide (len ≤ cap)); [|done]. run_in H0. simplify_eq.
    assert (Hbody : ∃ msg s'',
              cloneSlice_elem rec (Valid (VSlice t (Some (a, len, cap))) ro)
                (VSlice t (Some (fresh_addr (heap s), len, cap))) (0 + i) sx
              = (Panic msg, s'')).
    { unfold cloneSlice_elem. cbn [Nat.add]. unfold bind at 1. rewrite H3.
      unfold bind at 1. rewrite Hrec. cbn [snd fst ValueOf].
      unfold SetIndex. cbn [fst snd]. destruct (decide (i < len)); [|done].
      run. repeat (case_match; simplify_eq/=; eauto). }
    destruct Hbody as (msg & s'' & Hbody). exists msg, s''.
    erewrite for_range_panics; [done|done|exact H2|exact Hbody].
  - cbn. unfold cloneArray. run.
    assert (Hi : i < length l) by (by eapply lookup_lt_Some).
    assert (Hbody : ∃ msg s'',
              cloneArray_elem rec (Valid (VArray t l) ro) (0 + i) acc sx
              = (Panic msg, s'')).
    { unfold cloneArray_elem. cbn [Nat.add]. unfold bind at 1.
      cbn [Index]. rewrite H0. cbn [ret].
      unfold bind at 1. rewrite Hrec. cbn [snd fst ValueOf].
      unfold SetArrayIndex. run. repeat (case_match; simplify_eq/=; eauto). }
    destruct Hbody as (msg & s'' & Hbody). exists msg, s''.
    erewrite for_acc_panics; [done|done|exact H|exact Hbody].
  - cbn. unfold cloneInterface. run. rewrite Hrec. cbn. eauto.
Qed.

(** X5.  [clonePtr], [cloneSlice], [cloneArray] and [cloneInterface]
    store what [deepClone] returns for the pointee, element or dynamic
    value without the test for nil that [cloneStruct] makes: when the
    traversal reaches, directly below a value of one of these kinds, a nil
    pointer, slice, map or interface, the call panics (in [Value.Set] or
    [Value.Convert] on the zero Value) instead of returning a clone. *)
Theorem nil_below_reference_panics methods cloners fuel src s x sx :
  delegated methods cloners src = false →
  stores_unchecked src = true →
  child_call (deepClone methods cloners (S fuel)) src s x sx →
  absent x = true →
  delegated methods cloners x = false →
  ∃ msg s', deepClone methods cloners (S (S fuel)) src s = (Panic msg, s').
Proof.
  intros Hd Hk Hc Ha Hdx.
  rewrite deepClone_S, dispatch_structural; [|by destruct Hc|done].
  eapply nil_child_panics; [done|done|].
  by apply absent_is_nil.
Qed.

(** [[]*int{&a, nil}]. *)
Definition holey_heap : gmap addr object :=
  {[ 1%N := OCell (VInt 7);
     2%N := OArray [VPtr TInt (Some 1%N); VPtr TInt None] ]}.

Definition holey : value := VSlice (TPtr TInt) (Some (2%N, 2, 2)).

Lemma nil_below_reference_panics_witness :
  ∃ s',
    deepClone no_methods [] 3 (Valid holey false) (NewCloneManager holey_heap)
    = (Panic "reflect: call of reflect.Value.Set on zero Value", s').
Proof.
  destruct (nil_below_reference_panics no_methods [] 1 (Valid holey false)
              (NewCloneManager holey_heap) (Valid (VPtr TInt None) false)
              (deepClone no_methods [] 3 (Valid holey false)
                 (NewCloneManager holey_heap)).2)
    as (msg & s' & Hrun).
  - reflexivity.
  - reflexivity.
  - eapply (child_slice _ (TPtr TInt) 2%N 2 2 false _ _ _ 1).
    + reflexivity.
    + reflexivity.
    + lia.
    + vm_compute. reflexivity.
    + vm_compute. reflexivity.
  - reflexivity.
  - reflexivity.
  - exists s'. rewrite Hrun. vm_compute in Hrun. by injection Hrun as <- _.
Defined.

(** ** More about graphs cloned by shape *)

Section graph_more.

Variable methods : type → option Cloneable.
Variable cloners : list (type * Cloner).
Variable h0 : gmap addr object.
Variable ρ : addr → nat.
Variable ref : addr → value.

Local Abbreviation clonable := (clonable methods cloners h0 ρ ref).
Local Abbreviation inv := (inv h0 ref).
Local Abbreviation image := (image h0 ref).

(** A manager that has cloned parts of the graph in [h0], which is still
    as it was. *)
Definition sound (s : state) : Prop := inv s ∧ image (heap s) (visited s).

Lemma sound_New : sound (NewCloneManager h0).
Proof.
  split; [apply inv_New|]. split.
  - intros a c Hc. cbn in Hc. by rewrite lookup_empty in Hc.
  - intros a c Hc. cbn in Hc. by rewrite lookup_empty in Hc.
Qed.

(** A clone by a manager that has cloned before. *)
Lemma Clone_sound n v s :
  sound s → clonable n v → is_nil v = false → kind_of v ≠ reflect.Interface →
  ∃ s', Clone methods cloners (S n) (Some v) s
          = (Ret (Some (rename (visited s') v), None), s')
        ∧ sound s' ∧ heap s ⊆ heap s' ∧ visited s ⊆ visited s'
        ∧ covered (visited s') v.
Proof.
  intros [Hi Him] Hv Hnil Hk.
  destruct (deepClone_clonable methods cloners h0 ρ ref n v Hv (S n)
              (Nat.lt_succ_diag_r n) s Hi)
    as (s' & Hrun & (Hi' & Hh & Hvis & Hnew) & Hcov).
  exists s'. split; [|split; [|done]].
  - unfold Clone. cbn [ValueOf]. rewrite Hrun. unfold expected. rewrite Hnil.
    rewrite to_iface_concrete; [done|].
    erewrite kind_of_rename; [done|done|by eapply inv_moved].
  - split; [done|]. split; [by eapply inv_moved|]. intros a c Hc.
    destruct (visited s !! a) as [c0|] eqn:Hc0.
    + assert (c0 = c) as ->.
      { pose proof (lookup_weaken _ _ _ _ Hc0 Hvis). congruence. }
      destruct Him as [_ Hcomp].
      eapply complete_mono; [by apply Hcomp|done|].
      intros a' Ha'.
      destruct (inv_entry_dom h0 ref s a c a' Hi Hc0 Ha') as [_ Hd].
      apply elem_of_dom in Hd as [o Ho].
      by rewrite Ho, (lookup_weaken _ _ _ _ Ho Hh).
    + by apply (Hnew a c Hc Hc0).
Qed.




End graph_more.


(** [a[0:2]] of an array of three: the clone has capacity 3 too. *)
Definition spare_heap : gmap addr object :=
  {[ 1%N := OArray [VInt 1; VInt 2; VInt 3] ]}.

Definition spare : value := VSlice TInt (Some (1%N, 2, 3)).



(** ** A map with nil values *)

(** A value that is cloned without a look at memory: a scalar, a nil, or
    an interface that holds a scalar; nothing of it is delegated. *)
Definition flat (methods : type → option Cloneable)
    (cloners : list (type * Cloner)) (v : value) : Prop :=
  delegated methods cloners (Valid v false) = false
  ∧ (is_scalar v = true ∨ is_nil v = true
     ∨ ∃ y, v = VIface (Some y) ∧ is_scalar y = true
            ∧ delegated methods cloners (Valid y false) = false).

(** The entries of a map whose value is not nil. *)
Definition non_nil_entries (es : list (value * value)) : list (value * value) :=
  List.filter (λ kv, negb (is_nil kv.2)) es.

Lemma map_delete_fresh k es : k ∉ map fst es → map_delete k es = es.
Proof.
  induction es as [|e es IH]; intros Hn; [done|]. cbn in *.
  apply not_elem_of_cons in Hn as [Hne Hn].
  rewrite value_eqb_neq by done. by rewrite IH.
Qed.

Lemma scalar_not_iface y : is_scalar y = true → type_eqb TInterface (typeof y) = false.
Proof. by destruct y. Qed.

Lemma deepClone_flat methods cloners fuel v s :
  flat methods cloners v →
  ∃ st, deepClone methods cloners (S (S fuel)) (Valid v false) s
        = (Ret (if is_nil v then None else to_iface v, None),
           State (heap s) (visited s) st).
Proof.
  intros [Hd [Hs|[Hn|(y & -> & Hy & Hdy)]]].
  - exists (stats s). rewrite deepClone_scalar by done.
    destruct s. by destruct v.
  - exists (stats s). rewrite absent_is_nil by done. rewrite Hn. by destruct s.
  - rewrite deepClone_S, dispatch_structural by done.
    cbn [structural Kind_ kind_of kind_of_type typeof]. unfold cloneInterface.
    unfold bind at 1. cbn [Elem ret IsValid negb].
    unfold bind at 1. cbn [IsNil ret]. rewrite bool_decide_eq_false_2 by done.
    unfold bind at 1. rewrite deepClone_scalar by done. cbn [snd fst].
    unfold bind at 1. cbn [Type_ ret typeof].
    unfold bind at 1. cbn [UpdateStats].
    unfold bind at 1. cbn [ValueOf Convert_Interface].
    unfold bind at 1. unfold assignTo. rewrite scalar_not_iface by done.
    eexists. destruct y; try done.
Qed.

(** What [SetMapIndex] stores for the clone of a flat value is the value. *)
Lemma assignTo_flat methods cloners ctx e v s :
  flat methods cloners v → is_nil v = false → typeof v = e →
  ∃ x, to_iface v = Some x ∧ assignTo ctx e x s = (Ret v, s).
Proof.
  intros [Hd [Hs|[Hn|(y & -> & Hy & Hdy)]]] Hnil Hty.
  - exists v. split; [by destruct v|]. by apply assignTo_same.
  - congruence.
  - exists y. split; [done|]. cbn in Hty. subst e.
    unfold assignTo. rewrite scalar_not_iface by done. by destruct y.
Qed.

Section flat_map.

Variable methods : type → option Cloneable.
Variable cloners : list (type * Cloner).


End flat_map.

(** [map[string]interface{}{"a": 1, "b": nil}]: the clone has no ["b"]. *)
Definition json_heap : gmap addr object :=
  {[ 1%N := OMap [(VString "a", VIface (Some (VInt 1)));
                  (VString "b", VIface None)] ]}.

Definition json : value := VMap TString TInterface (Some 1%N).


(** ** [FormatStats] *)

(** [%d] of an [int]. *)
Definition dec_int (z : Z) : string := pretty z.

(** The line [fmt.Sprintf("%s: %d\n", k, v)]. *)
Definition stats_line (kv : string * Z) : string :=
  kv.1 +:+ ": " +:+ dec_int kv.2 +:+ String (Ascii.ascii_of_nat 10) EmptyString.

(** What the [strings.Builder] of [FormatStats] holds after a [range] over
    the tally that yields the entries in the order [order]. *)
Definition FormatStats_in (order : list (string * Z)) : string :=
  foldl (λ b kv, b +:+ stats_line kv) "" order.

(** [FormatStats]: Go leaves the order of a [range] over a map open, so
    [out] is what the function returns for one of the orders. *)
Definition FormatStats (s : state) (out : string) : Prop :=
  ∃ order, order ≡ₚ map_to_list (stats s) ∧ out = FormatStats_in order.

Lemma string_app_assoc (a b c : string) : (a +:+ b) +:+ c = a +:+ (b +:+ c).
Proof.
  induction a as [|x a IH]; [done|].
  change (String x ((a +:+ b) +:+ c) = String x (a +:+ (b +:+ c))).
  by rewrite IH.
Qed.

Lemma string_app_nil_r (a : string) : a +:+ "" = a.
Proof.
  induction a as [|x a IH]; [done|].
  change (String x (a +:+ "") = String x a). by rewrite IH.
Qed.

Lemma foldl_lines b l :
  foldl (λ b kv, b +:+ stats_line kv) b l = b +:+ FormatStats_in l.
Proof.
  unfold FormatStats_in. revert b.
  induction l as [|x l IH] using rev_ind; intros b; cbn.
  - by rewrite string_app_nil_r.
  - rewrite 2 foldl_app. cbn. rewrite IH. by rewrite string_app_assoc.
Qed.

Lemma FormatStats_in_app l1 l2 :
  FormatStats_in (l1 ++ l2) = FormatStats_in l1 +:+ FormatStats_in l2.
Proof. unfold FormatStats_in at 1. rewrite foldl_app. apply foldl_lines. Qed.

Lemma FormatStats_in_line l1 kv l2 :
  FormatStats_in (l1 ++ kv :: l2)
  = FormatStats_in l1 +:+ stats_line kv +:+ FormatStats_in l2.
Proof.
  rewrite FormatStats_in_app. f_equal.
  change (kv :: l2) with ([kv] ++ l2). rewrite FormatStats_in_app. done.
Qed.

Lemma wrap_int_small n :
  (- 2 ^ 63 ≤ n < 2 ^ 63)%Z → wrap_int n = n.
Proof.
  intros Hn. unfold wrap_int.
  change (2 ^ 63)%Z with 9223372036854775808%Z in *.
  change (2 ^ 64)%Z with 18446744073709551616%Z.
  rewrite Z.mod_small by lia. lia.
Qed.

(** X10.  [FormatStats] writes one line [name: count] for every entry of
    the tally: whatever the order of the [range], the line of each tallied
    name is part of what it returns.  After [UpdateStats(name)] the line
    of [name] shows the count the tally held before (0 for a name that had
    none) incremented as an [int]: one higher, except that the maximum
    [int] is followed by the minimum. *)
Theorem FormatStats_shows_every_tally :
  (∀ s out k n,
     FormatStats s out → stats s !! k = Some n →
     ∃ pre post, out = pre +:+ stats_line (k, n) +:+ post)
  ∧ (∀ s out k,
       FormatStats (UpdateStats k s).2 out →
       ∃ pre post,
         out = pre +:+ stats_line (k, wrap_int (default 0%Z (stats s !! k) + 1))
                   +:+ post)
  ∧ (∀ n, (- 2 ^ 63 ≤ n < 2 ^ 63 - 1)%Z → wrap_int (n + 1) = (n + 1)%Z)
  ∧ wrap_int (2 ^ 63 - 1 + 1) = (- 2 ^ 63)%Z.
Proof.
  assert (H1 : ∀ s out k n,
     FormatStats s out → stats s !! k = Some n →
     ∃ pre post, out = pre +:+ stats_line (k, n) +:+ post).
  { intros s out k n (order & Hp & ->) Hk.
    assert (Hin : (k, n) ∈ order).
    { rewrite Hp. by apply elem_of_map_to_list. }
    apply list_elem_of_split in Hin as (l1 & l2 & ->).
    exists (FormatStats_in l1), (FormatStats_in l2). apply FormatStats_in_line. }
  split; [exact H1|]. split; [|split].
  - intros s out k Hout. eapply H1; [exact Hout|].
    cbn. apply lookup_insert_eq.
  - intros n Hn. apply wrap_int_small. lia.
  - reflexivity.
Qed.

Lemma FormatStats_shows_every_tally_witness :
  ∃ pre post,
    FormatStats_in [("slice", 2%Z); ("ptr", 1%Z)]
    = pre +:+ stats_line ("ptr", 1%Z) +:+ post.
Proof.
  apply (proj1 FormatStats_shows_every_tally
           (State ∅ ∅ {[ "ptr" := 1%Z; "slice" := 2%Z ]}) _ "ptr" 1%Z).
  - exists [("slice", 2%Z); ("ptr", 1%Z)]. split; [|reflexivity].
    vm_compute map_to_list. reflexivity.
  - reflexivity.
Defined.

(** * The order of the dispatcher *)

(** ** C7: first the [Clone] method, then the registered cloner, then the
    shape, at every occurrence the traversal reaches *)

(** [registered cloners t c]: [c] is what [cm.cloners[t]] holds after the
    calls of [RegisterCloner] that made [cloners]. *)
Inductive registered : list (type * Cloner) → type → Cloner → Prop :=
| registered_last t c cs :
    registered (RegisterCloner t c cs) t c
| registered_earlier t c t' c' cs :
    t' ≠ t → registered cs t c → registered (RegisterCloner t' c' cs) t c.

(** No call of [RegisterCloner] for [t] has been made. *)
Definition unregistered (cloners : list (type * Cloner)) (t : type) : Prop :=
  Forall (λ e : type * Cloner, e.1 ≠ t) cloners.

(** The dynamic type of [x] has no [Clone] method. *)
Definition no_method (methods : type → option Cloneable) (x : value) : Prop :=
  ∀ y, to_iface x = Some y → methods (typeof y) = None.

Lemma type_eqb_neq a b : a ≠ b → type_eqb a b = false.
Proof.
  intros Hne. destruct (type_eqb a b) eqn:E; [|done].
  by apply type_eqb_eq in E.
Qed.

Lemma registered_lookup cloners t c :
  registered cloners t c → cloners_lookup cloners t = Some c.
Proof.
  induction 1 as [t c cs|t c t' c' cs Hne _ IH];
    rewrite cloners_lookup_RegisterCloner.
  - by rewrite type_eqb_refl.
  - by rewrite type_eqb_neq.
Qed.

Lemma unregistered_lookup cloners t :
  unregistered cloners t → cloners_lookup cloners t = None.
Proof.
  unfold unregistered, cloners_lookup.
  induction 1 as [|e cs He _ IH]; [done|]. cbn [find].
  by rewrite type_eqb_neq.
Qed.

Lemma no_method_as_Cloneable methods x :
  no_method methods x → as_Cloneable methods (to_iface x) = None.
Proof.
  intros Hn. unfold as_Cloneable. destruct (to_iface x) as [y|] eqn:E; [|done].
  cbn. by rewrite (Hn y E).
Qed.

(** The three strategies, first match first, at a call on a value whose
    interface can be taken. *)
Lemma dispatch_method methods cloners fuel x y m s :
  to_iface x = Some y → methods (typeof y) = Some m →
  deepClone methods cloners (S fuel) (Valid x false) s
  = m (Clone methods cloners fuel) y s.
Proof.
  intros Hy Hm. rewrite deepClone_S. unfold dispatch. run.
  unfold as_Cloneable. rewrite Hy, Hm. done.
Qed.

Lemma dispatch_cloner methods cloners fuel x c s :
  no_method methods x → registered cloners (typeof x) c →
  deepClone methods cloners (S fuel) (Valid x false) s
  = c (Clone methods cloners fuel) (to_iface x) s.
Proof.
  intros Hn Hc. rewrite deepClone_S. unfold dispatch. run.
  rewrite (no_method_as_Cloneable _ _ Hn), (registered_lookup _ _ _ Hc). done.
Qed.

Lemma dispatch_shape methods cloners fuel x s :
  no_method methods x → unregistered cloners (typeof x) →
  deepClone methods cloners (S fuel) (Valid x false) s
  = structural (deepClone methods cloners fuel) (Valid x false) s.
Proof.
  intros Hn Hc. rewrite deepClone_S. unfold dispatch. run.
  rewrite (no_method_as_Cloneable _ _ Hn), (unregistered_lookup _ _ Hc). done.
Qed.

(** *** What the clone holds where the traversal went *)

(** The value of type [T] that holds the clone [r]: a slot of interface
    type holds it as its dynamic value. *)
Definition boxed (T : type) (r : value) : value :=
  match T with
  | TInterface => VIface (Some r)
  | _ => r
  end.

(** The clone [r] has the type of what it is the clone of (a value of a
    type other than an interface type, when that is of interface type). *)
Definition fits (T : type) (r : value) : Prop :=
  match T with
  | TInterface => kind_of r ≠ reflect.Interface
  | _ => typeof r = T
  end.

Lemma not_iface_type r :
  kind_of r ≠ reflect.Interface → type_eqb TInterface (typeof r) = false.
Proof. intros Hk. apply type_eqb_neq. intros E. apply Hk. unfold kind_of. by rewrite <- E. Qed.

Lemma assignTo_fits ctx T r s :
  fits T r → assignTo ctx T r s = (Ret (boxed T r), s).
Proof.
  intros Hf. destruct T; cbn in Hf |- *; try (by apply assignTo_same).
  unfold assignTo. rewrite not_iface_type by done. by destruct r.
Qed.

Lemma Set_fits T r s :
  fits T r → Set_ T (Valid r false) s = (Ret (boxed T r), s).
Proof. intros Hf. cbn. by apply assignTo_fits. Qed.

Lemma fits_not_iface T r :
  T ≠ TInterface → fits T r → typeof r = T ∧ boxed T r = r.
Proof. intros HT Hf. by destruct T. Qed.

Lemma typeof_boxed T r : fits T r → typeof (boxed T r) = T.
Proof. intros Hf. by destruct T. Qed.

Lemma locate_step h v st π w :
  locate h v [st] = Some w → locate h v (st :: π) = locate h w π.
Proof.
  cbn. intros H. repeat (case_match; simplify_eq/=; try done).
Qed.

(** Loops: the first rounds, then the rest. *)
Lemma for_range_split {R} (body : nat → M (option R)) i k :
  ∀ from s sx,
    for_range body from i s = (Ret None, sx) →
    for_range body from (i + k) s = for_range body (from + i) k sx.
Proof.
  induction i as [|i IH]; intros from s sx Hpre; cbn in *.
  - unfold ret in Hpre. simplify_eq. by rewrite Nat.add_0_r.
  - unfold bind in *. destruct (body from s) as [[[x|]|m|] s1]; try done.
    rewrite (IH _ _ _ Hpre). by replace (S from + i) with (from + S i) by lia.
Qed.

Lemma for_acc_split {A R} (body : nat → A → M (R + A)) i k :
  ∀ from acc s acc' sx,
    for_acc body from i acc s = (Ret (inr acc'), sx) →
    for_acc body from (i + k) acc s = for_acc body (from + i) k acc' sx.
Proof.
  induction i as [|i IH]; intros from acc s acc' sx Hpre; cbn in *.
  - unfold ret in Hpre. simplify_eq. by rewrite Nat.add_0_r.
  - unfold bind in *. destruct (body from acc s) as [[[x|acc1]|m|] s1]; try done.
    rewrite (IH _ _ _ _ _ Hpre). by replace (S from + i) with (from + S i) by lia.
Qed.

Lemma for_each_split {X R} (body : X → M (option R)) xs ys :
  ∀ s sx,
    for_each body xs s = (Ret None, sx) →
    for_each body (xs ++ ys) s = for_each body ys sx.
Proof.
  induction xs as [|x xs IH]; intros s sx Hpre; cbn in *.
  - unfold ret in Hpre. by simplify_eq.
  - unfold bind in *. destruct (body x s) as [[[y|]|m|] s1]; try done.
    by apply IH.
Qed.

(** Loops: what every round that goes through keeps, the loop that goes
    through keeps. *)
Lemma for_range_post {R} (body : nat → M (option R)) (I : nat → state → Prop) n :
  (∀ j s s', body j s = (Ret None, s') → I j s → I (S j) s') →
  ∀ from s s',
    for_range body from n s = (Ret None, s') → I from s → I (from + n) s'.
Proof.
  intros Hstep. induction n as [|n IH]; intros from s s' Hrun HI; cbn in Hrun.
  - unfold ret in Hrun. simplify_eq. by rewrite Nat.add_0_r.
  - unfold bind in Hrun. destruct (body from s) as [[[x|]|m|] s1] eqn:Hb; try done.
    replace (from + S n) with (S from + n) by lia.
    eapply IH; [done|]. by eapply Hstep.
Qed.

Lemma for_acc_post {A R} (body : nat → A → M (R + A))
    (I : nat → A → state → Prop) n :
  (∀ j a s a' s', body j a s = (Ret (inr a'), s') → I j a s → I (S j) a' s') →
  ∀ from a s a' s',
    for_acc body from n a s = (Ret (inr a'), s') → I from a s → I (from + n) a' s'.
Proof.
  intros Hstep. induction n as [|n IH]; intros from a s a' s' Hrun HI; cbn in Hrun.
  - unfold ret in Hrun. simplify_eq. by rewrite Nat.add_0_r.
  - unfold bind in Hrun.
    destruct (body from a s) as [[[x|a1]|m|] s1] eqn:Hb; try done.
    replace (from + S n) with (S from + n) by lia.
    eapply IH; [done|]. by eapply Hstep.
Qed.

Lemma for_each_post {X R} (body : X → M (option R)) (I : nat → state → Prop) xs :
  (∀ j x s s', xs !! j = Some x → body x s = (Ret None, s') → I j s → I (S j) s') →
  ∀ s s', for_each body xs s = (Ret None, s') → I 0 s → I (length xs) s'.
Proof.
  revert I. induction xs as [|x xs IH]; intros I Hstep s s' Hrun HI; cbn in Hrun.
  - unfold ret in Hrun. by simplify_eq.
  - unfold bind in Hrun. destruct (body x s) as [[[y|]|m|] s1] eqn:Hb; try done.
    eapply (IH (λ j, I (S j))); [|exact Hrun|].
    + intros j x' s2 s2' Hj Hb' HI'. by apply (Hstep (S j) x' s2 s2').
    + by apply (Hstep 0 x s s1).
Qed.

(** [child_at rec src s st x sx]: cloning [src] by shape from state [s]
    reaches, at the place [st] of [src], the call [rec x] in state [sx];
    the source is well typed at that place.  A struct field is a place
    only if it is exported; a map value, when the keys of the map are
    cloned as they are. *)
Inductive child_at (rec : Value → M cloned)
  : Value → state → step → Value → state → Prop :=
| at_ptr t a s y :
    visited s !! a = None →
    heap s !! a = Some (OCell y) →
    typeof y = t →
    child_at rec (Valid (VPtr t (Some a)) false) s Deref (Valid y false) s
| at_slice t a len cap s clone s0 i sx y :
    visited s !! a = None →
    MakeSlice (TSlice t) len cap s = (Ret clone, s0) →
    i < len →
    for_range (cloneSlice_elem rec (Valid (VSlice t (Some (a, len, cap))) false) clone)
      0 i (set_visited a clone s0).2 = (Ret None, sx) →
    Index (Valid (VSlice t (Some (a, len, cap))) false) i sx
      = (Ret (Valid y false), sx) →
    typeof y = t →
    child_at rec (Valid (VSlice t (Some (a, len, cap))) false) s (At i)
      (Valid y false) sx
| at_array t l s i acc sx y :
    for_acc (cloneArray_elem rec (Valid (VArray t l) false))
      0 i (zero (TArray (length l) t)) s = (Ret (inr acc), sx) →
    l !! i = Some y →
    typeof y = t →
    child_at rec (Valid (VArray t l) false) s (At i) (Valid y false) sx
| at_map_value k e a s es clone s0 j kx y sk sx :
    visited s !! a = None →
    heap s !! a = Some (OMap es) →
    NoDup (map fst es) →
    (∀ kv, kv ∈ es →
       typeof kv.1 = k
       ∧ ∀ st, rec (Valid kv.1 false) st = (Ret (Some kv.1, None), st)) →
    MakeMapWithSize (TMap k e) (length es) s = (Ret clone, s0) →
    es !! j = Some (kx, y) →
    for_each (cloneMap_entry rec (Valid (VMap k e (Some a)) false) clone)
      (map (λ kv : value * value, Valid kv.1 false) (take j es))
      (set_visited a clone s0).2 = (Ret None, sk) →
    rec (Valid kx false) sk = (Ret (Some kx, None), sx) →
    typeof y = e →
    child_at rec (Valid (VMap k e (Some a)) false) s (Key kx) (Valid y false) sx
| at_field n fs s i acc sx f :
    for_acc (cloneStruct_field rec (Valid (VStruct n fs) false))
      0 i (zero (typeof (VStruct n fs))) s = (Ret (inr acc), sx) →
    fs !! i = Some f →
    exported f.1.1 = true →
    typeof f.2 = f.1.2 →
    child_at rec (Valid (VStruct n fs) false) s (FieldAt i) (Valid f.2 false) sx
| at_iface y s :
    kind_of y ≠ reflect.Interface →
    child_at rec (Valid (VIface (Some y)) false) s Unwrap (Valid y false) s.

(** [H] has the objects that the call from [s] to [s'] allocated, as the
    call left them. *)
Definition keeps_new (s s' : state) (H : gmap addr object) : Prop :=
  ∀ b, b ∈ dom (heap s') → b ∉ dom (heap s) → H !! b = heap s' !! b.

(** What cloning [src] by shape, from [s] to [s'] with the clone [cl], has
    done with the clone [r] of the child at [st], made from [sx] to
    [sx1]. *)
Definition stored (src : value) (s : state) (st : step) (y : value)
    (sx sx1 : state) (r cl : value) (s' : state) : Prop :=
  fits (typeof src) cl
  ∧ dom (heap s) ⊆ dom (heap sx)
  ∧ (∀ b, b ∈ dom (heap sx1) → b ∉ dom (heap sx) → heap s' !! b = heap sx1 !! b)
  ∧ (∀ H, keeps_new s s' H →
       locate H (boxed (typeof src) cl) [st] = Some (boxed (typeof y) r)).

Section level.

(** [cm.deepClone], of which the proofs use that it writes only into
    objects it allocates. *)
Variable rec : Value → M cloned.
Hypothesis frames_rec : ∀ h0 x, frames h0 (λ _, True) (rec x).

Lemma rec_grows x s r s1 : rec x s = (Ret r, s1) → heap s ⊆ heap s1.
Proof.
  intros Hrun. destruct (frames_rec (heap s) x s) as [Hh _]; [done|].
  by rewrite Hrun in Hh.
Qed.

Lemma subseteq_dom_heap (h1 h2 : gmap addr object) : h1 ⊆ h2 → dom h1 ⊆ dom h2.
Proof. apply subseteq_dom. Qed.

Lemma stored_ptr t a s y o sx1 pv s' :
  visited s !! a = None →
  heap s !! a = Some (OCell y) →
  typeof y = t →
  rec (Valid y false) s = (o, sx1) →
  clonePtr rec (Valid (VPtr t (Some a)) false) s = (Ret (pv, None), s') →
  ∃ rv, o = Ret (rv, None)
        ∧ ∀ r, rv = Some r → fits t r →
               ∃ cl, pv = Some cl ∧ stored (VPtr t (Some a)) s Deref y s sx1 r cl s'.
Proof.
  intros Hvis Hheap Hty Hrec Hrun.
  unfold clonePtr in Hrun.
  unfold bind at 1 in Hrun. cbn [IsNil ret] in Hrun.
  rewrite bool_decide_eq_false_2 in Hrun by done.
  unfold bind at 1 in Hrun. cbn [Pointer ret default] in Hrun. unfold id in Hrun.
  unfold bind at 1 in Hrun. cbn [get] in Hrun. rewrite Hvis in Hrun.
  unfold bind at 1 in Hrun. cbn [Elem] in Hrun.
  unfold bind at 1 in Hrun. cbn [get] in Hrun. rewrite Hheap in Hrun. cbn [ret] in Hrun.
  unfold bind at 1 in Hrun. rewrite Hrec in Hrun.
  destruct o as [[rv [e|]]|m|]; try done.
  exists rv. split; [done|]. intros r -> Hfit. cbn [snd fst] in Hrun.
  pose proof (rec_grows _ _ _ _ Hrec) as Hgrow.
  pose proof (lookup_weaken _ _ _ _ Hheap Hgrow) as Hheap1.
  unfold bind at 1 in Hrun. cbn [UpdateStats] in Hrun.
  unfold bind at 1 in Hrun. cbn [Elem] in Hrun.
  unfold bind at 1 in Hrun. cbn [get heap] in Hrun. rewrite Hheap1 in Hrun.
  cbn [ret] in Hrun.
  unfold bind at 1 in Hrun. cbn [Type_ ret] in Hrun. rewrite Hty in Hrun.
  unfold bind at 1 in Hrun. unfold New in Hrun.
  unfold bind at 1 in Hrun. cbn [alloc ret heap visited stats] in Hrun.
  unfold bind at 1 in Hrun. cbn [SetElem ValueOf] in Hrun.
  unfold bind at 1 in Hrun. rewrite Set_fits in Hrun by done.
  cbn [store set_visited ret heap visited stats] in Hrun.
  unfold bind at 1 in Hrun. cbn [set_visited ret heap visited stats] in Hrun.
  injection Hrun as <- <-. eexists; split; [reflexivity|]. cbn [heap].
  set (a' := fresh_addr (heap sx1)).
  assert (Hfresh : heap sx1 !! a' = None) by apply fresh_addr_None.
  split; [done|]. split; [done|]. split.
  - intros b Hb _. cbn [heap]. rewrite 2 lookup_insert_ne; [done| |];
      intros <-; apply elem_of_dom in Hb as [o Ho]; congruence.
  - intros H HH. unfold keeps_new in HH. cbn [heap] in HH.
    cbn [boxed typeof locate].
    rewrite (HH a').
    + rewrite lookup_insert_eq. by rewrite Hty.
    + apply elem_of_dom. rewrite lookup_insert_eq. eauto.
    + intros Hin. apply elem_of_dom in Hin as [o Ho].
      pose proof (lookup_weaken _ _ _ _ Ho Hgrow). congruence.
Qed.

Lemma stored_iface s y o sx1 pv s' :
  kind_of y ≠ reflect.Interface →
  rec (Valid y false) s = (o, sx1) →
  cloneInterface rec (Valid (VIface (Some y)) false) s = (Ret (pv, None), s') →
  ∃ rv, o = Ret (rv, None)
        ∧ ∀ r, rv = Some r → fits (typeof y) r →
               ∃ cl, pv = Some cl ∧ stored (VIface (Some y)) s Unwrap y s sx1 r cl s'.
Proof.
  intros Hk Hrec Hrun.
  assert (HT : typeof y ≠ TInterface).
  { intros E. apply Hk. unfold kind_of. by rewrite E. }
  unfold cloneInterface in Hrun.
  unfold bind at 1 in Hrun. cbn [Elem ret IsValid negb] in Hrun.
  unfold bind at 1 in Hrun. cbn [IsNil ret] in Hrun.
  rewrite bool_decide_eq_false_2 in Hrun by done.
  unfold bind at 1 in Hrun. rewrite Hrec in Hrun.
  destruct o as [[rv [e|]]|m|]; try done.
  exists rv. split; [done|]. intros r -> Hfit. cbn [snd fst] in Hrun.
  destruct (fits_not_iface _ _ HT Hfit) as [Htr Hbox].
  assert (Hkr : kind_of r ≠ reflect.Interface).
  { unfold kind_of. by rewrite Htr. }
  unfold bind at 1 in Hrun. cbn [Type_ ret typeof] in Hrun.
  unfold bind at 1 in Hrun. cbn [UpdateStats] in Hrun.
  unfold bind at 1 in Hrun. cbn [ValueOf Convert_Interface] in Hrun.
  unfold bind at 1 in Hrun.
  rewrite (assignTo_fits _ TInterface r) in Hrun by done.
  cbn [boxed to_iface ret] in Hrun.
  injection Hrun as <- <-. eexists; split; [reflexivity|]. cbn [heap].
  split; [done|]. split; [done|]. split; [done|].
  intros H HH. cbn [boxed typeof locate]. by rewrite Hbox.
Qed.


(** Reads and local updates leave the state as it is. *)
Lemma Index_state v i s : (Index v i s).2 = s.
Proof. unfold Index. run. repeat (case_match; simplify_eq/=; try done). Qed.

Lemma Field_state v i s : (Field v i s).2 = s.
Proof. unfold Field. run. repeat (case_match; simplify_eq/=; try done). Qed.

Lemma MapIndex_state v k s : (MapIndex v k s).2 = s.
Proof. unfold MapIndex. run. repeat (case_match; simplify_eq/=; try done). Qed.

Lemma SetArrayIndex_state c i x s : (SetArrayIndex c i x s).2 = s.
Proof.
  unfold SetArrayIndex, Set_, assignTo. run.
  repeat (case_match; simplify_eq/=; try done).
Qed.

Lemma SetField_state c i x s : (SetField c i x s).2 = s.
Proof.
  unfold SetField, Set_, assignTo. run.
  repeat (case_match; simplify_eq/=; try done).
Qed.

Lemma run_state {A} (m : M A) s o s' : m s = (o, s') → (m s).2 = s → s' = s.
Proof. intros E H. by rewrite E in H. Qed.

(** A round of [cloneArray] keeps the type and the length of the clone
    under construction and all elements but its own. *)
Lemma cloneArray_elem_shape src j t l0 s acc' s' :
  cloneArray_elem rec src j (VArray t l0) s = (Ret (inr acc'), s') →
  ∃ l1, acc' = VArray t l1 ∧ length l1 = length l0 ∧ heap s ⊆ heap s'
        ∧ ∀ i, i ≠ j → l1 !! i = l0 !! i.
Proof.
  unfold cloneArray_elem. intros Hrun.
  unfold bind at 1 in Hrun.
  destruct (Index src j s) as [[e|?|] s0] eqn:HI; try done.
  apply run_state in HI as ->; [|apply Index_state].
  unfold bind at 1 in Hrun.
  destruct (rec e s) as [[r|?|] s1] eqn:Hr; try done.
  pose proof (rec_grows _ _ _ _ Hr) as Hg.
  destruct r.2; [by injection Hrun|].
  unfold bind at 1 in Hrun.
  destruct (SetArrayIndex (VArray t l0) j (ValueOf r.1) s1) as [[c|?|] s2] eqn:HS;
    try done.
  pose proof (run_state _ _ _ _ HS (SetArrayIndex_state _ _ _ _)) as ->.
  injection Hrun as <- <-.
  unfold SetArrayIndex in HS. destruct (decide (j < length l0)); [|done].
  unfold bind in HS. destruct (Set_ t (ValueOf r.1) s1) as [[y|?|] s3]; try done.
  injection HS as <- _. eexists. split; [done|].
  split; [by rewrite length_insert|]. split; [done|].
  intros i Hne. by rewrite list_lookup_insert_ne.
Qed.

Lemma cloneArray_early src n :
  ∀ from acc s c s',
    for_acc (cloneArray_elem rec src) from n acc s = (Ret (inl c), s') → c.2 ≠ None.
Proof.
  intros from acc s c s' Hrun.
  eapply (yields_for_acc (λ r : cloned + value, ∀ c, r = inl c → c.2 ≠ None));
    [done| |exact Hrun|done].
  intros j a s0 [c0|a0] s1 Hb c1; [|done]. intros [= <-].
  unfold cloneArray_elem in Hb. unfold bind, ret in Hb.
  repeat (case_match; simplify_eq/=; try done).
Qed.

Lemma stored_array t l s i acc sx y o sx1 pv s' :
  for_acc (cloneArray_elem rec (Valid (VArray t l) false))
    0 i (zero (TArray (length l) t)) s = (Ret (inr acc), sx) →
  l !! i = Some y →
  typeof y = t →
  rec (Valid y false) sx = (o, sx1) →
  cloneArray rec (Valid (VArray t l) false) s = (Ret (pv, None), s') →
  ∃ rv, o = Ret (rv, None)
        ∧ ∀ r, rv = Some r → fits t r →
               ∃ cl, pv = Some cl ∧ stored (VArray t l) s (At i) y sx sx1 r cl s'.
Proof.
  intros Hpre Hy Hty Hrec Hrun.
  set (src := Valid (VArray t l) false) in *.
  assert (Hi : i < length l) by (by eapply lookup_lt_Some).
  (* the rounds before *)
  destruct (for_acc_post (cloneArray_elem rec src)
              (λ _ a st, ∃ l1, a = VArray t l1 ∧ length l1 = length l
                               ∧ heap s ⊆ heap st) i) with
    (from := 0) (a := zero (TArray (length l) t)) (s := s) (a' := acc) (s' := sx)
    as (l1 & -> & Hlen1 & Hg1).
  { intros j a st a' st' Hb (l0 & -> & Hl0 & Hg0).
    destruct (cloneArray_elem_shape _ _ _ _ _ _ _ Hb) as (l2 & -> & Hl2 & Hg2 & _).
    exists l2. split; [done|]. split; [congruence|by etrans]. }
  { done. }
  { exists (replicate (length l) (zero t)). by rewrite length_replicate. }
  (* the round of the child *)
  unfold cloneArray in Hrun.
  unfold bind at 1 in Hrun. cbn [Type_ ret typeof src] in Hrun.
  unfold bind at 1 in Hrun. cbn [Len ret src] in Hrun.
  unfold bind at 1 in Hrun. fold src in Hrun.
  replace (length l) with (i + S (length l - S i)) in Hrun at 1 by lia.
  rewrite (for_acc_split _ _ _ _ _ _ _ _ Hpre) in Hrun. cbn [for_acc Nat.add] in Hrun.
  unfold bind at 1 in Hrun. unfold cloneArray_elem at 1 in Hrun.
  unfold bind at 1 in Hrun. unfold src at 1 in Hrun. cbn [Index] in Hrun.
  rewrite Hy in Hrun. cbn [ret] in Hrun.
  unfold bind at 1 in Hrun. rewrite Hrec in Hrun.
  destruct o as [[rv [e|]]|m|]; try done.
  exists rv. split; [done|]. intros r -> Hfit. cbn [snd fst] in Hrun.
  unfold bind at 1 in Hrun. cbn [SetArrayIndex ValueOf] in Hrun.
  destruct (decide (i < length l1)) as [Hil|]; [|lia].
  unfold bind at 1 in Hrun. rewrite Set_fits in Hrun by done. cbn [ret] in Hrun.
  (* the rounds after *)
  destruct (for_acc (cloneArray_elem rec src) (S i) (length l - S i)
              (VArray t (<[i:=boxed t r]> l1)) sx1)
    as [[[early|clone]|?|] sf] eqn:Hrest; try done.
  { pose proof (cloneArray_early _ _ _ _ _ _ _ Hrest) as He.
    cbn [ret] in Hrun. injection Hrun as -> _. by destruct He. }
  unfold bind at 1 in Hrun. cbn [UpdateStats ret] in Hrun.
  injection Hrun as <- <-. eexists; split; [reflexivity|]. cbn [heap].
  destruct (for_acc_post (cloneArray_elem rec src)
              (λ j a st, i < j ∧ ∃ l2, a = VArray t l2 ∧ length l2 = length l
                                     ∧ l2 !! i = Some (boxed t r)
                                     ∧ heap sx1 ⊆ heap st) (length l - S i)) with
    (from := S i) (a := VArray t (<[i:=boxed t r]> l1)) (s := sx1)
    (a' := clone) (s' := sf)
    as (_ & l2 & -> & Hlen2 & Hi2 & Hg2).
  { intros j a st a' st' Hb (Hij & l0 & -> & Hl0 & Hi0 & Hg0).
    destruct (cloneArray_elem_shape _ _ _ _ _ _ _ Hb) as (l3 & -> & Hl3 & Hg3 & Hk).
    split; [lia|]. exists l3. split; [done|]. split; [congruence|].
    split; [rewrite Hk by lia; done|by etrans]. }
  { done. }
  { split; [lia|]. eexists. split; [done|].
    split; [by rewrite length_insert|].
    split; [apply list_lookup_insert_eq; lia|done]. }
  split; [cbn; by rewrite Hlen2|].
  split; [by apply subseteq_dom|]. split.
  - intros b Hb _. cbn [heap]. apply elem_of_dom in Hb as [o Ho].
    by rewrite Ho, (lookup_weaken _ _ _ _ Ho Hg2).
  - intros H _. cbn [boxed typeof locate]. by rewrite Hi2, Hty.
Qed.

Lemma struct_type_of_names n (gs fs : list (string * type * value)) :
  map fst gs = map fst fs → typeof (VStruct n gs) = typeof (VStruct n fs).
Proof.
  intros H. cbn. f_equal.
  transitivity (map (λ p : string * type, (p.1, p.2)) (map fst gs)).
  - rewrite map_map. done.
  - rewrite H, map_map. done.
Qed.

(** A round of [cloneStruct] keeps the names and types of the fields of
    the clone under construction and all fields but its own. *)
Lemma cloneStruct_field_shape src j n gs s acc' s' :
  cloneStruct_field rec src j (VStruct n gs) s = (Ret (inr acc'), s') →
  ∃ gs1, acc' = VStruct n gs1 ∧ map fst gs1 = map fst gs ∧ heap s ⊆ heap s'
         ∧ ∀ i, i ≠ j → gs1 !! i = gs !! i.
Proof.
  unfold cloneStruct_field. intros Hrun.
  unfold bind at 1 in Hrun.
  destruct (Field src j s) as [[e|?|] s0] eqn:HF; try done.
  apply run_state in HF as ->; [|apply Field_state].
  unfold bind at 1 in Hrun.
  destruct (Field (Valid (VStruct n gs) false) j s) as [[e'|?|] s0] eqn:HF'; try done.
  apply run_state in HF' as ->; [|apply Field_state].
  destruct (CanSet e').
  2:{ injection Hrun as <- <-. by exists gs. }
  unfold bind at 1 in Hrun.
  destruct (rec e s) as [[r|?|] s1] eqn:Hr; try done.
  pose proof (rec_grows _ _ _ _ Hr) as Hg.
  destruct r.2; [by injection Hrun|].
  destruct (negb (IsValid e')); [by injection Hrun|].
  destruct r.1 as [r1|].
  2:{ injection Hrun as <- <-. by exists gs. }
  unfold bind at 1 in Hrun.
  destruct (SetField (VStruct n gs) j (ValueOf (Some r1)) s1) as [[c|?|] s2] eqn:HS;
    try done.
  pose proof (run_state _ _ _ _ HS (SetField_state _ _ _ _)) as ->.
  injection Hrun as <- <-.
  unfold SetField in HS. destruct (gs !! j) as [g|] eqn:Hg'; [|done].
  unfold bind in HS. destruct (Set_ g.1.2 (ValueOf (Some r1)) s1) as [[y|?|] s3]; try done.
  injection HS as <- _. eexists. split; [done|]. split; [|split; [done|]].
  - rewrite !map_fmap, list_fmap_insert. cbn.
    apply list_insert_id. by rewrite list_lookup_fmap, Hg'.
  - intros i Hne. by rewrite list_lookup_insert_ne.
Qed.

Lemma cloneStruct_early src n :
  ∀ from acc s c s',
    for_acc (cloneStruct_field rec src) from n acc s = (Ret (inl c), s') → c.2 ≠ None.
Proof.
  intros from acc s c s' Hrun.
  eapply (yields_for_acc (λ r : cloned + value, ∀ c, r = inl c → c.2 ≠ None));
    [done| |exact Hrun|done].
  intros j a s0 [c0|a0] s1 Hb c1; [|done]. intros [= <-].
  unfold cloneStruct_field in Hb. unfold bind, ret in Hb.
  repeat (case_match; simplify_eq/=; try done).
Qed.

Lemma stored_field n fs s i acc sx f o sx1 pv s' :
  for_acc (cloneStruct_field rec (Valid (VStruct n fs) false))
    0 i (zero (typeof (VStruct n fs))) s = (Ret (inr acc), sx) →
  fs !! i = Some f →
  exported f.1.1 = true →
  typeof f.2 = f.1.2 →
  rec (Valid f.2 false) sx = (o, sx1) →
  cloneStruct rec (Valid (VStruct n fs) false) s = (Ret (pv, None), s') →
  ∃ rv, o = Ret (rv, None)
        ∧ ∀ r, rv = Some r → fits f.1.2 r →
               ∃ cl, pv = Some cl ∧ stored (VStruct n fs) s (FieldAt i) f.2 sx sx1 r cl s'.
Proof.
  intros Hpre Hf Hex Hty Hrec Hrun.
  set (src := Valid (VStruct n fs) false) in *.
  assert (Hi : i < length fs) by (by eapply lookup_lt_Some).
  (* the rounds before *)
  destruct (for_acc_post (cloneStruct_field rec src)
              (λ _ a st, ∃ gs, a = VStruct n gs ∧ map fst gs = map fst fs
                               ∧ heap s ⊆ heap st) i) with
    (from := 0) (a := zero (typeof (VStruct n fs))) (s := s) (a' := acc) (s' := sx)
    as (gs & -> & Hnames & Hg1).
  { intros j a st a' st' Hb (g0 & -> & Hn0 & Hg0).
    destruct (cloneStruct_field_shape _ _ _ _ _ _ _ Hb) as (g2 & -> & Hn2 & Hg2 & _).
    exists g2. split; [done|]. split; [congruence|by etrans]. }
  { done. }
  { rewrite zero_typeof_struct. eexists. split; [done|]. split; [|done].
    rewrite map_map. by apply map_ext. }
  assert (Hg : ∃ g, gs !! i = Some g ∧ g.1 = f.1) .
  { apply (f_equal (λ l, l !! i)) in Hnames.
    rewrite !map_fmap, !list_lookup_fmap, Hf in Hnames. cbn in Hnames.
    destruct (gs !! i) as [g|]; [|done]. exists g. split; [done|].
    by simplify_eq/=. }
  destruct Hg as (g & Hgi & Hgf).
  (* the round of the child *)
  unfold cloneStruct in Hrun.
  unfold bind at 1 in Hrun. cbn [Type_ ret src] in Hrun.
  unfold bind at 1 in Hrun. cbn [NumField ret src] in Hrun.
  unfold bind at 1 in Hrun. fold src in Hrun.
  replace (length fs) with (i + S (length fs - S i)) in Hrun at 1 by lia.
  rewrite (for_acc_split _ _ _ _ _ _ _ _ Hpre) in Hrun. cbn [for_acc Nat.add] in Hrun.
  unfold bind at 1 in Hrun. unfold cloneStruct_field at 1 in Hrun.
  unfold bind at 1 in Hrun. unfold src at 1 in Hrun. cbn [Field] in Hrun.
  rewrite Hf in Hrun. cbn [ret] in Hrun.
  unfold bind at 1 in Hrun. rewrite Hgi in Hrun. cbn [ret] in Hrun.
  rewrite Hgf, Hex in Hrun. cbn [negb orb CanSet IsValid] in Hrun.
  unfold bind at 1 in Hrun. rewrite Hrec in Hrun.
  destruct o as [[rv [e|]]|m|]; try done.
  exists rv. split; [done|]. intros r -> Hfit. cbn [snd fst] in Hrun.
  unfold bind at 1 in Hrun. cbn [SetField ValueOf] in Hrun. rewrite Hgi in Hrun.
  unfold bind at 1 in Hrun. rewrite Hgf in Hrun.
  rewrite Set_fits in Hrun by done. cbn [ret] in Hrun.
  (* the rounds after *)
  destruct (for_acc (cloneStruct_field rec src) (S i) (length fs - S i)
              (VStruct n (<[i:=(f.1, boxed f.1.2 r)]> gs)) sx1)
    as [[[early|clone]|?|] sf] eqn:Hrest; try done.
  { pose proof (cloneStruct_early _ _ _ _ _ _ _ Hrest) as He.
    cbn [ret] in Hrun. injection Hrun as -> _. by destruct He. }
  unfold bind at 1 in Hrun. cbn [UpdateStats ret] in Hrun.
  injection Hrun as <- <-. eexists; split; [reflexivity|].
  destruct (for_acc_post (cloneStruct_field rec src)
              (λ j a st, i < j ∧ ∃ g2, a = VStruct n g2 ∧ map fst g2 = map fst fs
                                     ∧ g2 !! i = Some (f.1, boxed f.1.2 r)
                                     ∧ heap sx1 ⊆ heap st) (length fs - S i)) with
    (from := S i) (a := VStruct n (<[i:=(f.1, boxed f.1.2 r)]> gs)) (s := sx1)
    (a' := clone) (s' := sf)
    as (_ & g2 & -> & Hn2 & Hi2 & Hg2).
  { intros j a st a' st' Hb (Hij & g0 & -> & Hn0 & Hi0 & Hg0).
    destruct (cloneStruct_field_shape _ _ _ _ _ _ _ Hb) as (g3 & -> & Hn3 & Hg3 & Hk).
    split; [lia|]. exists g3. split; [done|]. split; [congruence|].
    split; [rewrite Hk by lia; done|by etrans]. }
  { done. }
  { split; [lia|]. eexists. split; [done|]. split; [|split].
    - rewrite <- Hnames, !map_fmap, list_fmap_insert. cbn.
      apply list_insert_id. by rewrite list_lookup_fmap, Hgi, <- Hgf.
    - apply list_lookup_insert_eq. by eapply lookup_lt_Some.
    - done. }
  split.
  { pose proof (struct_type_of_names n g2 fs Hn2) as E. cbn in E |- *. exact E. }
  split; [by apply subseteq_dom|]. split.
  - intros b Hb _. cbn [heap]. apply elem_of_dom in Hb as [o Ho].
    by rewrite Ho, (lookup_weaken _ _ _ _ Ho Hg2).
  - intros H _. cbn [boxed typeof locate]. by rewrite Hi2, Hty.
Qed.

Lemma Set_state T x s : (Set_ T x s).2 = s.
Proof.
  unfold Set_, assignTo. run. repeat (case_match; simplify_eq/=; try done).
Qed.

(** A round of [cloneSlice] writes one element of the backing array of
    the clone under construction and nothing else that was there. *)
Lemma cloneSlice_elem_round src t a0 len cap j s s' l0 :
  cloneSlice_elem rec src (VSlice t (Some (a0, len, cap))) j s = (Ret None, s') →
  heap s !! a0 = Some (OArray l0) →
  ∃ l1, heap s' !! a0 = Some (OArray l1) ∧ length l1 = length l0
        ∧ (∀ i, i ≠ j → l1 !! i = l0 !! i)
        ∧ (∀ b, b ≠ a0 → b ∈ dom (heap s) → heap s' !! b = heap s !! b)
        ∧ dom (heap s) ⊆ dom (heap s').
Proof.
  unfold cloneSlice_elem. intros Hrun Ha0.
  unfold bind at 1 in Hrun.
  destruct (Index src j s) as [[e|?|] s0] eqn:HI; try done.
  apply run_state in HI as ->; [|apply Index_state].
  unfold bind at 1 in Hrun.
  destruct (rec e s) as [[r|?|] s1] eqn:Hr; try done.
  pose proof (rec_grows _ _ _ _ Hr) as Hg.
  pose proof (lookup_weaken _ _ _ _ Ha0 Hg) as Ha1.
  destruct r.2; [by injection Hrun|].
  unfold bind at 1 in Hrun. unfold SetIndex in Hrun. cbn [fst snd] in Hrun.
  destruct (decide (j < len)); [|done].
  unfold bind at 1 in Hrun. cbn [get] in Hrun. rewrite Ha1 in Hrun.
  unfold bind at 1 in Hrun.
  destruct (Set_ t (ValueOf r.1) s1) as [[y|?|] s2] eqn:HS; try done.
  pose proof (run_state _ _ _ _ HS (Set_state _ _ _)) as ->.
  cbn [store ret] in Hrun. injection Hrun as <-. cbn [heap].
  exists (<[j:=y]> l0). split; [by rewrite lookup_insert_eq|].
  split; [by rewrite length_insert|].
  split; [intros i Hne; by rewrite list_lookup_insert_ne|]. split.
  - intros b Hb Hd. rewrite lookup_insert_ne by done.
    apply elem_of_dom in Hd as [o Ho].
    by rewrite Ho, (lookup_weaken _ _ _ _ Ho Hg).
  - etrans; [by apply subseteq_dom|]. rewrite dom_insert. set_solver.
Qed.

Lemma cloneSlice_early src clone n :
  ∀ from s c s',
    for_range (cloneSlice_elem rec src clone) from n s = (Ret (Some c), s') →
    c.2 ≠ None.
Proof.
  intros from s c s' Hrun.
  eapply (yields_for_range (λ r : option cloned, ∀ c, r = Some c → c.2 ≠ None));
    [done| |exact Hrun|done].
  intros j s0 [c0|] s1 Hb c1; [|done]. intros [= <-].
  unfold cloneSlice_elem in Hb. unfold bind, ret in Hb.
  repeat (case_match; simplify_eq/=; try done).
Qed.

Lemma stored_slice t a len cap s clone s0 i sx y o sx1 pv s' :
  visited s !! a = None →
  MakeSlice (TSlice t) len cap s = (Ret clone, s0) →
  i < len →
  for_range (cloneSlice_elem rec (Valid (VSlice t (Some (a, len, cap))) false) clone)
    0 i (set_visited a clone s0).2 = (Ret None, sx) →
  Index (Valid (VSlice t (Some (a, len, cap))) false) i sx
    = (Ret (Valid y false), sx) →
  typeof y = t →
  rec (Valid y false) sx = (o, sx1) →
  cloneSlice rec (Valid (VSlice t (Some (a, len, cap))) false) s
    = (Ret (pv, None), s') →
  ∃ rv, o = Ret (rv, None)
        ∧ ∀ r, rv = Some r → fits t r →
               ∃ cl, pv = Some cl
                     ∧ stored (VSlice t (Some (a, len, cap))) s (At i) y sx sx1 r cl s'.
Proof.
  intros Hvis Hmake Hi Hpre Hidx Hty Hrec Hrun.
  set (src := Valid (VSlice t (Some (a, len, cap))) false) in *.
  set (a0 := fresh_addr (heap s)).
  assert (Hfresh : heap s !! a0 = None) by apply fresh_addr_None.
  assert (Hcap : len ≤ cap ∧ clone = VSlice t (Some (a0, len, cap))
                 ∧ s0 = State (<[a0 := OArray (replicate cap (zero t))]> (heap s))
                          (visited s) (stats s)).
  { cbn [MakeSlice] in Hmake. destruct (decide (len ≤ cap)); [|done].
    unfold bind in Hmake. cbn [alloc ret] in Hmake. by injection Hmake as <- <-. }
  destruct Hcap as (Hle & -> & ->). cbn [set_visited snd heap visited stats] in Hpre.
  (* the rounds before *)
  destruct (for_range_post (cloneSlice_elem rec src (VSlice t (Some (a0, len, cap))))
              (λ _ st, ∃ l1, heap st !! a0 = Some (OArray l1) ∧ length l1 = cap
                             ∧ dom (heap s) ⊆ dom (heap st)) i)
    with (from := 0) (s' := sx)
         (s := State (<[a0 := OArray (replicate cap (zero t))]> (heap s))
                 (<[a := VSlice t (Some (a0, len, cap))]> (visited s)) (stats s))
    as (l1 & Hl1 & Hlen1 & Hd1).
  { intros j st st' Hb (l0 & Hl0 & Hlen0 & Hd0).
    destruct (cloneSlice_elem_round _ _ _ _ _ _ _ _ _ Hb Hl0)
      as (l2 & Hl2 & Hlen2 & _ & _ & Hd2).
    exists l2. split; [done|]. split; [congruence|by etrans]. }
  { done. }
  { cbn [heap]. eexists. rewrite lookup_insert_eq. split; [done|].
    split; [by rewrite length_replicate|]. rewrite dom_insert. set_solver. }
  cbn [Nat.add] in *.
  (* the round of the child *)
  unfold cloneSlice in Hrun. unfold src in Hrun.
  unfold bind at 1 in Hrun. cbn [IsNil ret] in Hrun.
  rewrite bool_decide_eq_false_2 in Hrun by done.
  unfold bind at 1 in Hrun. cbn [Pointer ret default fst snd fmap option_fmap option_map]
    in Hrun. unfold id in Hrun.
  unfold bind at 1 in Hrun. cbn [get] in Hrun. rewrite Hvis in Hrun.
  unfold bind at 1 in Hrun. cbn [Type_ ret typeof] in Hrun.
  unfold bind at 1 in Hrun. cbn [Len ret fst snd] in Hrun.
  unfold bind at 1 in Hrun. cbn [Cap ret fst snd] in Hrun.
  unfold bind at 1 in Hrun. cbn [MakeSlice] in Hrun.
  destruct (decide (len ≤ cap)) as [_|]; [|lia].
  unfold bind at 1 in Hrun. cbn [alloc ret] in Hrun. fold a0 in Hrun.
  unfold bind at 1 in Hrun. cbn [set_visited heap visited stats] in Hrun.
  unfold bind at 1 in Hrun. fold src in Hrun.
  pose proof (for_range_split _ i (S (len - S i)) _ _ _ Hpre) as Hsplit.
  replace (i + S (len - S i)) with len in Hsplit by lia.
  rewrite Hsplit in Hrun. clear Hsplit.
  cbn [for_range Nat.add] in Hrun.
  unfold bind at 1 in Hrun. unfold cloneSlice_elem at 1 in Hrun.
  unfold bind at 1 in Hrun. rewrite Hidx in Hrun.
  unfold bind at 1 in Hrun. rewrite Hrec in Hrun.
  destruct o as [[rv [e|]]|m|]; try done.
  exists rv. split; [done|]. intros r -> Hfit. cbn [snd fst] in Hrun.
  pose proof (rec_grows _ _ _ _ Hrec) as Hgrow.
  pose proof (lookup_weaken _ _ _ _ Hl1 Hgrow) as Hl1'.
  unfold bind at 1 in Hrun. unfold SetIndex in Hrun. cbn [fst snd ValueOf] in Hrun.
  destruct (decide (i < len)) as [_|]; [|lia].
  unfold bind at 1 in Hrun. cbn [get] in Hrun. rewrite Hl1' in Hrun.
  unfold bind at 1 in Hrun. rewrite Set_fits in Hrun by done.
  cbn [store ret] in Hrun.
  set (si := State (<[a0:=OArray (<[i:=boxed t r]> l1)]> (heap sx1))
               (visited sx1) (stats sx1)) in Hrun.
  (* the rounds after *)
  destruct (for_range (cloneSlice_elem rec src (VSlice t (Some (a0, len, cap))))
              (S i) (len - S i) si) as [[[early|]|?|] sf] eqn:Hrest; try done.
  { pose proof (cloneSlice_early _ _ _ _ _ _ _ Hrest) as He.
    cbn [ret] in Hrun. injection Hrun as -> _. by destruct He. }
  unfold bind at 1 in Hrun. cbn [UpdateStats ret] in Hrun.
  injection Hrun as <- <-. eexists; split; [reflexivity|].
  destruct (for_range_post (cloneSlice_elem rec src (VSlice t (Some (a0, len, cap))))
              (λ j st, i < j ∧ ∃ l2, heap st !! a0 = Some (OArray l2)
                         ∧ length l2 = cap ∧ l2 !! i = Some (boxed t r)
                         ∧ ∀ b, b ≠ a0 → b ∈ dom (heap sx1) →
                                heap st !! b = heap sx1 !! b) (len - S i))
    with (from := S i) (s := si) (s' := sf)
    as (_ & l2 & Hl2 & Hlen2 & Hi2 & Hsame).
  { intros j st st' Hb (Hij & l0 & Hl0 & Hlen0 & Hi0 & Hs0).
    destruct (cloneSlice_elem_round _ _ _ _ _ _ _ _ _ Hb Hl0)
      as (l3 & Hl3 & Hlen3 & Hk & Hother & _).
    split; [lia|]. exists l3. split; [done|]. split; [congruence|].
    split; [rewrite Hk by lia; done|].
    intros b Hb0 Hd. rewrite Hother; [by apply Hs0|done|].
    apply elem_of_dom. rewrite Hs0 by done. by apply elem_of_dom. }
  { done. }
  { split; [lia|]. unfold si. cbn [heap]. eexists. rewrite lookup_insert_eq.
    split; [done|]. split; [by rewrite length_insert|].
    split; [apply list_lookup_insert_eq; lia|].
    intros b Hb0 _. by rewrite lookup_insert_ne. }
  assert (Ha0x : a0 ∈ dom (heap sx)) by (apply elem_of_dom; eauto).
  split; [done|]. split; [done|]. split.
  - intros b Hb Hnb. cbn [heap]. apply Hsame; [|done]. by intros ->.
  - intros H HH. unfold keeps_new in HH. cbn [heap] in HH.
    cbn [boxed typeof locate fst snd].
    rewrite (HH a0).
    + rewrite Hl2. destruct (decide (i < len)); [|lia]. by rewrite Hi2, Hty.
    + apply elem_of_dom. eauto.
    + by apply not_elem_of_dom.
Qed.

Lemma map_get_set_eq k x es : map_get k (map_set k x es) = Some x.
Proof.
  induction es as [|e es IH]; cbn.
  - by rewrite value_eqb_refl.
  - destruct (value_eqb e.1 k) eqn:E; cbn.
    + by rewrite value_eqb_refl.
    + by rewrite E.
Qed.

Lemma map_get_set_ne k k' x es :
  k' ≠ k → map_get k' (map_set k x es) = map_get k' es.
Proof.
  intros Hne. induction es as [|e es IH]; cbn.
  - by rewrite value_eqb_neq.
  - destruct (value_eqb e.1 k) eqn:E; cbn.
    + apply value_eqb_eq in E. rewrite E. by rewrite value_eqb_neq.
    + by rewrite IH.
Qed.

Lemma map_get_delete_ne k k' es :
  k' ≠ k → map_get k' (map_delete k es) = map_get k' es.
Proof.
  intros Hne. induction es as [|e es IH]; cbn; [done|].
  destruct (value_eqb e.1 k) eqn:E; cbn.
  - apply value_eqb_eq in E. rewrite E. by rewrite value_eqb_neq.
  - by rewrite IH.
Qed.

(** A round of [cloneMap] for a key that is cloned as it is writes the
    entry of that key in the clone under construction and nothing else
    that was there. *)
Lemma cloneMap_entry_round src kt et a0 kx s s' acc :
  typeof kx = kt →
  (∀ st, rec (Valid kx false) st = (Ret (Some kx, None), st)) →
  cloneMap_entry rec src (VMap kt et (Some a0)) (Valid kx false) s = (Ret None, s') →
  heap s !! a0 = Some (OMap acc) →
  ∃ acc1, heap s' !! a0 = Some (OMap acc1)
          ∧ (∀ k', k' ≠ kx → map_get k' acc1 = map_get k' acc)
          ∧ (∀ b, b ≠ a0 → b ∈ dom (heap s) → heap s' !! b = heap s !! b)
          ∧ dom (heap s) ⊆ dom (heap s').
Proof.
  unfold cloneMap_entry. intros Hkt Hkey Hrun Ha0.
  unfold bind at 1 in Hrun. rewrite Hkey in Hrun. cbn [snd fst] in Hrun.
  unfold bind at 1 in Hrun.
  destruct (MapIndex src (Valid kx false) s) as [[v|?|] s0] eqn:HI; try done.
  apply run_state in HI as ->; [|apply MapIndex_state].
  unfold bind at 1 in Hrun.
  destruct (rec v s) as [[rv|?|] s1] eqn:Hr; try done.
  pose proof (rec_grows _ _ _ _ Hr) as Hg.
  pose proof (lookup_weaken _ _ _ _ Ha0 Hg) as Ha1.
  destruct rv.2; [by injection Hrun|].
  unfold bind at 1 in Hrun. cbn [SetMapIndex ValueOf] in Hrun.
  unfold bind at 1 in Hrun. rewrite assignTo_same in Hrun by done.
  assert (Hframe : ∀ o, (∀ b, b ≠ a0 → b ∈ dom (heap s) →
                               <[a0:=o]> (heap s1) !! b = heap s !! b)
                        ∧ dom (heap s) ⊆ dom (<[a0:=o]> (heap s1))).
  { intros o. split.
    - intros b Hb Hd. rewrite lookup_insert_ne by done.
      apply elem_of_dom in Hd as [o' Ho].
      by rewrite Ho, (lookup_weaken _ _ _ _ Ho Hg).
    - etrans; [by apply subseteq_dom|]. rewrite dom_insert. set_solver. }
  destruct (ValueOf rv.1) as [|x ro].
  - unfold bind at 1 in Hrun. cbn [get] in Hrun. rewrite Ha1 in Hrun.
    cbn [store] in Hrun. unfold ret in Hrun. injection Hrun as <-. cbn [heap].
    exists (map_delete kx acc). rewrite lookup_insert_eq. split; [done|].
    split; [intros k' Hk'; by apply map_get_delete_ne|apply Hframe].
  - destruct ro; [done|].
    unfold bind at 1 in Hrun.
    destruct (assignTo "reflect.Value.SetMapIndex" et x s1) as [[x'|?|] s2] eqn:HA;
      try done.
    assert (s2 = s1) as ->.
    { unfold assignTo in HA. unfold ret, panic in HA.
      repeat (case_match; simplify_eq/=; try done). }
    unfold bind at 1 in Hrun. cbn [get] in Hrun. rewrite Ha1 in Hrun.
    cbn [store] in Hrun. unfold ret in Hrun. injection Hrun as <-. cbn [heap].
    exists (map_set kx x' acc). rewrite lookup_insert_eq. split; [done|].
    split; [intros k' Hk'; by apply map_get_set_ne|apply Hframe].
Qed.

Lemma cloneMap_early src clone keys :
  ∀ s c s',
    for_each (cloneMap_entry rec src clone) keys s = (Ret (Some c), s') →
    c.2 ≠ None.
Proof.
  intros s c s' Hrun.
  eapply (yields_for_each (λ r : option cloned, ∀ c, r = Some c → c.2 ≠ None));
    [done| |exact Hrun|done].
  intros x s0 [c0|] s1 Hb c1; [|done]. intros [= <-].
  unfold cloneMap_entry in Hb. unfold bind, ret in Hb.
  repeat (case_match; simplify_eq/=; try done).
Qed.

Lemma stored_map_value k e a s es clone s0 j kx y sk sx o sx1 pv s' :
  visited s !! a = None →
  heap s !! a = Some (OMap es) →
  NoDup (map fst es) →
  (∀ kv, kv ∈ es →
     typeof kv.1 = k
     ∧ ∀ st, rec (Valid kv.1 false) st = (Ret (Some kv.1, None), st)) →
  MakeMapWithSize (TMap k e) (length es) s = (Ret clone, s0) →
  es !! j = Some (kx, y) →
  for_each (cloneMap_entry rec (Valid (VMap k e (Some a)) false) clone)
    (map (λ kv : value * value, Valid kv.1 false) (take j es))
    (set_visited a clone s0).2 = (Ret None, sk) →
  rec (Valid kx false) sk = (Ret (Some kx, None), sx) →
  typeof y = e →
  rec (Valid y false) sx = (o, sx1) →
  cloneMap rec (Valid (VMap k e (Some a)) false) s = (Ret (pv, None), s') →
  ∃ rv, o = Ret (rv, None)
        ∧ ∀ r, rv = Some r → fits e r →
               ∃ cl, pv = Some cl ∧ stored (VMap k e (Some a)) s (Key kx) y sx sx1 r cl s'.
Proof.
  intros Hvis Hheap Hnd Hkeys Hmake Hj Hpre Hkx Hty Hrec Hrun.
  set (src := Valid (VMap k e (Some a)) false) in *.
  set (a0 := fresh_addr (heap s)).
  assert (Hfresh : heap s !! a0 = None) by apply fresh_addr_None.
  assert (Hne : a ≠ a0) by (intros E; rewrite E in Hheap; congruence).
  assert (Hcl : clone = VMap k e (Some a0)
                ∧ s0 = State (<[a0 := OMap []]> (heap s)) (visited s) (stats s)).
  { cbn [MakeMapWithSize] in Hmake. unfold bind in Hmake.
    cbn [alloc ret] in Hmake. by injection Hmake as <- <-. }
  destruct Hcl as (-> & ->). cbn [set_visited snd heap visited stats] in Hpre.
  assert (Hin : (kx, y) ∈ es) by (by eapply list_elem_of_lookup_2).
  destruct (Hkeys _ Hin) as [Hkt Hkself]. cbn [fst] in Hkt, Hkself.
  assert (sx = sk) as ->.
  { rewrite Hkself in Hkx. by injection Hkx. }
  (* the rounds before *)
  destruct (for_each_post (cloneMap_entry rec src (VMap k e (Some a0)))
              (λ _ st, ∃ acc, heap st !! a0 = Some (OMap acc)
                              ∧ heap st !! a = Some (OMap es)
                              ∧ dom (heap s) ⊆ dom (heap st))
              (map (λ kv : value * value, Valid kv.1 false) (take j es)))
    with (s' := sk)
         (s := State (<[a0 := OMap []]> (heap s))
                 (<[a := VMap k e (Some a0)]> (visited s)) (stats s))
    as (acc & Hacc & Hsrc & Hd1).
  { intros i x st st' Hx Hb (acc0 & Hacc0 & Hsrc0 & Hd0).
    rewrite map_fmap, list_lookup_fmap in Hx.
    destruct (take j es !! i) as [kv|] eqn:Hkv; [|done]. injection Hx as <-.
    assert (Hkvin : kv ∈ es).
    { apply (list_elem_of_lookup_2 _ i). by eapply lookup_take_Some. }
    destruct (Hkeys _ Hkvin) as [Hkvt Hkvself].
    destruct (cloneMap_entry_round _ _ _ _ _ _ _ _ Hkvt Hkvself Hb Hacc0)
      as (acc1 & Hacc1 & _ & Hother & Hd).
    exists acc1. split; [done|]. split; [|by etrans].
    rewrite Hother; [done|done|]. apply elem_of_dom. eauto. }
  { done. }
  { cbn [heap]. exists []. rewrite lookup_insert_eq. split; [done|].
    rewrite lookup_insert_ne by done. split; [done|].
    rewrite dom_insert. apply union_subseteq_r. }
  (* the round of the child *)
  unfold cloneMap in Hrun. unfold src in Hrun.
  unfold bind at 1 in Hrun. cbn [IsNil ret] in Hrun.
  rewrite bool_decide_eq_false_2 in Hrun by done.
  unfold bind at 1 in Hrun. cbn [Pointer ret default] in Hrun. unfold id in Hrun.
  unfold bind at 1 in Hrun. cbn [get] in Hrun. rewrite Hvis in Hrun.
  unfold bind at 1 in Hrun. cbn [Type_ ret typeof] in Hrun.
  unfold bind at 1 in Hrun. cbn [Len] in Hrun.
  unfold bind at 1 in Hrun. cbn [get] in Hrun. rewrite Hheap in Hrun. cbn [ret] in Hrun.
  unfold bind at 1 in Hrun. cbn [MakeMapWithSize] in Hrun.
  unfold bind at 1 in Hrun. cbn [alloc ret] in Hrun. fold a0 in Hrun.
  unfold bind at 1 in Hrun. cbn [set_visited heap visited stats] in Hrun.
  unfold bind at 1 in Hrun. cbn [MapKeys] in Hrun.
  unfold bind at 1 in Hrun. cbn [get heap] in Hrun.
  rewrite lookup_insert_ne in Hrun by done. rewrite Hheap in Hrun. cbn [ret] in Hrun.
  fold src in Hrun.
  unfold bind at 1 in Hrun.
  rewrite <- (take_drop_middle es j (kx, y) Hj) in Hrun at 1.
  rewrite map_app in Hrun. cbn [map fst] in Hrun.
  rewrite (for_each_split _ _ _ _ _ Hpre) in Hrun.
  cbn [for_each] in Hrun.
  unfold bind at 1 in Hrun. unfold cloneMap_entry at 1 in Hrun.
  unfold bind at 1 in Hrun. rewrite Hkself in Hrun. cbn [snd fst] in Hrun.
  unfold bind at 1 in Hrun. unfold src at 1 in Hrun. cbn [MapIndex] in Hrun.
  unfold bind at 1 in Hrun. cbn [get] in Hrun. rewrite Hsrc in Hrun.
  pose proof (map_get_lookup es j (kx, y) Hnd Hj) as Hgetk. cbn [fst snd] in Hgetk.
  rewrite Hgetk in Hrun. clear Hgetk. cbn [ret snd] in Hrun.
  unfold bind at 1 in Hrun. rewrite Hrec in Hrun.
  destruct o as [[rv [err|]]|m|]; try done.
  exists rv. split; [done|]. intros r -> Hfit. cbn [snd fst] in Hrun.
  pose proof (rec_grows _ _ _ _ Hrec) as Hgrow.
  pose proof (lookup_weaken _ _ _ _ Hacc Hgrow) as Hacc'.
  unfold bind at 1 in Hrun. cbn [SetMapIndex ValueOf] in Hrun.
  unfold bind at 1 in Hrun. rewrite assignTo_same in Hrun by done.
  unfold bind at 1 in Hrun. rewrite assignTo_fits in Hrun by done.
  unfold bind at 1 in Hrun. cbn [get] in Hrun. rewrite Hacc' in Hrun.
  cbn [store ret] in Hrun.
  set (si := State (<[a0:=OMap (map_set kx (boxed e r) acc)]> (heap sx1))
               (visited sx1) (stats sx1)) in Hrun.
  (* the rounds after *)
  destruct (for_each (cloneMap_entry rec src (VMap k e (Some a0)))
              (map (λ kv : value * value, Valid kv.1 false) (drop (S j) es)) si)
    as [[[early|]|?|] sf] eqn:Hrest; try done.
  { pose proof (cloneMap_early _ _ _ _ _ _ Hrest) as He.
    cbn [ret] in Hrun. injection Hrun as -> _. by destruct He. }
  unfold bind at 1 in Hrun. cbn [UpdateStats ret] in Hrun.
  injection Hrun as <- <-. eexists; split; [reflexivity|].
  destruct (for_each_post (cloneMap_entry rec src (VMap k e (Some a0)))
              (λ _ st, ∃ acc2, heap st !! a0 = Some (OMap acc2)
                         ∧ map_get kx acc2 = Some (boxed e r)
                         ∧ ∀ b, b ≠ a0 → b ∈ dom (heap sx1) →
                                heap st !! b = heap sx1 !! b)
              (map (λ kv : value * value, Valid kv.1 false) (drop (S j) es)))
    with (s := si) (s' := sf)
    as (acc2 & Hacc2 & Hget & Hsame).
  { intros i x st st' Hx Hb (acc0 & Hacc0 & Hget0 & Hs0).
    rewrite map_fmap, list_lookup_fmap in Hx.
    destruct (drop (S j) es !! i) as [kv|] eqn:Hkv; [|done]. injection Hx as <-.
    rewrite lookup_drop in Hkv.
    assert (Hkvin : kv ∈ es) by (by eapply list_elem_of_lookup_2).
    destruct (Hkeys _ Hkvin) as [Hkvt Hkvself].
    assert (Hdiff : kx ≠ kv.1).
    { intros E.
      assert (Hj1 : map fst es !! j = Some kx).
      { by rewrite map_fmap, list_lookup_fmap, Hj. }
      assert (Hj2 : map fst es !! (S j + i) = Some kx).
      { by rewrite map_fmap, list_lookup_fmap, Hkv, E. }
      pose proof (NoDup_lookup _ _ _ _ Hnd Hj1 Hj2). lia. }
    destruct (cloneMap_entry_round _ _ _ _ _ _ _ _ Hkvt Hkvself Hb Hacc0)
      as (acc1 & Hacc1 & Hk & Hother & _).
    exists acc1. split; [done|]. split; [by rewrite Hk|].
    intros b Hb0 Hd. rewrite Hother; [by apply Hs0|done|].
    apply elem_of_dom. rewrite Hs0 by done. by apply elem_of_dom. }
  { done. }
  { unfold si. cbn [heap]. eexists. rewrite lookup_insert_eq. split; [done|].
    split; [apply map_get_set_eq|].
    intros b Hb0 _. by rewrite lookup_insert_ne. }
  assert (Ha0x : a0 ∈ dom (heap sk)) by (apply elem_of_dom; eauto).
  split; [done|]. split; [done|]. split.
  - intros b Hb Hnb. cbn [heap]. apply Hsame; [|done]. by intros ->.
  - intros H HH. unfold keeps_new in HH. cbn [heap] in HH.
    cbn [boxed typeof locate].
    rewrite (HH a0).
    + rewrite Hacc2, Hget. by rewrite Hty.
    + apply elem_of_dom. eauto.
    + by apply not_elem_of_dom.
Qed.

(** The round of an unexported field leaves the clone under construction
    as it is: [CanSet] is false and [deepClone] is not called. *)
Lemma cloneStruct_field_unexported src j n gs g s acc' s' :
  cloneStruct_field rec src j (VStruct n gs) s = (Ret (inr acc'), s') →
  gs !! j = Some g →
  exported g.1.1 = false →
  acc' = VStruct n gs.
Proof.
  unfold cloneStruct_field. intros Hrun Hg Hex.
  unfold bind at 1 in Hrun.
  destruct (Field src j s) as [[e|?|] s0] eqn:HF; try done.
  apply run_state in HF as ->; [|apply Field_state].
  unfold bind at 1 in Hrun. cbn [Field] in Hrun. rewrite Hg in Hrun.
  cbn [ret] in Hrun. rewrite Hex in Hrun. cbn [negb orb CanSet] in Hrun.
  by injection Hrun as <- _.
Qed.

(** A round of [cloneStruct] keeps the name of the clone under
    construction and all fields but its own. *)
Lemma cloneStruct_field_others src j n gs s acc' s' :
  cloneStruct_field rec src j (VStruct n gs) s = (Ret (inr acc'), s') →
  ∃ gs1, acc' = VStruct n gs1 ∧ ∀ i, i ≠ j → gs1 !! i = gs !! i.
Proof.
  unfold cloneStruct_field. intros Hrun.
  unfold bind at 1 in Hrun.
  destruct (Field src j s) as [[e|?|] s0] eqn:HF; try done.
  apply run_state in HF as ->; [|apply Field_state].
  unfold bind at 1 in Hrun.
  destruct (Field (Valid (VStruct n gs) false) j s) as [[e'|?|] s0] eqn:HF'; try done.
  apply run_state in HF' as ->; [|apply Field_state].
  destruct (CanSet e').
  2:{ injection Hrun as <- <-. by exists gs. }
  unfold bind at 1 in Hrun.
  destruct (rec e s) as [[r|?|] s1] eqn:Hr; try done.
  destruct r.2; [by injection Hrun|].
  destruct (negb (IsValid e')); [by injection Hrun|].
  destruct r.1 as [r1|].
  2:{ injection Hrun as <- <-. by exists gs. }
  unfold bind at 1 in Hrun.
  destruct (SetField (VStruct n gs) j (ValueOf (Some r1)) s1) as [[c|?|] s2] eqn:HS;
    try done.
  injection Hrun as <- <-.
  unfold SetField in HS. destruct (gs !! j) as [g|] eqn:Hg'; [|done].
  unfold bind in HS. destruct (Set_ g.1.2 (ValueOf (Some r1)) s1) as [[y|?|] s3]; try done.
  injection HS as <- _. eexists. split; [done|].
  intros i Hne. by rewrite list_lookup_insert_ne.
Qed.

(** An unexported field of a struct that is cloned by shape holds the
    zero value of its type in the clone, whatever the source holds there. *)
Lemma unexported_field_zero n fs s i f pv s' :
  fs !! i = Some f →
  exported f.1.1 = false →
  cloneStruct rec (Valid (VStruct n fs) false) s = (Ret (pv, None), s') →
  ∃ gs, pv = Some (VStruct n gs) ∧ gs !! i = Some (f.1, zero f.1.2).
Proof.
  intros Hf Hex Hrun.
  unfold cloneStruct in Hrun.
  unfold bind at 1 in Hrun. cbn [Type_ ret] in Hrun.
  unfold bind at 1 in Hrun. cbn [NumField ret] in Hrun.
  unfold bind at 1 in Hrun.
  destruct (for_acc (cloneStruct_field rec (Valid (VStruct n fs) false)) 0
              (length fs) (zero (typeof (VStruct n fs))) s)
    as [[[early|clone]|?|] sf] eqn:Hloop; try done.
  { pose proof (cloneStruct_early _ _ _ _ _ _ _ Hloop) as He.
    cbn [ret] in Hrun. injection Hrun as -> _. by destruct He. }
  unfold bind at 1 in Hrun. cbn [UpdateStats ret] in Hrun.
  injection Hrun as <- _.
  destruct (for_acc_post (cloneStruct_field rec (Valid (VStruct n fs) false))
              (λ _ a _, ∃ gs, a = VStruct n gs ∧ gs !! i = Some (f.1, zero f.1.2))
              (length fs) )
    with (from := 0) (a := zero (typeof (VStruct n fs))) (s := s)
         (a' := clone) (s' := sf)
    as (gs & -> & Hi).
  { intros j a st a' st' Hb (g0 & -> & Hi0).
    destruct (decide (j = i)) as [->|Hne].
    - rewrite (cloneStruct_field_unexported _ _ _ _ _ _ _ _ Hb Hi0 Hex). eauto.
    - destruct (cloneStruct_field_others _ _ _ _ _ _ _ Hb) as (g1 & -> & Hk).
      exists g1. split; [done|]. by rewrite Hk. }
  { done. }
  { rewrite zero_typeof_struct. eexists. split; [done|].
    by rewrite map_fmap, list_lookup_fmap, Hf. }
  eauto.
Qed.

(** One level, whatever the kind of the parent: when the parent returns
    without an error, so has the child; and the clone of the child, when
    it is not nil and fits, is in the clone of the parent. *)
Lemma child_stored src s st y sx o sx1 pv s' :
  child_at rec (Valid src false) s st (Valid y false) sx →
  rec (Valid y false) sx = (o, sx1) →
  structural rec (Valid src false) s = (Ret (pv, None), s') →
  ∃ rv, o = Ret (rv, None)
        ∧ ∀ r, rv = Some r → fits (typeof y) r →
               ∃ cl, pv = Some cl ∧ stored src s st y sx sx1 r cl s'.
Proof.
  intros Hc Hrec Hrun.
  inversion Hc; subst; cbn [structural Kind_ kind_of kind_of_type typeof] in Hrun.
  - by eapply stored_ptr.
  - by eapply stored_slice.
  - by eapply stored_array.
  - by eapply stored_map_value.
  - match goal with H : typeof _ = _ |- _ => rewrite H end.
    by eapply stored_field.
  - by eapply stored_iface.
Qed.

End level.

Section occurrences.

Variable methods : type → option Cloneable.
Variable cloners : list (type * Cloner).

(** [reaches fuel src s π y fy sy]: the call [deepClone] of [src] in state
    [s], with [fuel], makes at the path [π] below [src] the call
    [deepClone] of [y] in state [sy], with fuel [fy]: every value above
    [y] on the path is cloned by shape, and [y] is at a place of it that
    the composite cloner visits. *)
Inductive reaches : nat → value → state → list step → value → nat → state → Prop :=
| reaches_root fuel x s :
    reaches fuel x s [] x fuel s
| reaches_child fuel src s st x sx π y fy sy :
    no_method methods src →
    unregistered cloners (typeof src) →
    child_at (deepClone methods cloners fuel) (Valid src false) s st (Valid x false) sx →
    reaches fuel x sx π y fy sy →
    reaches (S fuel) src s (st :: π) y fy sy.

Hypothesis methods_heap : ∀ t m, methods t = Some m → heap_through_Clone m.
Hypothesis cloners_heap :
  ∀ t c, cloners_lookup cloners t = Some c → heap_through_Clone c.

(** What the call at the end of the path returns is in the clone of [src]
    at the same path. *)
Lemma reaches_flow fuel src s π y fy sy :
  reaches fuel src s π y fy sy →
  ∀ pv s' out sy1,
    deepClone methods cloners fuel (Valid src false) s = (Ret (pv, None), s') →
    deepClone methods cloners fy (Valid y false) sy = (Ret (Some out, None), sy1) →
    fits (typeof y) out →
    ∃ cl, pv = Some cl
          ∧ fits (typeof src) cl
          ∧ ∀ H, keeps_new s s' H →
                 locate H (boxed (typeof src) cl) π = Some (boxed (typeof y) out).
Proof.
  induction 1 as [fuel x s|fuel src s st x sx π y fy sy Hnm Hun Hc _ IH];
    intros pv s' out sy1 Hroot Hleaf Hfit.
  - rewrite Hroot in Hleaf. injection Hleaf as -> ->. by exists out.
  - rewrite dispatch_shape in Hroot by done.
    destruct (deepClone methods cloners fuel (Valid x false) sx) as [o sx1] eqn:Hx.
    destruct (child_stored (deepClone methods cloners fuel)
                (λ h0 x, frames_deepClone methods cloners methods_heap cloners_heap
                           h0 fuel x)
                _ _ _ _ _ _ _ _ _ Hc Hx Hroot)
      as (rv & -> & Hst).
    destruct (IH _ _ _ _ eq_refl Hleaf Hfit) as (r & -> & Hfx & Hbelow).
    destruct (Hst r eq_refl Hfx) as (cl & -> & Hfs & Hdom & Hagree & Hat).
    exists cl. split; [done|]. split; [done|]. intros H HH.
    rewrite (locate_step _ _ _ _ _ (Hat H HH)).
    apply Hbelow. intros b Hb Hnb.
    pose proof (Hagree b Hb Hnb) as Hb'.
    rewrite <- Hb'. apply HH.
    + apply elem_of_dom. rewrite Hb'. by apply elem_of_dom.
    + intros Hin. apply Hnb. by apply Hdom.
Qed.

End occurrences.

(** C7 (amended).  At every call of [deepClone] on a value that can be
    turned into an interface: when the dynamic type of the value has a
    [Clone] method, the call is the call of that method, with the manager's
    [Clone]; otherwise, when [RegisterCloner] was called for the type of
    the value, it is the call of the cloner that was registered last for
    it, with the manager's [Clone]; only otherwise, when nothing is
    registered for the type, the value is cloned by its shape.

    A cloner registered for [T] is used for every occurrence of exactly
    type [T] that the traversal reaches, at any depth: the root, the
    pointee of a pointer, an element of a slice or of an array, a value of
    a map, an exported field of a struct, the dynamic value of an
    interface.  The call made there is the call of the cloner; and when
    extensions write only through the [Clone] they are handed or into what
    they allocate, and the root call returns without an error, what the
    cloner returned is what the clone holds at the same path ([boxed] wraps
    it when the place has the interface type).  An unexported field of a
    struct is not traversed: the clone holds the zero value of the field's
    type there, whatever is registered for it. *)
Theorem dispatcher_order_at_reached_occurrences methods cloners :
  (∀ fuel x y m s,
     to_iface x = Some y → methods (typeof y) = Some m →
     deepClone methods cloners (S fuel) (Valid x false) s
     = m (Clone methods cloners fuel) y s)
  ∧ (∀ fuel x c s,
       no_method methods x → registered cloners (typeof x) c →
       deepClone methods cloners (S fuel) (Valid x false) s
       = c (Clone methods cloners fuel) (to_iface x) s)
  ∧ (∀ fuel x s,
       no_method methods x → unregistered cloners (typeof x) →
       deepClone methods cloners (S fuel) (Valid x false) s
       = structural (deepClone methods cloners fuel) (Valid x false) s)
  ∧ (∀ fuel src s π y fy sy c,
       reaches methods cloners fuel src s π y (S fy) sy →
       no_method methods y → registered cloners (typeof y) c →
       deepClone methods cloners (S fy) (Valid y false) sy
       = c (Clone methods cloners fy) (to_iface y) sy)
  ∧ ((∀ t m, methods t = Some m → heap_through_Clone m) →
     (∀ t c, cloners_lookup cloners t = Some c → heap_through_Clone c) →
     ∀ fuel src s π y fy sy c pv s' out sy1,
       reaches methods cloners fuel src s π y (S fy) sy →
       no_method methods y → registered cloners (typeof y) c →
       deepClone methods cloners fuel (Valid src false) s = (Ret (pv, None), s') →
       c (Clone methods cloners fy) (to_iface y) sy = (Ret (Some out, None), sy1) →
       fits (typeof y) out →
       ∃ cl, pv = Some cl
             ∧ locate (heap s') (boxed (typeof src) cl) π
               = Some (boxed (typeof y) out))
  ∧ (∀ fuel n fs s i f pv s',
       no_method methods (VStruct n fs) →
       unregistered cloners (typeof (VStruct n fs)) →
       fs !! i = Some f → exported f.1.1 = false →
       deepClone methods cloners (S fuel) (Valid (VStruct n fs) false) s
       = (Ret (pv, None), s') →
       ∃ gs, pv = Some (VStruct n gs) ∧ gs !! i = Some (f.1, zero f.1.2)).
Proof.
  split; [intros; by eapply dispatch_method|].
  split; [intros; by apply dispatch_cloner|].
  split; [intros; by apply dispatch_shape|].
  split; [intros; by apply dispatch_cloner|].
  split.
  - intros Hm Hc fuel src s π y fy sy c pv s' out sy1 Hreach Hnm Hreg Hroot Hout Hfit.
    rewrite <- (dispatch_cloner methods cloners fy y c sy Hnm Hreg) in Hout.
    destruct (reaches_flow methods cloners Hm Hc _ _ _ _ _ _ _ Hreach
                _ _ _ _ Hroot Hout Hfit) as (cl & -> & _ & Hat).
    exists cl. split; [done|]. by apply Hat.
  - intros fuel n fs s i f pv s' Hnm Hun Hf Hex Hrun.
    rewrite dispatch_shape in Hrun by done.
    cbn [structural Kind_ kind_of kind_of_type typeof] in Hrun.
    by eapply unexported_field_zero.
Qed.

(** C7 as stated fails for an occurrence in an unexported field: with
    [redact] registered for [Secret], the clone of a struct that holds a
    [Secret] in an unexported field holds the zero [Secret] there, not
    what the cloner returns. *)
Lemma unexported_occurrence_is_not_redacted :
  let cloners := RegisterCloner Secret redact [] in
  let safe := VStruct "Safe" [("secret", Secret, secret "s3cr3t")] in
  registered cloners Secret redact
  ∧ locate ∅ safe [FieldAt 0] = Some (secret "s3cr3t")
  ∧ typeof (secret "s3cr3t") = Secret
  ∧ ∃ cl s',
      Clone no_methods cloners 3 (Some safe) (NewCloneManager ∅)
      = (Ret (Some cl, None), s')
      ∧ locate (heap s') cl [FieldAt 0] = Some (secret "")
      ∧ secret "" ≠ secret "redacted".
Proof.
  cbv zeta. split; [apply registered_last|].
  split; [reflexivity|]. split; [reflexivity|].
  eexists _, _. split; [vm_compute; reflexivity|].
  split; [vm_compute; reflexivity|]. discriminate.
Qed.

Lemma redact_heap_through_Clone :
  ∀ t c, cloners_lookup (RegisterCloner Secret redact []) t = Some c →
         heap_through_Clone c.
Proof.
  intros t c Hc. rewrite cloners_lookup_RegisterCloner in Hc.
  destruct (type_eqb Secret t); [|discriminate Hc].
  injection Hc as <-. intros h0 Clone_ x _. by apply frames_ret.
Defined.

Lemma vault_is_cloned_by_shape p l m :
  no_method no_methods (vault p l m)
  ∧ unregistered (RegisterCloner Secret redact []) (typeof (vault p l m)).
Proof.
  split; [intros y _; reflexivity|]. repeat constructor. discriminate.
Defined.

(** The vault holds a [Secret] behind the pointer of its field [P] and
    as a value of the map of its field [M]: with [redact] registered, the
    clone of the vault holds the cloner's output at both places. *)
Lemma dispatcher_order_at_reached_occurrences_witness :
  ∃ cl s',
    deepClone no_methods (RegisterCloner Secret redact []) 4
      (Valid (vault 1%N 2%N 3%N) false) (NewCloneManager vault_heap)
    = (Ret (Some cl, None), s')
    ∧ locate (heap s') cl [FieldAt 1; Deref] = Some (secret "redacted")
    ∧ locate (heap s') cl [FieldAt 4; Key (VString "k")] = Some (secret "redacted").
Proof.
  destruct (dispatcher_order_at_reached_occurrences no_methods
              (RegisterCloner Secret redact []))
    as (_ & _ & _ & _ & Hflow & _).
  pose proof (Hflow ltac:(intros t m H; discriminate H) redact_heap_through_Clone)
    as Hflow'.
  destruct (vault_is_cloned_by_shape 1%N 2%N 3%N) as [Hnm Hun].
  edestruct (Hflow' 4 (vault 1%N 2%N 3%N) (NewCloneManager vault_heap)
               [FieldAt 1; Deref] (secret "p") 1) as (cl & Hcl & Hat).
  - eapply reaches_child; [exact Hnm|exact Hun| |].
    + eapply (at_field _ _ _ _ 1 _ _ ("P", TPtr Secret, VPtr Secret (Some 1%N)));
        [vm_compute; reflexivity|reflexivity|reflexivity|reflexivity].
    + eapply reaches_child.
      * intros y _. reflexivity.
      * repeat constructor. discriminate.
      * eapply at_ptr; [vm_compute; reflexivity|vm_compute; reflexivity|reflexivity].
      * apply reaches_root.
  - intros y _. reflexivity.
  - apply registered_last.
  - vm_compute. reflexivity.
  - vm_compute. reflexivity.
  - reflexivity.
  - edestruct (Hflow' 4 (vault 1%N 2%N 3%N) (NewCloneManager vault_heap)
                 [FieldAt 4; Key (VString "k")] (secret "m") 1)
      as (cl' & Hcl' & Hat').
    + eapply reaches_child; [exact Hnm|exact Hun| |].
      * eapply (at_field _ _ _ _ 4 _ _
                  ("M", TMap TString Secret, VMap TString Secret (Some 3%N)));
          [vm_compute; reflexivity|reflexivity|reflexivity|reflexivity].
      * eapply reaches_child.
        -- intros y _. reflexivity.
        -- repeat constructor. discriminate.
        -- eapply (at_map_value _ TString Secret 3%N _ [(VString "k", secret "m")]
                     _ _ 0 (VString "k") (secret "m"));
             [vm_compute; reflexivity|vm_compute; reflexivity
             |apply NoDup_singleton
             |intros kv Hin; apply list_elem_of_singleton in Hin as ->;
              split; [reflexivity|intros st; reflexivity]
             |vm_compute; reflexivity|reflexivity|vm_compute; reflexivity
             |vm_compute; reflexivity|reflexivity].
        -- apply reaches_root.
    + intros y _. reflexivity.
    + apply registered_last.
    + vm_compute. reflexivity.
    + vm_compute. reflexivity.
    + reflexivity.
    + eexists cl, _. split; [rewrite <- Hcl; vm_compute; reflexivity|].
      split; [exact Hat|].
      assert (cl = cl') as -> by congruence. exact Hat'.
Defined.
